(** * Playlist reconciliation engine of [services/plex_service.py]

    A shallow embedding of the three playlist policies of [PlexService]:
    [update_recent_raves] (incremental, capped), [sync_jam_jar] (full
    replace) and [sync_staff_picks] (broadcast), together with the part of
    the catalog client they drive.  The catalog is remote state; every
    request against it may raise, and the Python code wraps each replica's
    work in [try/except].  Both aspects are kept: the functions below live
    in a state-and-exception monad over the catalog and the local variables
    of the Python function being modelled.

    Around the policies the file embeds what they share the module with
    and what calls them: the rating playlist
    ([create_playlist_from_rating], [sync_top]), the report of recent
    additions ([get_recently_added] with its helpers, the command [added]
    and [build_tmdb_lookup] of [services/overseerr_service.py]), the album
    enrichment ([enrich_jazz_album]) and the replies of the commands
    [recent_raves_update] and [jam_jar_sync] of [main.py]. *)

From stdpp Require Import gmap strings list sorting pretty.

Local Open Scope nat_scope.

(** ** Data model *)

(** A [datetime] is counted in microseconds from [datetime.min], the least
    value of the Python type. *)
Definition datetime : Type := N.
Definition datetime_min : datetime := 0%N.

(** The attributes of a catalog item that the engine reads.  Every item of
    the catalog carries them, so the [hasattr] tests of the source hold;
    [lastRatedAt] and [addedAt] may be [None], and a [datetime] is truthy. *)
Record Track : Type := {
  ratingKey : Z;
  title : string;
  grandparentTitle : option string;
  originalTitle : option string;
  lastRatedAt : option datetime;
  addedAt : option datetime
}.

Record Playlist : Type := {
  pl_title : string;
  pl_items : list Track
}.

(** A music or video section of a replica's library.  [sec_search] is the
    answer of the section to the five-star track search
    ([userRating>>9.9]); [None] stands for a request that raises. *)
Record LibSection : Type := {
  sec_type : string;
  sec_search : option (list Track)
}.

(** The requests of the catalog client that may raise for a replica; which
    of them do is part of the catalog's state. *)
Inductive Fault : Type :=
  | FSwitch | FSections | FPlaylists | FItems | FAdd | FRemove | FCreate.

#[global] Instance Fault_eq_dec : EqDecision Fault.
Proof. solve_decision. Defined.

Record Replica : Type := {
  r_sections : list LibSection;
  r_playlists : list Playlist;
  r_faults : list Fault
}.

Record AccountUser : Type := {
  u_title : string;
  u_home : bool
}.

(** The catalog: the admin scope of the server connection, the scopes
    reachable through [switchUser], and the account's user list ([None]
    when [myPlexAccount().users()] raises). *)
Record World : Type := {
  w_admin : Replica;
  w_users : gmap string Replica;
  w_account : option (list AccountUser)
}.

Inductive Scope : Type :=
  | Root
  | User (name : string).

#[global] Instance Scope_eq_dec : EqDecision Scope.
Proof. solve_decision. Defined.

(** A playlist object obtained from [playlists()]: the scope it belongs to
    and its position in that scope's playlist list. *)
Record Handle : Type := {
  h_scope : Scope;
  h_index : nat
}.

Inductive Exn : Type :=
  | ScopeUnavailable
  | CatalogReadFailure
  | PlaylistReadFailure
  | PlaylistWriteFailure.

Inductive Result (A : Type) : Type :=
  | Ok (a : A)
  | Raise (e : Exn).
Arguments Ok {A} a.
Arguments Raise {A} e.

(** ** The monad: catalog state, local variables, exceptions

    A raised exception does not undo what was done before it. *)
Definition M (L A : Type) : Type := World * L → Result A * (World * L).

#[global] Instance M_ret L : MRet (M L) := λ A a s, (Ok a, s).
#[global] Instance M_bind L : MBind (M L) := λ A B f m s,
  match m s with
  | (Ok a, s') => f a s'
  | (Raise e, s') => (Raise e, s')
  end.

Definition raise {L A} (e : Exn) : M L A := λ s, (Raise e, s).

(** [try: body except Exception: pass] (the handlers only log). *)
Definition try_except {L} (body : M L unit) : M L unit := λ s,
  match body s with
  | (Ok _, s') => (Ok (), s')
  | (Raise _, s') => (Ok (), s')
  end.

(** [for x in xs: body(x)]; an exception leaves the loop. *)
Fixpoint for_each {L A} (xs : list A) (body : A → M L unit) : M L unit :=
  match xs with
  | [] => mret ()
  | x :: rest => body x ;; for_each rest body
  end.

Definition get_world {L} : M L World := λ s, (Ok s.1, s).
Definition put_world {L} (w : World) : M L unit := λ s, (Ok (), (w, s.2)).
Definition get_locals {L} : M L L := λ s, (Ok s.2, s).
Definition modify_locals {L} (f : L → L) : M L unit := λ s, (Ok (), (s.1, f s.2)).

(** ** The catalog client

    The client library is no part of the repository.  Its requests follow
    the contract of the specification (section 6): scoped access by
    [switchUser], playlists found by title, ordered items, [addItems] that
    appends, [removeItems] that removes what it is given, and a search by
    rating. *)

Definition lookup_replica (sc : Scope) (w : World) : option Replica :=
  match sc with
  | Root => Some (w_admin w)
  | User n => w_users w !! n
  end.

Definition store_replica (sc : Scope) (r : Replica) (w : World) : World :=
  match sc with
  | Root => {| w_admin := r; w_users := w_users w; w_account := w_account w |}
  | User n => {| w_admin := w_admin w; w_users := <[n := r]> (w_users w);
                 w_account := w_account w |}
  end.

Definition faulty (f : Fault) (r : Replica) : bool := bool_decide (f ∈ r_faults r).

(** Modelled from the spec: a request of the catalog client.  It runs [k]
    on the replica behind [sc] unless the request [f] fails there; an
    unknown replica is [ScopeUnavailable]. *)
Definition request {L A} (sc : Scope) (f : Fault) (e : Exn)
    (k : Replica → M L A) : M L A :=
  w ← get_world;
  match lookup_replica sc w with
  | Some r => if faulty f r then raise e else k r
  | None => raise ScopeUnavailable
  end.

(** Modelled from the spec: [plex.switchUser(username)], the
    [switchScope] of the catalog client. *)
Definition switchUser {L} (username : string) : M L Scope :=
  request (User username) FSwitch ScopeUnavailable (λ _, mret (User username)).

(** Modelled from the spec: [user_plex.library.sections()] of the catalog
    client. *)
Definition library_sections {L} (sc : Scope) : M L (list LibSection) :=
  request sc FSections CatalogReadFailure (λ r, mret (r_sections r)).

(** Modelled from the spec: [lib.search(libtype='track',
    filters={'userRating>>': 9.9})], the [searchByRating] of the catalog
    client. *)
Definition search_five_star {L} (lib : LibSection) : M L (list Track) :=
  match sec_search lib with
  | Some ts => mret ts
  | None => raise CatalogReadFailure
  end.

(** Modelled from the spec: [user_plex.playlists()] of the catalog
    client. *)
Definition playlists {L} (sc : Scope) : M L (list Playlist) :=
  request sc FPlaylists PlaylistReadFailure (λ r, mret (r_playlists r)).

(** The search loop [for pl in ...: if pl.title == playlist_name: playlist =
    pl; break]: the position of the first playlist with that title.  The
    test [if playlist:] that follows it is whether one was found. *)
Fixpoint find_index (playlist_name : string) (pls : list Playlist) : option nat :=
  match pls with
  | [] => None
  | pl :: rest =>
      if decide (pl_title pl = playlist_name) then Some 0
      else S <$> find_index playlist_name rest
  end.

Definition find_playlist (sc : Scope) (playlist_name : string)
    (pls : list Playlist) : option Handle :=
  (λ i, {| h_scope := sc; h_index := i |}) <$> find_index playlist_name pls.

(** Modelled from the spec: [playlist.items()] of the catalog client, the
    current items in order. *)
Definition items {L} (h : Handle) : M L (list Track) :=
  request (h_scope h) FItems PlaylistReadFailure (λ r,
    match r_playlists r !! h_index h with
    | Some pl => mret (pl_items pl)
    | None => raise PlaylistReadFailure
    end).

Definition set_items (its : list Track) (pl : Playlist) : Playlist :=
  {| pl_title := pl_title pl; pl_items := its |}.

Definition update_playlist (i : nat) (f : list Track → list Track)
    (r : Replica) : Replica :=
  {| r_sections := r_sections r;
     r_playlists := alter (λ pl, set_items (f (pl_items pl)) pl) i (r_playlists r);
     r_faults := r_faults r |}.

(** Modelled from the spec: [playlist.addItems(tracks)] of the catalog
    client; the tracks are appended. *)
Definition addItems {L} (h : Handle) (tracks : list Track) : M L unit :=
  request (h_scope h) FAdd PlaylistWriteFailure (λ r,
    w ← get_world;
    put_world (store_replica (h_scope h) (update_playlist (h_index h) (λ its, its ++ tracks) r) w)).

(** Modelled from the spec: removal of one entry by the catalog client, the
    first one carrying the given rating key (the stable identifier). *)
Fixpoint remove_first (k : Z) (its : list Track) : option (list Track) :=
  match its with
  | [] => None
  | t :: rest =>
      if decide (ratingKey t = k) then Some rest
      else (t ::.) <$> remove_first k rest
  end.

Fixpoint remove_all (tracks its : list Track) : option (list Track) :=
  match tracks with
  | [] => Some its
  | t :: rest => its' ← remove_first (ratingKey t) its; remove_all rest its'
  end.

(** Modelled from the spec: [playlist.removeItems(tracks)] of the catalog
    client; one entry is removed for each track, and a track that has no
    entry makes the request fail. *)
Definition removeItems {L} (h : Handle) (tracks : list Track) : M L unit :=
  request (h_scope h) FRemove PlaylistWriteFailure (λ r,
    match r_playlists r !! h_index h with
    | Some pl =>
        match remove_all tracks (pl_items pl) with
        | Some its' =>
            w ← get_world;
            put_world (store_replica (h_scope h) (update_playlist (h_index h) (λ _, its') r) w)
        | None => raise PlaylistWriteFailure
        end
    | None => raise PlaylistWriteFailure
    end).

(** Modelled from the spec: [user_plex.createPlaylist(playlist_name,
    items=tracks)] of the catalog client; the catalog refuses a playlist
    without items (see the comment in [sync_jam_jar]). *)
Definition createPlaylist {L} (sc : Scope) (playlist_name : string)
    (tracks : list Track) : M L unit :=
  request sc FCreate PlaylistWriteFailure (λ r,
    match tracks with
    | [] => raise PlaylistWriteFailure
    | _ =>
        w ← get_world;
        put_world (store_replica sc
          {| r_sections := r_sections r;
             r_playlists := r_playlists r ++ [{| pl_title := playlist_name; pl_items := tracks |}];
             r_faults := r_faults r |} w)
    end).

(** ** Python helpers *)

(** [a or b] for an optional string [a]: [None] and [''] are falsy. *)
Definition str_or (a : option string) (b : string) : string :=
  match a with
  | Some s => if decide (s = "") then b else s
  | None => b
  end.

(** [track.grandparentTitle or track.originalTitle or 'Unknown'] *)
Definition artist_of (t : Track) : string :=
  str_or (grandparentTitle t) (str_or (originalTitle t) "Unknown").

(** [list.sort(key=..., reverse=True)] and [sorted(..., reverse=True)]:
    descending by key, entries with equal keys keep their order. *)
Fixpoint insert_desc {A} (key : A → datetime) (x : A) (l : list A) : list A :=
  match l with
  | [] => [x]
  | y :: l' =>
      if (key x <? key y)%N then y :: insert_desc key x l' else x :: y :: l'
  end.

Definition sort_desc {A} (key : A → datetime) (l : list A) : list A :=
  foldr (insert_desc key) [] l.

(** ** Local variables and results *)

(** The local variables of [update_recent_raves] that outlive one loop
    iteration. *)
Record RavesLocals : Type := {
  all_rated_tracks : list Track;
  track_users : gmap Z string;
  user_tracks : list Track;
  total_added : nat
}.

Definition raves_initial : RavesLocals :=
  {| all_rated_tracks := []; track_users := ∅; user_tracks := []; total_added := 0 |}.

(** One row of the ['tracks'] list returned by [update_recent_raves]. *)
Record RatedEntry : Type := {
  e_title : string;
  e_artist : string;
  e_user : string;
  e_rated_at : string
}.

Record RavesResult : Type := {
  added : nat;
  total : nat;
  tracks : list RatedEntry
}.

(** A value of the [track_info] dictionary of the two membership merges. *)
Record TrackInfo : Type := {
  ti_track : Track;
  ti_added_at : option datetime;
  ti_added_by : string;
  ti_title : string;
  ti_artist : string
}.

(** The local variables of [sync_jam_jar] and [sync_staff_picks].  The
    dictionary keeps insertion order, which [values()] exposes, so it is
    an association list; [users_updated] is only used by
    [sync_staff_picks]. *)
Record SyncLocals : Type := {
  track_info : list (Z * TrackInfo);
  users_updated : nat
}.

Definition sync_initial : SyncLocals := {| track_info := []; users_updated := 0 |}.

(** One row of the ['tracks'] list of the membership merges. *)
Record MemberEntry : Type := {
  m_title : string;
  m_artist : string;
  m_user : string;
  m_added_at : string
}.

Record JamResult : Type := {
  jam_total : nat;
  jam_tracks : list MemberEntry
}.

Record StaffResult : Type := {
  sp_total : nat;
  sp_tracks : list MemberEntry;
  sp_users_updated : nat
}.

Definition default_max_songs : nat := 50.

(** ** Rating merge: sort, deduplicate, cap *)

(** [lambda t: t.lastRatedAt]; only tracks that carry the timestamp are
    ever collected (see [collect_ratings]). *)
Definition rated_key (t : Track) : datetime := default datetime_min (lastRatedAt t).

(** The loop over the sorted tracks with [unique_tracks] and [seen_keys];
    it is left as soon as [len(unique_tracks) >= max_songs]. *)
Fixpoint dedup_capped (max_songs : nat) (tracks unique_tracks : list Track)
    (seen_keys : gset Z) : list Track :=
  match tracks with
  | [] => unique_tracks
  | track :: rest =>
      if decide (ratingKey track ∈ seen_keys)
      then dedup_capped max_songs rest unique_tracks seen_keys
      else
        let unique_tracks' := unique_tracks ++ [track] in
        if decide (max_songs ≤ length unique_tracks') then unique_tracks'
        else dedup_capped max_songs rest unique_tracks' ({[ratingKey track]} ∪ seen_keys)
  end.

Definition merge_ratings (max_songs : nat) (collected : list Track) : list Track :=
  dedup_capped max_songs (sort_desc rated_key collected) [] ∅.

(** ** Membership merge: earliest [addedAt] per key *)

Fixpoint info_lookup (key : Z) (info : list (Z * TrackInfo)) : option TrackInfo :=
  match info with
  | [] => None
  | (k, v) :: rest => if decide (k = key) then Some v else info_lookup key rest
  end.

Fixpoint info_update (key : Z) (f : TrackInfo → TrackInfo)
    (info : list (Z * TrackInfo)) : list (Z * TrackInfo) :=
  match info with
  | [] => []
  | (k, v) :: rest =>
      if decide (k = key) then (k, f v) :: rest else (k, v) :: info_update key f rest
  end.

(** [item.addedAt and (not existing['added_at'] or item.addedAt <
    existing['added_at'])] *)
Definition adds_earlier (item_added existing_added : option datetime) : bool :=
  match item_added with
  | None => false
  | Some t =>
      match existing_added with
      | None => true
      | Some t' => (t <? t')%N
      end
  end.

Definition reattribute (t : option datetime) (username : string) (v : TrackInfo) : TrackInfo :=
  {| ti_track := ti_track v; ti_added_at := t; ti_added_by := username;
     ti_title := ti_title v; ti_artist := ti_artist v |}.

(** The body of [for item in items] in both membership merges. *)
Definition merge_item (username : string) (info : list (Z * TrackInfo))
    (item : Track) : list (Z * TrackInfo) :=
  let key := ratingKey item in
  match info_lookup key info with
  | None =>
      info ++ [(key, {| ti_track := item; ti_added_at := addedAt item;
                        ti_added_by := username; ti_title := title item;
                        ti_artist := artist_of item |})]
  | Some existing =>
      if adds_earlier (addedAt item) (ti_added_at existing)
      then info_update key (reattribute (addedAt item) username) info
      else info
  end.

(** [lambda x: x['added_at'] if x['added_at'] else datetime.min] *)
Definition added_key (v : TrackInfo) : datetime := default datetime_min (ti_added_at v).

Definition sorted_info (info : list (Z * TrackInfo)) : list TrackInfo :=
  sort_desc added_key (snd <$> info).

(** ** The three policies *)

Section Engine.

(** [datetime.strftime('%m/%d')]; the calendar is left uninterpreted. *)
Variable strftime_md : datetime → string.

Definition format_date (d : option datetime) : string :=
  match d with
  | Some t => strftime_md t
  | None => EmptyString
  end.

(** *** [update_recent_raves] *)

(** Step 1, the body of [try] for one contributor. *)
Definition collect_ratings (username : string) : M RavesLocals unit :=
  user_plex ← switchUser username;
  sections ← library_sections user_plex;
  let music_libs := filter (λ lib, sec_type lib = "artist"%string) sections in
  modify_locals (λ l,
    {| all_rated_tracks := all_rated_tracks l; track_users := track_users l;
       user_tracks := []; total_added := total_added l |});;
  for_each music_libs (λ lib,
    results ← search_five_star lib;
    for_each results (λ track,
      match lastRatedAt track with
      | Some _ =>
          modify_locals (λ l,
            {| all_rated_tracks := all_rated_tracks l;
               track_users := <[ratingKey track := username]> (track_users l);
               user_tracks := user_tracks l ++ [track];
               total_added := total_added l |})
      | None => mret ()
      end));;
  modify_locals (λ l,
    {| all_rated_tracks := all_rated_tracks l ++ user_tracks l;
       track_users := track_users l; user_tracks := user_tracks l;
       total_added := total_added l |}).

(** [total_added += n] *)
Definition bump (n : nat) (l : RavesLocals) : RavesLocals :=
  {| all_rated_tracks := all_rated_tracks l; track_users := track_users l;
     user_tracks := user_tracks l; total_added := total_added l + n |}.

Definition add_count (n : nat) : M RavesLocals unit := modify_locals (bump n).

(** [t for t in unique_tracks if t.ratingKey not in existing_keys] *)
Definition new_tracks_of (unique_tracks existing : list Track) : list Track :=
  let existing_keys : gset Z := list_to_set (ratingKey <$> existing) in
  filter (λ t, ratingKey t ∉ existing_keys) unique_tracks.

(** Step 3, the body of [try] for one contributor. *)
Definition push_ratings (unique_tracks : list Track) (max_songs : nat)
    (playlist_name username : string) : M RavesLocals unit :=
  user_plex ← switchUser username;
  pls ← playlists user_plex;
  match find_playlist user_plex playlist_name pls with
  | Some playlist =>
      existing ← items playlist;
      let new_tracks := new_tracks_of unique_tracks existing in
      match new_tracks with
      | _ :: _ =>
          addItems playlist new_tracks;;
          add_count (length new_tracks);;
          current_items ← items playlist;
          if decide (max_songs < length current_items)
          then removeItems playlist (drop max_songs current_items)
          else mret ()
      | [] => mret ()
      end
  | None =>
      createPlaylist user_plex playlist_name unique_tracks;;
      add_count (length unique_tracks)
  end.

Definition rated_entry (users : gmap Z string) (track : Track) : RatedEntry :=
  {| e_title := title track;
     e_artist := artist_of track;
     e_user := default "Unknown"%string (users !! ratingKey track);
     e_rated_at := format_date (lastRatedAt track) |}.

Definition raves_nothing : RavesResult := {| added := 0; total := 0; tracks := [] |}.

Definition update_recent_raves (contributors : list string) (max_songs : nat)
    (playlist_name : string) : M RavesLocals RavesResult :=
  for_each contributors (λ username, try_except (collect_ratings username));;
  l ← get_locals;
  match all_rated_tracks l with
  | [] => mret raves_nothing
  | _ :: _ =>
      let unique_tracks := merge_ratings max_songs (all_rated_tracks l) in
      match unique_tracks with
      | [] => mret raves_nothing
      | _ :: _ =>
          let track_list := rated_entry (track_users l) <$> unique_tracks in
          for_each contributors (λ username,
            try_except (push_ratings unique_tracks max_songs playlist_name username));;
          l' ← get_locals;
          mret {| added := total_added l'; total := length unique_tracks;
                  tracks := track_list |}
      end
  end.

(** *** The membership merges *)

(** Step 1 of [sync_jam_jar] and of [sync_staff_picks], the body of [try]
    for one member or curator (the two loops differ in their log lines
    only). *)
Definition collect_playlist (playlist_name username : string) : M SyncLocals unit :=
  user_plex ← switchUser username;
  pls ← playlists user_plex;
  match find_playlist user_plex playlist_name pls with
  | Some playlist =>
      its ← items playlist;
      modify_locals (λ l,
        {| track_info := foldl (merge_item username) (track_info l) its;
           users_updated := users_updated l |})
  | None => mret ()
  end.

Definition member_entry (t : TrackInfo) : MemberEntry :=
  {| m_title := ti_title t; m_artist := ti_artist t; m_user := ti_added_by t;
     m_added_at := format_date (ti_added_at t) |}.

(** Clear and repopulate an existing playlist, or create it: the write
    made for every target of [sync_jam_jar] and [sync_staff_picks]. *)
Definition replace_playlist (sc : Scope) (playlist_name : string)
    (tracks_to_sync : list Track) : M SyncLocals unit :=
  pls ← playlists sc;
  match find_playlist sc playlist_name pls with
  | Some playlist =>
      current_items ← items playlist;
      match current_items with
      | _ :: _ => removeItems playlist current_items
      | [] => mret ()
      end;;
      addItems playlist tracks_to_sync
  | None => createPlaylist sc playlist_name tracks_to_sync
  end.

(** Step 3 of [sync_jam_jar], the body of [try] for one member. *)
Definition push_member (playlist_name : string) (tracks_to_sync : list Track)
    (username : string) : M SyncLocals unit :=
  user_plex ← switchUser username;
  replace_playlist user_plex playlist_name tracks_to_sync.

(** The read-only visit of every member when nothing was collected. *)
Definition probe_playlist (playlist_name username : string) : M SyncLocals unit :=
  user_plex ← switchUser username;
  pls ← playlists user_plex;
  match find_playlist user_plex playlist_name pls with
  | Some _ => mret ()
  | None => mret ()
  end.

Definition sync_jam_jar (members : list string) (playlist_name : string)
    : M SyncLocals JamResult :=
  for_each members (λ username, try_except (collect_playlist playlist_name username));;
  l ← get_locals;
  match track_info l with
  | [] =>
      for_each members (λ username, try_except (probe_playlist playlist_name username));;
      mret {| jam_total := 0; jam_tracks := [] |}
  | _ :: _ =>
      let sorted_tracks := sorted_info (track_info l) in
      let tracks_to_sync := ti_track <$> sorted_tracks in
      let track_list := member_entry <$> sorted_tracks in
      for_each members (λ username,
        try_except (push_member playlist_name tracks_to_sync username));;
      mret {| jam_total := length tracks_to_sync; jam_tracks := track_list |}
  end.

(** Modelled from the spec: [self.plex.myPlexAccount().users()] of the
    catalog client. *)
Definition account_users : M SyncLocals (list AccountUser) :=
  w ← get_world;
  match w_account w with
  | Some us => mret us
  | None => raise CatalogReadFailure
  end.

Definition count_user : M SyncLocals unit :=
  modify_locals (λ l,
    {| track_info := track_info l; users_updated := users_updated l + 1 |}).

(** Step 3 of [sync_staff_picks]: the bodies of [try] for the admin and
    for one home user. *)
Definition push_admin (playlist_name : string) (tracks_to_sync : list Track)
    : M SyncLocals unit :=
  replace_playlist Root playlist_name tracks_to_sync;;
  count_user.

Definition push_home_user (playlist_name : string) (tracks_to_sync : list Track)
    (user : AccountUser) : M SyncLocals unit :=
  user_plex ← switchUser (u_title user);
  replace_playlist user_plex playlist_name tracks_to_sync;;
  count_user.

Definition sync_staff_picks (curators : list string) (playlist_name : string)
    : M SyncLocals StaffResult :=
  for_each curators (λ username, try_except (collect_playlist playlist_name username));;
  l ← get_locals;
  match track_info l with
  | [] => mret {| sp_total := 0; sp_tracks := []; sp_users_updated := 0 |}
  | _ :: _ =>
      let sorted_tracks := sorted_info (track_info l) in
      let tracks_to_sync := ti_track <$> sorted_tracks in
      let track_list := member_entry <$> sorted_tracks in
      all_users ← account_users;
      let home_users := filter (λ u, u_home u = true) all_users in
      try_except (push_admin playlist_name tracks_to_sync);;
      for_each home_users (λ user,
        try_except (push_home_user playlist_name tracks_to_sync user));;
      l' ← get_locals;
      mret {| sp_total := length tracks_to_sync; sp_tracks := track_list;
              sp_users_updated := users_updated l' |}
  end.

End Engine.

(** ** Calls and observations *)

(** A call of a method: fresh local variables, which are dropped on
    return. *)
Definition call {L A} (init : L) (m : M L A) (w : World) : Result A * World :=
  let '(r, (w', _)) := m (w, init) in (r, w').

(** The playlist a scope shows under a title, and its items (none when
    there is no such playlist). *)
Definition lookup_playlist (playlist_name : string) (r : Replica) : option Playlist :=
  i ← find_index playlist_name (r_playlists r); r_playlists r !! i.

Definition contents (playlist_name : string) (r : Replica) : list Track :=
  from_option pl_items [] (lookup_playlist playlist_name r).

Definition user_contents (playlist_name username : string) (w : World) : list Track :=
  from_option (contents playlist_name) [] (w_users w !! username).

(** What step 1 of a membership merge reads from one member: the items of
    the member's playlist when every request of the read succeeds. *)
Definition visible_items (playlist_name username : string) (w : World) : list Track :=
  match w_users w !! username with
  | Some r =>
      if faulty FSwitch r || faulty FPlaylists r then []
      else match lookup_playlist playlist_name r with
           | Some pl => if faulty FItems r then [] else pl_items pl
           | None => []
           end
  | None => []
  end.

(** The [track_info] dictionary after step 1, and the merged list that
    step 3 writes. *)
Definition collected_info (names : list string) (playlist_name : string)
    (w : World) : list (Z * TrackInfo) :=
  track_info
    (for_each names (λ username, try_except (collect_playlist playlist_name username))
       (w, sync_initial)).2.2.

Definition merged_tracks (names : list string) (playlist_name : string)
    (w : World) : list Track :=
  ti_track <$> sorted_info (collected_info names playlist_name w).

(** The local variables of [update_recent_raves] after step 1, and the
    merged, capped list of step 2. *)
Definition collected_ratings (contributors : list string) (w : World) : RavesLocals :=
  (for_each contributors (λ username, try_except (collect_ratings username))
     (w, raves_initial)).2.2.

Definition merged_ratings (contributors : list string) (max_songs : nat)
    (w : World) : list Track :=
  merge_ratings max_songs (all_rated_tracks (collected_ratings contributors w)).

(** A replica none of whose requests fails. *)
Definition fault_free (r : Replica) : Prop := r_faults r = [].

(** ** Concrete catalogs used by the examples *)

Definition rated (key : Z) (name : string) (day : N) : Track :=
  {| ratingKey := key; title := name; grandparentTitle := None;
     originalTitle := None; lastRatedAt := Some day; addedAt := None |}.

Definition member_item (key : Z) (name : string) (day : option N) : Track :=
  {| ratingKey := key; title := name; grandparentTitle := None;
     originalTitle := None; lastRatedAt := None; addedAt := day |}.

Definition music (five_star : list Track) : list LibSection :=
  [{| sec_type := "artist"; sec_search := Some five_star |}].

Definition replica_of (five_star : list Track) (pls : list Playlist) : Replica :=
  {| r_sections := music five_star; r_playlists := pls; r_faults := [] |}.

Definition catalog (admin : Replica) (users : list (string * Replica))
    (account : list AccountUser) : World :=
  {| w_admin := admin; w_users := list_to_map users; w_account := Some account |}.

Definition no_format (d : datetime) : string := EmptyString.

(** The order of a list sorted by [sort_desc]: earlier entries have keys at
    least as large as later ones. *)
Definition desc {A} (key : A → datetime) (a b : A) : Prop := (key b ≤ key a)%N.

(** The rating keys of a list of tracks. *)
Definition keys_of (l : list Track) : list Z := ratingKey <$> l.

(** The loop invariant relating [unique_tracks] and [seen_keys]. *)
Definition seen_ok (unique_tracks : list Track) (seen_keys : gset Z) : Prop :=
  (∀ k, k ∈ seen_keys ↔ k ∈ keys_of unique_tracks) ∧ NoDup (keys_of unique_tracks).

(** The items read by step 1 of a membership merge, each with the member it
    was read from, in the order in which the loop meets them. *)
Definition occurrences (names : list string) (playlist_name : string)
    (w : World) : list (string * Track) :=
  names ≫= λ username, (username,.) <$> visible_items playlist_name username w.

Definition merge_occurrence (info : list (Z * TrackInfo)) (o : string * Track)
    : list (Z * TrackInfo) :=
  merge_item o.1 info o.2.

Definition new_info (username : string) (item : Track) : TrackInfo :=
  {| ti_track := item; ti_added_at := addedAt item; ti_added_by := username;
     ti_title := title item; ti_artist := artist_of item |}.

(** What a request made in scope [sc] may change in the catalog: the
    playlists of [sc], and nothing else. *)
Definition evolves (sc : Scope) (w w' : World) : Prop :=
  w_account w' = w_account w
  ∧ (∀ sc', sc' ≠ sc → lookup_replica sc' w' = lookup_replica sc' w)
  ∧ r_faults <$> lookup_replica sc w' = r_faults <$> lookup_replica sc w
  ∧ r_sections <$> lookup_replica sc w' = r_sections <$> lookup_replica sc w.

(** A computation all of whose runs relate the state before to the state
    after by [R], whether it returns or raises. *)
Definition respects {L A} (R : relation (World * L)) (m : M L A) : Prop :=
  ∀ s r s', m s = (r, s') → R s s'.

(** Only the catalog entry of [sc] may change, and no local variable. *)
Definition stays {L} (sc : Scope) : relation (World * L) :=
  λ s s', s'.2 = s.2 ∧ evolves sc s.1 s'.1.

(** Only the catalog entry of [sc] may change; local variables are free. *)
Definition moves {L} (sc : Scope) : relation (World * L) :=
  λ s s', evolves sc s.1 s'.1.

(** The replica behind [sc] exists and satisfies [P]. *)
Definition holds {L} (sc : Scope) (P : Replica → Prop) (s : World * L) : Prop :=
  ∃ r, lookup_replica sc s.1 = Some r ∧ P r.

(** A replica without faults whose playlist holds exactly [tracks]. *)
Definition synced (playlist_name : string) (tracks : list Track) (r : Replica) : Prop :=
  fault_free r ∧ ∃ pl, lookup_playlist playlist_name r = Some pl ∧ pl_items pl = tracks.

(** The targets of step 3 of [sync_staff_picks]: the admin scope ([None])
    followed by the home users, with the scope each one is written in and
    the body of its [try]. *)
Definition staff_targets (home_users : list AccountUser) : list (option AccountUser) :=
  None :: (Some <$> home_users).

Definition target_scope (t : option AccountUser) : Scope :=
  match t with
  | None => Root
  | Some user => User (u_title user)
  end.

Definition push_target (playlist_name : string) (tracks_to_sync : list Track)
    (t : option AccountUser) : M SyncLocals unit :=
  match t with
  | None => push_admin playlist_name tracks_to_sync
  | Some user => push_home_user playlist_name tracks_to_sync user
  end.

(** [home_users = [u for u in all_users if getattr(u, 'home', False)]] *)
Definition home_users_of (w : World) : list AccountUser :=
  filter (λ u, u_home u = true) (default [] (w_account w)).

Definition counted (n : nat) (l : SyncLocals) : SyncLocals :=
  {| track_info := track_info l; users_updated := users_updated l + n |}.

Definition home (name : string) : AccountUser := {| u_title := name; u_home := true |}.
Definition guest (name : string) : AccountUser := {| u_title := name; u_home := false |}.

Definition holding (playlist_name : string) (its : list Track) : Replica :=
  replica_of [] [{| pl_title := playlist_name; pl_items := its |}].

(** Broadcast scenario: curators [A] and [B] hold [T1] and [T2]; the
    membership is [A], [B], [C] and the admin [D]. *)
Definition T1 : Track := member_item 1 "T1" (Some 1%N).
Definition T2 : Track := member_item 2 "T2" (Some 2%N).

Definition broadcast_scenario : World :=
  catalog (replica_of [] [])
    [("A", holding "Staff Picks" [T1]); ("B", holding "Staff Picks" [T2]);
     ("C", replica_of [] [])]
    [home "A"; home "B"; home "C"].

(** The same with a fifth user [E] that the account lists without the
    home flag. *)
Definition broadcast_with_guest : World :=
  catalog (replica_of [] [])
    [("A", holding "Staff Picks" [T1]); ("B", holding "Staff Picks" [T2]);
     ("C", replica_of [] []); ("E", replica_of [] [])]
    [home "A"; home "B"; home "C"; guest "E"].

(** The items of an existing playlist after step 3 of [update_recent_raves]
    has run for its replica without a failing request: the new tracks are
    appended, and past [max_songs] the tail is removed. *)
Definition after_push (unique_tracks : list Track) (max_songs : nat)
    (existing : list Track) : list Track :=
  match new_tracks_of unique_tracks existing with
  | [] => existing
  | new_tracks =>
      let current_items := existing ++ new_tracks in
      if decide (max_songs < length current_items)
      then default current_items
             (remove_all (drop max_songs current_items) current_items)
      else current_items
  end.

(** The playlist of a replica after such a run. *)
Definition pushed (unique_tracks : list Track) (max_songs : nat)
    (playlist_name : string) (r : Replica) : list Track :=
  match lookup_playlist playlist_name r with
  | Some pl => after_push unique_tracks max_songs (pl_items pl)
  | None => unique_tracks
  end.

(** What step 1 of [update_recent_raves] may change: local variables other
    than the counter. *)
Definition reads_only : relation (World * RavesLocals) :=
  λ s s', s'.1 = s.1 ∧ total_added s'.2 = total_added s.2.

(** A contributor whose playlist is longer than the cap and already holds
    the only five-star track. *)
Definition numbered (keys : list nat) : list Track :=
  (λ i, rated (Z.of_nat i) "track" (N.of_nat i)) <$> keys.

Definition overlong_world : World :=
  catalog (replica_of [] [])
    [("A", {| r_sections := music [rated 1 "track" 1];
              r_playlists := [{| pl_title := "Recent Raves";
                                 pl_items := numbered (seq 1 51) |}];
              r_faults := [] |})]
    [].

(** The state of a replica's playlist in which a fault-free push leaves it
    within the cap: absent, within the cap already, or lacking a merged
    track. *)
Definition cappable (merged : list Track) (max_songs : nat)
    (playlist_name : string) (r : Replica) : Prop :=
  fault_free r
  ∧ match lookup_playlist playlist_name r with
    | None => True
    | Some pl =>
        length (pl_items pl) ≤ max_songs
        ∨ new_tracks_of merged (pl_items pl) ≠ []
    end.

Definition capped (max_songs : nat) (playlist_name : string) (r : Replica) : Prop :=
  fault_free r
  ∧ ∃ pl, lookup_playlist playlist_name r = Some pl
      ∧ length (pl_items pl) ≤ max_songs.

(** A contributor whose playlist is full - the fifty tracks rated on days 1
    to 50, newest first, as an earlier run created it - and who has since
    given five stars to track 51. *)
Definition full_playlist_world : World :=
  catalog (replica_of [] [])
    [("A", {| r_sections := music (numbered (seq 1 51));
              r_playlists := [{| pl_title := "Recent Raves";
                                 pl_items := numbered (reverse (seq 1 50)) |}];
              r_faults := [] |})]
    [].

(** The faults of the replica behind a scope ([None] when there is no such
    replica). *)
Definition faults_at (sc : Scope) (w : World) : option (list Fault) :=
  r_faults <$> lookup_replica sc w.

(** A scope that cannot be written: it is unknown, or both [addItems] and
    [createPlaylist] fail there. *)
Definition write_fails (sc : Scope) (w : World) : bool :=
  match faults_at sc w with
  | Some fs => bool_decide (FAdd ∈ fs) && bool_decide (FCreate ∈ fs)
  | None => true
  end.

(** A scope all of whose requests succeed. *)
Definition sound (sc : Scope) (w : World) : bool :=
  match faults_at sc w with
  | Some fs => bool_decide (fs = [])
  | None => false
  end.

(** A replica without faults that has received the push of the capped
    policy: its playlist exists and holds every merged track, unless it is
    filled up to the cap. *)
Definition delivered (merged : list Track) (max_songs : nat)
    (playlist_name : string) (r : Replica) : Prop :=
  fault_free r
  ∧ ∃ pl, lookup_playlist playlist_name r = Some pl
      ∧ ((∀ t, t ∈ merged → ratingKey t ∈ keys_of (pl_items pl))
         ∨ length (pl_items pl) = max_songs).

(** What step 1 of [update_recent_raves] reads from one contributor: the
    search results that carry [lastRatedAt], section by section until a
    search raises, and whether every request succeeded. *)
Definition with_rating_time (results : list Track) : list Track :=
  filter (λ track, is_Some (lastRatedAt track)) results.

Fixpoint scan_libs (libs : list LibSection) : list Track * bool :=
  match libs with
  | [] => ([], true)
  | lib :: rest =>
      match sec_search lib with
      | Some results =>
          (with_rating_time results ++ (scan_libs rest).1, (scan_libs rest).2)
      | None => ([], false)
      end
  end.

Definition rating_scan (username : string) (w : World) : list Track * bool :=
  match w_users w !! username with
  | Some r =>
      if faulty FSwitch r || faulty FSections r then ([], false)
      else scan_libs (filter (λ lib, sec_type lib = "artist") (r_sections r))
  | None => ([], false)
  end.

(** The tracks met in step 1 with the contributor they were met for, in
    the order of the loop, and the tracks that reach [all_rated_tracks]. *)
Definition rating_occurrences (contributors : list string) (w : World)
    : list (string * Track) :=
  contributors ≫= λ username, (username,.) <$> (rating_scan username w).1.

Definition kept_ratings (contributors : list string) (w : World) : list Track :=
  contributors ≫= λ username,
    if (rating_scan username w).2 then (rating_scan username w).1 else [].

(** [track_users[track.ratingKey] = username] *)
Definition attribute (users : gmap Z string) (o : string * Track) : gmap Z string :=
  <[ratingKey o.2 := o.1]> users.




(** A playlist with an item without [addedAt] followed by an item added at
    [datetime.min]. *)
Definition tie_world : World :=
  catalog (replica_of [] [])
    [("A", holding "Jam Jar"
             [member_item 1 "U" None; member_item 2 "V" (Some datetime_min)])]
    [].

(** A catalog in which nobody has rated or collected anything. *)
Definition quiet_world : World :=
  catalog (replica_of [] []) [("A", replica_of [] []); ("B", replica_of [] [])]
    [home "A"; home "B"].

(** Two members hold the same track [X]: [A] added it on day 1, [B] on day
    2; [B] also holds [Y], and [C] has no playlist yet. *)
Definition X_of_A : Track := member_item 7 "X" (Some 1%N).
Definition X_of_B : Track := member_item 7 "X" (Some 2%N).
Definition Y_of_B : Track := member_item 8 "Y" (Some 3%N).

Definition jam_world : World :=
  catalog (replica_of [] [])
    [("A", holding "Jam Jar" [X_of_A]); ("B", holding "Jam Jar" [X_of_B; Y_of_B]);
     ("C", replica_of [] [])]
    [].

(** Three contributors; no write to [B] succeeds. *)
Definition unwritable (five_star : list Track) : Replica :=
  {| r_sections := music five_star; r_playlists := []; r_faults := [FAdd; FCreate] |}.

Definition faulty_world : World :=
  catalog (replica_of [] [])
    [("A", replica_of [rated 1 "T1" 1] []); ("B", unwritable [rated 2 "T2" 2]);
     ("C", replica_of [] [])]
    [home "A"; home "B"; home "C"].

(** A playlist with an untimestamped item in front of a timestamped one. *)
Definition mixed_world : World :=
  catalog (replica_of [] [])
    [("A", holding "Jam Jar"
             [member_item 1 "U" None; member_item 2 "V" (Some 5%N)])]
    [].

(** Unfolds the requests and the monad. *)
Ltac run_monad :=
  unfold try_except, switchUser, playlists, items, library_sections, request,
    find_playlist, modify_locals, get_locals, get_world, put_world, raise;
  unfold mbind, M_bind, mret, M_ret; simpl.

(** The broadcast with an unwritable home user [B] between [A] and [C]. *)
Definition faulty_broadcast : World :=
  catalog (replica_of [] [])
    [("A", holding "Staff Picks" [T1]); ("B", unwritable []); ("C", replica_of [] [])]
    [home "A"; home "B"; home "C"].

(** What such a run adds to [total_added]. *)
Definition push_count (unique_tracks : list Track) (playlist_name : string)
    (r : Replica) : nat :=
  match lookup_playlist playlist_name r with
  | Some pl => length (new_tracks_of unique_tracks (pl_items pl))
  | None => length unique_tracks
  end.

(** A replica without faults whose playlist holds every merged track. *)
Definition complete (merged : list Track) (playlist_name : string)
    (r : Replica) : Prop :=
  fault_free r
  ∧ ∃ pl, lookup_playlist playlist_name r = Some pl
      ∧ new_tracks_of merged (pl_items pl) = [].

(** A replica without faults whose playlist, if it exists, has room for the
    merged tracks it lacks. *)
Definition roomy (merged : list Track) (max_songs : nat) (playlist_name : string)
    (r : Replica) : Prop :=
  fault_free r
  ∧ match lookup_playlist playlist_name r with
    | None => True
    | Some pl =>
        length (pl_items pl ++ new_tracks_of merged (pl_items pl)) ≤ max_songs
        ∨ new_tracks_of merged (pl_items pl) = []
    end.

(** Two catalogs with the same library sections and the same faults for
    every user: what step 1 of [update_recent_raves] reads. *)
Definition same_sources (w w' : World) : Prop :=
  ∀ username,
    (λ r, (r_sections r, r_faults r)) <$> w_users w' !! username
    = (λ r, (r_sections r, r_faults r)) <$> w_users w !! username.

Definition keeps_sources : relation (World * RavesLocals) :=
  λ s s', same_sources s.1 s'.1.

(** A contributor whose playlist has room for the new track. *)
Definition roomy_world : World :=
  catalog (replica_of [] [])
    [("A", {| r_sections := music (numbered (seq 1 3));
              r_playlists := [{| pl_title := "Recent Raves";
                                 pl_items := numbered [2; 1] |}];
              r_faults := [] |});
     ("B", replica_of [] [])]
    [].

(** A replica on which [addItems] fails while it can be switched to, read
    and cleared. *)
Definition add_blocked (r : Replica) : Prop :=
  faulty FAdd r = true
  ∧ faulty FSwitch r = false ∧ faulty FPlaylists r = false
  ∧ faulty FItems r = false ∧ faulty FRemove r = false.

(** A replica whose playlist exists and is empty. *)
Definition emptied (playlist_name : string) (r : Replica) : Prop :=
  ∃ pl, lookup_playlist playlist_name r = Some pl ∧ pl_items pl = [].

(** A member whose playlist holds two tracks and refuses additions. *)
Definition refusing_world : World :=
  catalog (replica_of [] [])
    [("A", {| r_sections := [];
              r_playlists := [{| pl_title := "Jam Jar"; pl_items := [X_of_A; Y_of_B] |}];
              r_faults := [FAdd] |});
     ("B", replica_of [] [])]
    [].

(** Curators hold tracks, but the account's user list cannot be read. *)
Definition accountless_world : World :=
  {| w_admin := replica_of [] [];
     w_users := list_to_map [("A", holding "Staff Picks" [T1])];
     w_account := None |}.

(** ** The commands of [main.py] that report a sync

    A command answers with one message: a text, or an embed with a title,
    fields and, if one is set, a footer.  A [string] holds one character of the Python
    string per element; the literals of [main.py] outside ASCII are kept in
    UTF-8. *)

Inductive Color : Type := green | blue | purple.

Record Embed : Type := {
  em_title : string;
  em_description : option string;
  em_color : Color;
  em_fields : list (string * string);
  em_footer : option string
}.

Inductive Reply : Type :=
  | Message (content : string)
  | Embedded (embed : Embed).

Definition newline : string := String (Stdlib.Strings.Ascii.ascii_of_nat 10) "".

(** [s[:n]] *)
Fixpoint str_take (n : nat) (s : string) : string :=
  match n, s with
  | S n', String c s' => String c (str_take n' s')
  | _, _ => ""
  end.

(** [s[:keep] + '..' if len(s) > limit else s] *)
Definition shorten (keep limit : nat) (s : string) : string :=
  if decide (limit < String.length s) then str_take keep s +:+ ".." else s.

Fixpoint spaces (n : nat) : string :=
  match n with
  | 0 => ""
  | S n' => " " +:+ spaces n'
  end.

(** [f"{i:2}"]: the decimal digits of [i], right-aligned in two columns. *)
Definition format_index (i : nat) : string :=
  spaces (2 - String.length (pretty i)) +:+ pretty i.

(** One entry of [track_lines], for the row numbered [i]. *)
Definition track_line (i : nat) (title artist user : string) : string :=
  "`" +:+ format_index i +:+ ".` **" +:+ shorten 30 32 title +:+ "** - "
    +:+ shorten 18 20 artist +:+ " (" +:+ str_take 8 user +:+ ")".

(** [range(0, stop, step)] for a positive [step]. *)
Definition range_by (step stop : nat) : list nat :=
  (λ k, k * step) <$> seq 0 ((stop + step - 1) / step).

Definition chunk_size : nat := 10.

(** [track_lines[chunk_idx:chunk_idx + chunk_size]] *)
Definition chunk_at (track_lines : list string) (chunk_idx : nat) : list string :=
  take chunk_size (drop chunk_idx track_lines).

Definition rated_lines (rows : list RatedEntry) : list string :=
  imap (λ i t, track_line (S i) (e_title t) (e_artist t) (e_user t)) rows.

Definition member_lines (rows : list MemberEntry) : list string :=
  imap (λ i t, track_line (S i) (m_title t) (m_artist t) (m_user t)) rows.

(** The fields added by the chunk loop of [recent_raves_update]. *)
Definition raves_fields (track_lines : list string) : list (string * string) :=
  (λ chunk_idx,
     ("Tracks " +:+ pretty (chunk_idx + 1) +:+ "-"
        +:+ pretty (min (chunk_idx + chunk_size) (length track_lines)),
      String.concat newline (chunk_at track_lines chunk_idx)))
    <$> range_by chunk_size (length track_lines).

(** The fields added by [jam_jar_sync]: the chunk loop over at most fifty
    lines, then the note on the rest. *)
Definition jam_fields (track_lines : list string) : list (string * string) :=
  ((λ chunk_idx,
      let chunk := chunk_at track_lines chunk_idx in
      ("Tracks " +:+ pretty (chunk_idx + 1) +:+ "-" +:+ pretty (chunk_idx + length chunk),
       String.concat newline chunk))
     <$> range_by chunk_size (min (length track_lines) 50))
  ++ (if decide (50 < length track_lines)
      then [("...", "And " +:+ pretty (length track_lines - 50) +:+ " more tracks")]
      else []).

Definition group_members : list string := ["WHS.IV"; "jac7k"; "rakbarut"; "Casey Stewart"].

Section Commands.

(** [datetime.strftime('%m/%d')] and the text of an exception, [f"{e}"];
    both are left uninterpreted. *)
Variable strftime_md : datetime → string.
Variable exn_text : Exn → string.

Definition recent_raves_update (w : World) : Reply * World :=
  let contributors := group_members in
  match call raves_initial
          (update_recent_raves strftime_md contributors default_max_songs "Recent Raves") w
  with
  | (Ok result, w') =>
      if decide (total result = 0)
      then (Message "âš ï¸ No 5-star tracks found from contributors.", w')
      else
        let heading :=
          if decide (0 < added result)
          then ("Recent Raves Updated (+" +:+ pretty (added result) +:+ " new)", green)
          else ("Recent Raves (up to date)", blue) in
        let track_lines := rated_lines (tracks result) in
        (Embedded
           {| em_title := heading.1; em_description := None; em_color := heading.2;
              em_fields := raves_fields track_lines;
              em_footer := Some (pretty (total result)
                             +:+ " tracks total â€¢ 5-star ratings only") |}, w')
  | (Raise e, w') => (Message ("âŒ Update failed: " +:+ exn_text e), w')
  end.

Definition jam_jar_sync (w : World) : Reply * World :=
  let members := group_members in
  match call sync_initial (sync_jam_jar strftime_md members "Jam Jar") w with
  | (Ok result, w') =>
      if decide (jam_total result = 0)
      then (Message "Jam Jar is empty. Add some tracks and sync again.", w')
      else
        let track_lines := member_lines (jam_tracks result) in
        (Embedded
           {| em_title := "Jam Jar Synced";
              em_description :=
                Some ("Merged playlist across " +:+ pretty (length members) +:+ " members");
              em_color := purple;
              em_fields := jam_fields track_lines;
              em_footer := Some (pretty (jam_total result) +:+ " tracks total") |}, w')
  | (Raise e, w') => (Message ("Jam Jar sync failed: " +:+ exn_text e), w')
  end.

End Commands.

(** The limits the comments of [main.py] name: a field value holds at most
    1024 characters, an embed at most 25 fields. *)
Definition field_limit : nat := 1024.
Definition fields_limit : nat := 25.

Definition within_limits (r : Reply) : Prop :=
  match r with
  | Message _ => True
  | Embedded e =>
      length (em_fields e) ≤ fields_limit
      ∧ Forall (λ f, String.length f.2 ≤ field_limit) (em_fields e)
  end.

(** ** The rating playlist: [create_playlist_from_rating] and [sync_top] *)

Section TopRated.

(** Ratings are floats; the arithmetic on them and the catalog's answer to
    a search by rating are left uninterpreted. *)
Variable rating : Type.

(** [min_rating - 0.1] *)
Variable minus_tenth : rating → rating.

(** Modelled from the spec: the answer of a section to
    [lib.search(libtype='track', filters={'userRating>>': r})], the
    [searchByRating] of the catalog client; [None] stands for a request
    that raises. *)
Variable search_above : rating → LibSection → option (list Track).

Definition search_rated {L} (r : rating) (lib : LibSection) : M L (list Track) :=
  match search_above r lib with
  | Some ts => mret ts
  | None => raise CatalogReadFailure
  end.

(** The only local variable that outlives a loop iteration is
    [all_top_tracks].  Nothing is caught: an exception of the catalog
    client leaves the function. *)
Definition create_playlist_from_rating (min_rating : rating)
    (playlist_name : string) : M (list Track) nat :=
  sections ← library_sections Root;
  let music_libs := filter (λ lib, sec_type lib = "artist"%string) sections in
  for_each music_libs (λ lib,
    tracks ← search_rated (minus_tenth min_rating) lib;
    modify_locals (λ all_top_tracks, all_top_tracks ++ tracks));;
  all_top_tracks ← get_locals;
  match all_top_tracks with
  | [] => mret 0
  | _ :: _ =>
      pls ← playlists Root;
      match find_playlist Root playlist_name pls with
      | Some playlist =>
          current ← items playlist;
          removeItems playlist current;;
          addItems playlist all_top_tracks
      | None => createPlaylist Root playlist_name all_top_tracks
      end;;
      mret (length all_top_tracks)
  end.

(** [8.0] *)
Variable eight : rating.

(** The command [sync_top] of [main.py]. *)
Definition sync_top (w : World) : Reply * World :=
  match call [] (create_playlist_from_rating eight "Top Rated") w with
  | (Ok count, w') =>
      (Message ("âœ… Synced 'Top Rated' playlist with " +:+ pretty count +:+ " tracks."),
       w')
  | (Raise _, w') => (Message "Failed to sync playlist. Check logs.", w')
  end.

(** What the search loop finds in the admin's library: the answers of the
    music sections in order, or [None] when the sections cannot be listed
    or one of the searches raises. *)
Definition found_in (r : rating) (libs : list LibSection) : option (list Track) :=
  (λ answers, concat answers) <$> mapM (search_above r) libs.

Definition top_tracks (min_rating : rating) (w : World) : option (list Track) :=
  if faulty FSections (w_admin w) then None
  else found_in (minus_tenth min_rating)
         (filter (λ lib, sec_type lib = "artist"%string) (r_sections (w_admin w))).

End TopRated.

(** An admin whose library answers every search with the same two tracks
    and who holds a playlist of one other track. *)
Definition answer_all (ts : list Track) (r : unit) (lib : LibSection)
    : option (list Track) := Some ts.

Definition rated_admin (faults : list Fault) : World :=
  catalog
    {| r_sections := music [];
       r_playlists := [{| pl_title := "Top Rated"; pl_items := [rated 9 "old" 1] |}];
       r_faults := faults |}
    [("A", holding "Top Rated" [rated 9 "old" 1])] [].

(** ** Library additions: [get_recently_added] and its helpers

    The report of recent additions reads other parts of the server than the
    playlist policies: movie and show sections, the media parts of an item
    and its external identifiers.  The server is read only, so it is a
    value; a request that raises is [None]. *)

Record Part : Type := {
  part_size : option N
}.

(** [media.parts]; [None] when reading the attribute raises. *)
Record Media : Type := {
  md_parts : option (list Part)
}.

Record Guid : Type := {
  guid_id : string
}.

(** An item of a library section: a movie, an episode, an album or a
    track.  [it_media] and [it_guids] are [None] when reading them raises;
    the last three attributes are [None] where [hasattr] is false. *)
Record Item : Type := {
  it_ratingKey : Z;
  it_title : string;
  it_year : option Z;
  it_addedAt : option datetime;
  it_media : option (list Media);
  it_guids : option (list Guid);
  it_grandparentRatingKey : option Z;
  it_grandparentTitle : option string;
  it_parentTitle : option string
}.

(** A section with its answers to the four listings that
    [get_recently_added] asks for: [recentlyAdded(maxresults=2000)],
    [searchEpisodes], [searchAlbums] and [searchTracks] (sorted by
    [addedAt], limited by the server). *)
Record MediaLibrary : Type := {
  lib_type : string;
  lib_recentlyAdded : option (list Item);
  lib_searchEpisodes : option (list Item);
  lib_searchAlbums : option (list Item);
  lib_searchTracks : option (list Item)
}.

Record Server : Type := {
  sv_sections : option (list MediaLibrary);
  sv_fetchItem : Z → option Item
}.

(** The exceptions that matter to the callers: [RuntimeError] of the [plex]
    property, [OverflowError] of the date arithmetic, and those of a
    request. *)
Inductive PyError : Type :=
  | RuntimeError
  | OverflowError
  | RequestFailed.

Inductive Outcome (A : Type) : Type :=
  | Returned (a : A)
  | Raised (e : PyError).
Arguments Returned {A} a.
Arguments Raised {A} e.

(** [datetime.max], and the bound on the days of a [timedelta]. *)
Definition datetime_max : datetime := 315537897599999999%N.
Definition microseconds_per_day : Z := 86400000000.
Definition timedelta_max_days : Z := 999999999.

(** [datetime.now() - timedelta(days=days)]; [None] is [OverflowError]. *)
Definition cutoff_of (now : datetime) (days : Z) : option datetime :=
  if decide (Z.abs days ≤ timedelta_max_days)%Z then
    let cutoff := (Z.of_N now - days * microseconds_per_day)%Z in
    if decide (0 ≤ cutoff ≤ Z.of_N datetime_max)%Z then Some (Z.to_N cutoff) else None
  else None.

(** [item.addedAt and item.addedAt >= cutoff] *)
Definition added_since (cutoff : datetime) (item : Item) : option datetime :=
  match it_addedAt item with
  | Some t => if decide (cutoff ≤ t)%N then Some t else None
  | None => None
  end.

Definition sum_sizes (sizes : list N) : N := foldr N.add 0%N sizes.

(** [if part.size: total_size += part.size] *)
Definition counted_size (part : Part) : N := default 0%N (part_size part).

(** The size of an item is all or nothing: an exception anywhere in the
    loops gives [0]. *)
Definition _get_item_size (item : Item) : N :=
  match it_media item with
  | Some medias =>
      match mapM md_parts medias with
      | Some parts => sum_sizes (counted_size <$> mjoin parts)
      | None => 0%N
      end
  | None => 0%N
  end.

(** [s.replace(pat, "")] for a non-empty [pat]: the occurrences are found
    from left to right and do not overlap; [skip] counts the characters of
    an occurrence still to be dropped. *)
Fixpoint remove_sub (pat : string) (skip : nat) (s : string) : string :=
  match s with
  | "" => ""
  | String c s' =>
      match skip with
      | S skip' => remove_sub pat skip' s'
      | 0 =>
          if String.prefix pat s then remove_sub pat (String.length pat - 1) s'
          else String c (remove_sub pat 0 s')
      end
  end.

Definition tmdb_prefix : string := "tmdb://".

Section Additions.

(** Python's [int()] on a string; [None] is [ValueError]. *)
Variable int_of : string → option Z.

(** The loop over the guids returns at the first one with the prefix, also
    when its text is no number. *)
Definition first_tmdb (guids : list Guid) : option Z :=
  match filter (λ guid, String.prefix tmdb_prefix (guid_id guid) = true) guids with
  | guid :: _ => int_of (remove_sub tmdb_prefix 0 (guid_id guid))
  | [] => None
  end.

Definition _get_tmdb_id (item : Item) : option Z :=
  guids ← it_guids item; first_tmdb guids.

Definition _get_show_tmdb_id (server : Server) (item : Item) : option Z :=
  match it_grandparentRatingKey item with
  | Some key => show ← sv_fetchItem server key; guids ← it_guids show; first_tmdb guids
  | None => guids ← it_guids item; first_tmdb guids
  end.

Record MovieRow : Type := {
  mv_title : string;
  mv_year : option Z;
  mv_added_at : datetime;
  mv_size_bytes : N;
  mv_tmdb_id : option Z;
  mv_rating_key : Z
}.

Record ShowRow : Type := {
  sh_title : string;
  sh_episode_title : option string;
  sh_added_at : datetime;
  sh_size_bytes : N;
  sh_tmdb_id : option Z;
  sh_rating_key : Z
}.

Record MusicRow : Type := {
  mu_title : string;
  mu_artist : string;
  mu_year : option Z;
  mu_added_at : datetime;
  mu_size_bytes : N;
  mu_rating_key : Z
}.

(** The dictionary [results]; the key ["music_total_size"] may be
    missing. *)
Record Recent : Type := {
  rc_movies : list MovieRow;
  rc_shows : list ShowRow;
  rc_music : list MusicRow;
  rc_music_total_size : option N
}.

Definition movie_row (item : Item) (t : datetime) : MovieRow :=
  {| mv_title := it_title item; mv_year := it_year item; mv_added_at := t;
     mv_size_bytes := _get_item_size item; mv_tmdb_id := _get_tmdb_id item;
     mv_rating_key := it_ratingKey item |}.

Definition music_row (album : Item) (t : datetime) : MusicRow :=
  {| mu_title := it_title album;
     mu_artist := default "Unknown Artist" (it_parentTitle album);
     mu_year := it_year album; mu_added_at := t; mu_size_bytes := 0%N;
     mu_rating_key := it_ratingKey album |}.

(** The rows of the items of a listing that were added since [cutoff]; a
    listing that raises leaves the rows as they are. *)
Definition recent_rows {Row} (row : Item → datetime → Row) (cutoff : datetime)
    (listing : option (list Item)) : list Row :=
  match listing with
  | Some its => omap (λ item, row item <$> added_since cutoff item) its
  | None => []
  end.

(** The variables of the loop over the show sections: the rows,
    [show_tmdb_cache], and - to observe the requests - the keys that
    [fetchItem] was asked for, in order. *)
Record ShowState : Type := {
  ss_rows : list ShowRow;
  show_tmdb_cache : gmap Z (option Z);
  ss_fetched : list Z
}.

Definition show_key_of (item : Item) : Z :=
  default (it_ratingKey item) (it_grandparentRatingKey item).

Definition episode_step (server : Server) (cutoff : datetime) (st : ShowState)
    (item : Item) : ShowState :=
  match added_since cutoff item with
  | Some t =>
      let show_key := show_key_of item in
      let show_title := default (it_title item) (it_grandparentTitle item) in
      let size_bytes := _get_item_size item in
      let '(cache, fetched) :=
        match show_tmdb_cache st !! show_key with
        | None =>
            (<[show_key := _get_show_tmdb_id server item]> (show_tmdb_cache st),
             ss_fetched st ++ from_option (λ key, [key]) [] (it_grandparentRatingKey item))
        | Some _ => (show_tmdb_cache st, ss_fetched st)
        end in
      {| ss_rows := ss_rows st ++
           [{| sh_title := show_title;
               sh_episode_title := (λ _, it_title item) <$> it_grandparentTitle item;
               sh_added_at := t; sh_size_bytes := size_bytes;
               sh_tmdb_id := default None (cache !! show_key);
               sh_rating_key := show_key |}];
         show_tmdb_cache := cache; ss_fetched := fetched |}
  | None => st
  end.

Definition show_lib_step (server : Server) (cutoff : datetime) (st : ShowState)
    (lib : MediaLibrary) : ShowState :=
  match lib_searchEpisodes lib with
  | Some episodes => foldl (episode_step server cutoff) st episodes
  | None => st
  end.

(** [results["music_total_size"] = results.get("music_total_size", 0) +
    music_size], skipped when the track listing raises. *)
Definition music_size_step (cutoff : datetime) (acc : option N)
    (lib : MediaLibrary) : option N :=
  match lib_searchTracks lib with
  | Some tracks =>
      Some (default 0%N acc
            + sum_sizes (omap (λ track, (λ _, _get_item_size track)
                                           <$> added_since cutoff track) tracks))%N
  | None => acc
  end.

Definition of_type (type : string) (sections : list MediaLibrary) : list MediaLibrary :=
  filter (λ lib, lib_type lib = type) sections.

(** [get_recently_added], with the keys requested from [fetchItem].  The
    cutoff is computed first, then [self.plex] is read, then the sections
    are listed; none of the three is inside a [try].  The source lists the
    sections three times, once per type: the server is a value, so the
    three answers are the same.  Reading [title], [year], [addedAt] and
    [ratingKey] of a listed item does not raise, so a loop over a listing
    that was delivered runs to its end. *)
Definition recently_added_traced (plex : option Server) (now : datetime) (days : Z)
    : Outcome (Recent * list Z) :=
  match cutoff_of now days with
  | None => Raised OverflowError
  | Some cutoff =>
      match plex with
      | None => Raised RuntimeError
      | Some server =>
          match sv_sections server with
          | None => Raised RequestFailed
          | Some sections =>
              let movie_libs := of_type "movie" sections in
              let tv_libs := of_type "show" sections in
              let music_libs := of_type "artist" sections in
              let shows :=
                foldl (show_lib_step server cutoff)
                  {| ss_rows := []; show_tmdb_cache := ∅; ss_fetched := [] |} tv_libs in
              Returned
                ({| rc_movies :=
                      movie_libs ≫= λ lib,
                        recent_rows movie_row cutoff (lib_recentlyAdded lib);
                    rc_shows := ss_rows shows;
                    rc_music :=
                      music_libs ≫= λ lib,
                        recent_rows music_row cutoff (lib_searchAlbums lib);
                    rc_music_total_size :=
                      foldl (music_size_step cutoff) None music_libs |},
                 ss_fetched shows)
          end
      end
  end.

Definition get_recently_added (plex : option Server) (now : datetime) (days : Z)
    : Outcome Recent :=
  match recently_added_traced plex now days with
  | Returned (results, _) => Returned results
  | Raised e => Raised e
  end.

End Additions.

(** A server with one movie section, one broken movie section and one show
    section holding two episodes of the same show; times are in days. *)
Definition day (n : N) : datetime := (n * 86400000000)%N.

Definition plain_item (key : Z) (name : string) (added : option datetime) : Item :=
  {| it_ratingKey := key; it_title := name; it_year := None; it_addedAt := added;
     it_media := Some [{| md_parts := Some [{| part_size := Some 700%N |}] |}];
     it_guids := Some [{| guid_id := "imdb://tt1" |}; {| guid_id := "tmdb://603" |}];
     it_grandparentRatingKey := None; it_grandparentTitle := None;
     it_parentTitle := None |}.

Definition episode_item (key show_key : Z) (added : option datetime) : Item :=
  {| it_ratingKey := key; it_title := "Episode"; it_year := None; it_addedAt := added;
     it_media := None; it_guids := None;
     it_grandparentRatingKey := Some show_key; it_grandparentTitle := Some "Show";
     it_parentTitle := None |}.

Definition listing_only (type : string) (recent episodes : option (list Item))
    : MediaLibrary :=
  {| lib_type := type; lib_recentlyAdded := recent; lib_searchEpisodes := episodes;
     lib_searchAlbums := None; lib_searchTracks := None |}.

Definition example_server : Server :=
  {| sv_sections :=
       Some [listing_only "movie" None None;
             listing_only "movie"
               (Some [plain_item 1 "New" (Some (day 18)); plain_item 2 "Old" (Some (day 3));
                      plain_item 3 "Undated" None]) None;
             listing_only "show" None
               (Some [episode_item 11 100 (Some (day 19));
                      episode_item 12 100 (Some (day 17))])];
     sv_fetchItem := λ key, Some (plain_item key "Show" None) |}.

(** [int] on the strings of decimal digits, which is all the example
    needs. *)
Fixpoint digits_value (acc : Z) (s : string) : option Z :=
  match s with
  | "" => Some acc
  | String c s' =>
      let n := Stdlib.Strings.Ascii.nat_of_ascii c in
      if decide (48 ≤ n ≤ 57) then digits_value (10 * acc + Z.of_nat (n - 48)) s'
      else None
  end.

Definition int_of_digits (s : string) : option Z :=
  if decide (s = "") then None else digits_value 0 s.

(** What the loop over the show sections keeps: every row carries the
    identifier cached for its show and is dated since the cutoff; no key
    was requested twice from [fetchItem]; a requested key is in the cache
    and has a row. *)
Definition show_invariant (cutoff : datetime) (st : ShowState) : Prop :=
  Forall (λ row, show_tmdb_cache st !! sh_rating_key row = Some (sh_tmdb_id row)
                 ∧ (cutoff ≤ sh_added_at row)%N) (ss_rows st)
  ∧ NoDup (ss_fetched st)
  ∧ ∀ key, key ∈ ss_fetched st →
      is_Some (show_tmdb_cache st !! key)
      ∧ ∃ row, row ∈ ss_rows st ∧ sh_rating_key row = key.

(** ** The command [added] of [main.py] and the requester lookup

    [services/overseerr_service.py] turns the requests known to Overseerr
    into a lookup from (media type, TMDB identifier) to the requester; the
    command joins it with the recent additions. *)

(** An entry of the list that [get_requests] returns. *)
Record OverseerrRequest : Type := {
  rq_tmdb_id : Z;
  rq_media_type : option string;
  rq_requested_by : string;
  rq_requested_at : option datetime
}.

Definition request_key (req : OverseerrRequest) : option string * Z :=
  (rq_media_type req, rq_tmdb_id req).

Definition build_tmdb_lookup (requests : list OverseerrRequest)
    : gmap (option string * Z) string :=
  foldl (λ lookup req, <[request_key req := rq_requested_by req]> lookup) ∅ requests.

(** A Python [dict] keeps its keys in the order of their first insertion.
    [if k not in d: d[k] = init] followed by the update [f] of [d[k]]. *)
Fixpoint dict_upsert {K V} `{EqDecision K} (k : K) (init : V) (f : V → V)
    (d : list (K * V)) : list (K * V) :=
  match d with
  | [] => [(k, f init)]
  | (k', v) :: d' =>
      if decide (k' = k) then (k', f v) :: d' else (k', v) :: dict_upsert k init f d'
  end.

(** An entry of [show_aggregates]. *)
Record ShowAggregate : Type := {
  ag_title : string;
  ag_size_bytes : N;
  ag_tmdb_id : option Z;
  ag_episode_count : nat
}.

Definition aggregate_step (aggregates : list (Z * ShowAggregate)) (show : ShowRow)
    : list (Z * ShowAggregate) :=
  dict_upsert (sh_rating_key show)
    {| ag_title := sh_title show; ag_size_bytes := 0; ag_tmdb_id := sh_tmdb_id show;
       ag_episode_count := 0 |}
    (λ a, {| ag_title := ag_title a;
             ag_size_bytes := ag_size_bytes a + sh_size_bytes show;
             ag_tmdb_id := ag_tmdb_id a;
             ag_episode_count := ag_episode_count a + 1 |})
    aggregates.

Definition show_aggregates (shows : list ShowRow) : list (Z * ShowAggregate) :=
  foldl aggregate_step [] shows.

(** [get_requester]; [not tmdb_id] holds for [None] and for [0]. *)
Definition get_requester (tmdb_lookup : gmap (option string * Z) string)
    (tmdb_id : option Z) (media_type : string) : string :=
  match tmdb_id with
  | Some id =>
      if decide (id = 0%Z) then "Manual/Admin"
      else default "Manual/Admin" (tmdb_lookup !! (Some media_type, id))
  | None => "Manual/Admin"
  end.

(** An entry of [requester_stats]. *)
Record Stats : Type := {
  st_count : nat;
  st_size : N
}.

Definition credit (req : string) (count : nat) (size : N)
    (stats : list (string * Stats)) : list (string * Stats) :=
  dict_upsert req {| st_count := 0; st_size := 0 |}
    (λ s, {| st_count := st_count s + count; st_size := st_size s + size |}) stats.

(** The two loops that fill [requester_stats]: a movie counts once, a show
    by its episodes. *)
Definition requester_stats (movies : list (MovieRow * string))
    (shows : list (ShowAggregate * string)) : list (string * Stats) :=
  foldl (λ stats show, credit show.2 (ag_episode_count show.1) (ag_size_bytes show.1) stats)
    (foldl (λ stats movie, credit movie.2 1 (mv_size_bytes movie.1) stats) [] movies)
    shows.

(** The numbers of the summary. *)
Record Totals : Type := {
  movie_count : nat;
  movie_size : N;
  episode_count : nat;
  show_size : N;
  music_count : nat;
  music_size : N
}.

Definition total_count (t : Totals) : nat :=
  movie_count t + episode_count t + music_count t.

Definition total_size (t : Totals) : N :=
  (movie_size t + show_size t + music_size t)%N.

Definition totals_of (movies : list (MovieRow * string))
    (aggregated_shows : list (ShowAggregate * string)) (recent : Recent) : Totals :=
  {| movie_count := length movies;
     movie_size := sum_sizes ((λ m, mv_size_bytes m.1) <$> movies);
     episode_count := sum_list ((λ s, ag_episode_count s.1) <$> aggregated_shows);
     show_size := sum_sizes ((λ s, ag_size_bytes s.1) <$> aggregated_shows);
     music_count := length (rc_music recent);
     music_size := default 0%N (rc_music_total_size recent) |}.

(** [not l] for a list. *)
Definition nothing {A} (l : list A) : bool :=
  match l with
  | [] => true
  | _ :: _ => false
  end.

(** [if user:], a missing or an empty name is no filter. *)
Definition given_user (user : option string) : option string :=
  match user with
  | Some u => if decide (u = "") then None else Some u
  | None => None
  end.

Section AddedCommand.

Variable int_of : string → option Z.
(** [format_size] divides floats and rounds to one decimal; [str.lower]
    follows the Unicode tables. *)
Variable format_size : N → string.
Variable lower : string → string.

Definition summary_text (t : Totals) : string :=
  "**Movies:** " +:+ pretty (movie_count t) +:+ " (" +:+ format_size (movie_size t)
    +:+ ")" +:+ newline
  +:+ "**TV Episodes:** " +:+ pretty (episode_count t) +:+ " ("
    +:+ format_size (show_size t) +:+ ")" +:+ newline
  +:+ "**Music:** " +:+ pretty (music_count t) +:+ " albums ("
    +:+ format_size (music_size t) +:+ ")" +:+ newline
  +:+ "**Total:** " +:+ pretty (total_count t) +:+ " items ("
    +:+ format_size (total_size t) +:+ ")".

Definition requester_line (entry : string * Stats) : string :=
  "â€¢ " +:+ entry.1 +:+ ": " +:+ pretty (st_count entry.2) +:+ " items ("
    +:+ format_size (st_size entry.2) +:+ ")".

(** [m["requester"].lower() == user.lower()] *)
Definition by_user {A} (user : string) (entries : list (A * string)) : list (A * string) :=
  filter (λ entry, lower entry.2 = lower user) entries.

(** The embed of the command, from the rows that passed the filter. *)
Definition additions_embed (configured : bool) (days : Z) (user : option string)
    (movies : list (MovieRow * string)) (aggregated_shows : list (ShowAggregate * string))
    (recent : Recent) : Embed :=
  let sorted_requesters :=
    sort_desc (λ entry, st_size entry.2) (requester_stats movies aggregated_shows) in
  let title := "Library Additions (Last " +:+ pretty days +:+ " Days)" in
  {| em_title := match user with Some u => title +:+ " - " +:+ u | None => title end;
     em_description := None;
     em_color := blue;
     em_fields :=
       [("Summary", summary_text (totals_of movies aggregated_shows recent))]
       ++ (if decide (user = None ∧ 1 < length sorted_requesters)
           then [("Top Requesters",
                  String.concat newline (requester_line <$> take 5 sorted_requesters))]
           else []);
     em_footer :=
       if configured then None
       else Some "Overseerr not configured - requester data unavailable" |}.

(** The command [added]; [overseerr] is the list that [get_requests]
    returned, [None] when Overseerr is not configured.  Only
    [RuntimeError] is caught. *)
Definition added_command (plex : option Server) (overseerr : option (list OverseerrRequest))
    (now : datetime) (days : Z) (user : option string) : Outcome Reply :=
  match get_recently_added int_of plex now days with
  | Raised RuntimeError => Returned (Message "Plex is not connected.")
  | Raised e => Raised e
  | Returned recent =>
      if nothing (rc_movies recent) && nothing (rc_shows recent)
         && nothing (rc_music recent)
      then Returned (Message ("No media added in the last " +:+ pretty days +:+ " days."))
      else
        let configured := bool_decide (is_Some overseerr) in
        let tmdb_lookup := from_option build_tmdb_lookup ∅ overseerr in
        let aggregated_shows := (show_aggregates (rc_shows recent)).*2 in
        let movies :=
          (λ movie, (movie, get_requester tmdb_lookup (mv_tmdb_id movie) "movie"))
            <$> rc_movies recent in
        let aggregated_shows :=
          (λ show, (show, get_requester tmdb_lookup (ag_tmdb_id show) "tv"))
            <$> aggregated_shows in
        match given_user user with
        | Some u =>
            let movies := by_user u movies in
            let aggregated_shows := by_user u aggregated_shows in
            if nothing movies && nothing aggregated_shows
            then Returned (Message ("No media found for user '" +:+ u
                                    +:+ "' in the last " +:+ pretty days +:+ " days."))
            else Returned (Embedded (additions_embed configured days (Some u)
                                       movies aggregated_shows recent))
        | None =>
            Returned (Embedded (additions_embed configured days None
                                  movies aggregated_shows recent))
        end
  end.

End AddedCommand.

(** ** Album enrichment: [enrich_jazz_album]

    The answers of MusicBrainz are nested dictionaries; a key that the code
    subscripts without a test is an [option], [None] for a missing key
    ([KeyError]). *)

Record MbArtist : Type := {
  mba_name : option string
}.

(** An entry of ['artist-credit']: a dictionary, with or without the key
    ['artist'], or something else (a join phrase). *)
Inductive MbCredit : Type :=
  | CreditDict (artist : option MbArtist)
  | CreditOther.

(** [details['release']] *)
Record MbRelease : Type := {
  mbr_title : option string;
  mbr_date : option string;
  mbr_artist_credit : option (list MbCredit)
}.

(** An entry of ['release-list']. *)
Record MbHit : Type := {
  mbh_id : option string;
  mbh_title : option string
}.

(** The two requests; the outer [None] is an exception of the request, the
    inner one a missing key (['release-list'], ['release']). *)
Record MusicBrainz : Type := {
  search_releases : string → option (option (list MbHit));
  get_release_by_id : string → option (option MbRelease)
}.

Record Album : Type := {
  al_title : string;
  al_summary : option string
}.

(** The albums of the server by rating key. *)
Abbreviation Albums := (gmap Z Album).

(** A library section: its type and the album keys that
    [search(query, libtype='album')] finds, [None] when it raises. *)
Record AlbumLibrary : Type := {
  alib_type : string;
  alib_search : Albums → string → option (list Z)
}.

(** The server as [enrich_jazz_album] meets it: the sections, and whether
    [edit] and [reload] raise.  An [edit] that returns has set the summary
    it was given; one that raises changes nothing.  A key that a search
    finds and the server has no album for counts as an exception. *)
Record AlbumServer : Type := {
  as_sections : option (list AlbumLibrary);
  as_edit_fails : bool;
  as_reload_fails : bool
}.

(** [pat in s] *)
Fixpoint contains (pat s : string) : bool :=
  String.prefix pat s
  || match s with
     | "" => false
     | String _ s' => contains pat s'
     end.

Definition autoalex_marker : string := "[Autoalex]".

(** The loop over ['artist-credit'] collects names that are not used
    afterwards; it matters only in that [ac['artist']['name']] may raise.
    [None] is that exception. *)
Fixpoint credits_of (entries : list MbCredit) : option (list string) :=
  match entries with
  | [] => Some []
  | CreditDict (Some artist) :: entries' =>
      name ← mba_name artist; names ← credits_of entries'; Some (name :: names)
  | _ :: entries' => credits_of entries'
  end.

(** Steps 1 and 2: the text to append.  The outer [None] is an exception,
    the inner one the early [return None] for an empty result. *)
Definition enrichment_text (mb : MusicBrainz) (query : string)
    : option (option string) :=
  mb_search ← search_releases mb query;
  match mb_search with
  | None | Some [] => Some None
  | Some (release :: _) =>
      release_id ← mbh_id release;
      _ ← mbh_title release;
      details ← get_release_by_id mb release_id;
      release ← details;
      _ ← from_option credits_of (Some []) (mbr_artist_credit release);
      title ← mbr_title release;
      let text := newline +:+ newline +:+ "[Autoalex] MusicBrainz Identified: " +:+ title in
      Some (Some match mbr_date release with
                 | Some date => text +:+ " (" +:+ date +:+ ")"
                 | None => text
                 end)
  end.

(** The loop over the music libraries: the first album of the first
    library with a result.  The outer [None] is an exception of a search,
    the inner one no album. *)
Fixpoint find_album (albums : Albums) (query : string) (libs : list AlbumLibrary)
    : option (option Z) :=
  match libs with
  | [] => Some None
  | lib :: libs' =>
      results ← alib_search lib albums query;
      match results with
      | key :: _ => Some (Some key)
      | [] => find_album albums query libs'
      end
  end.

(** [enrich_jazz_album]: the album returned, if one is, and the albums
    afterwards.  Every exception is caught and gives [None]; one raised by
    [reload] comes after the edit. *)
Definition enrich_jazz_album (mb : MusicBrainz) (plex : option AlbumServer)
    (query : string) (albums : Albums) : option Album * Albums :=
  match enrichment_text mb query with
  | Some (Some text) =>
      match plex with
      | Some server =>
          match as_sections server with
          | Some sections =>
              let music_libs := filter (λ lib, alib_type lib = "artist") sections in
              match find_album albums query music_libs with
              | Some (Some key) =>
                  match albums !! key with
                  | Some target_album =>
                      let current_summary := default "" (al_summary target_album) in
                      if contains autoalex_marker current_summary
                      then (Some target_album, albums)
                      else if as_edit_fails server then (None, albums)
                      else
                        let edited :=
                          {| al_title := al_title target_album;
                             al_summary := Some (current_summary +:+ text) |} in
                        (if as_reload_fails server then None else Some edited,
                         <[key := edited]> albums)
                  | None => (None, albums)
                  end
              | _ => (None, albums)
              end
          | None => (None, albums)
          end
      | None => (None, albums)
      end
  | _ => (None, albums)
  end.

(** MusicBrainz knows one release, the server one album. *)
Definition example_brainz : MusicBrainz :=
  {| search_releases := λ _,
       Some (Some [{| mbh_id := Some "r1"; mbh_title := Some "Kind of Blue" |}]);
     get_release_by_id := λ _,
       Some (Some {| mbr_title := Some "Kind of Blue"; mbr_date := Some "1959";
                     mbr_artist_credit :=
                       Some [CreditDict (Some {| mba_name := Some "Miles Davis" |})] |}) |}.

Definition example_album_server : AlbumServer :=
  {| as_sections := Some [{| alib_type := "artist"; alib_search := λ _ _, Some [7%Z] |}];
     as_edit_fails := false; as_reload_fails := false |}.

Definition example_albums : Albums :=
  {[ 7%Z := {| al_title := "Kind of Blue"; al_summary := None |} ]}.

(** What the push to a contributor without faults adds to [total_added]:
    the number of merged tracks that its playlist lacks, or of all merged
    tracks when it has no playlist.  A contributor with a fault may add
    nothing. *)
Definition first_push (unique_tracks : list Track) (playlist_name : string) (w : World)
    (username : string) : nat :=
  match w_users w !! username with
  | Some r =>
      if bool_decide (r_faults r = []) then push_count unique_tracks playlist_name r
      else 0
  | None => 0
  end.

(** The names of a list at their first occurrence; [seen] holds the names
    met before. *)
Fixpoint first_occurrences (seen names : list string) : list string :=
  match names with
  | [] => []
  | x :: names' =>
      if decide (x ∈ seen) then first_occurrences seen names'
      else x :: first_occurrences (x :: seen) names'
  end.

(** * Properties *)

#[local] Set Warnings "-clear-no-such-hyp".

(** ** Sorting *)

Section sort_desc.
Context {A : Type} (key : A → datetime).

Lemma insert_desc_perm x l : insert_desc key x l ≡ₚ x :: l.
Proof.
  induction l as [|y l IH]; simpl; [done|].
  destruct (key x <? key y)%N; [|done].
  rewrite IH. apply Permutation_swap.
Qed.

Lemma sort_desc_perm l : sort_desc key l ≡ₚ l.
Proof.
  induction l as [|x l IH]; simpl; [done|].
  unfold sort_desc in *. simpl. by rewrite insert_desc_perm, IH.
Qed.

Lemma insert_desc_sorted x l :
  StronglySorted (desc key) l → StronglySorted (desc key) (insert_desc key x l).
Proof.
  induction l as [|y l IH]; simpl; intros Hs.
  - repeat constructor.
  - apply StronglySorted_cons in Hs as [Hy Hs].
    destruct (key x <? key y)%N eqn:Hlt.
    + apply N.ltb_lt in Hlt. apply StronglySorted_cons. split; [|by apply IH].
      rewrite insert_desc_perm. constructor; [unfold desc; lia|done].
    + apply N.ltb_ge in Hlt. apply StronglySorted_cons. split.
      * constructor; [done|].
        eapply Forall_impl; [exact Hy|]. unfold desc. intros; lia.
      * by apply StronglySorted_cons.
Qed.

Lemma sort_desc_sorted l : StronglySorted (desc key) (sort_desc key l).
Proof.
  induction l as [|x l IH]; [constructor|].
  unfold sort_desc in *. simpl. by apply insert_desc_sorted.
Qed.

Lemma sort_desc_elem x l : x ∈ sort_desc key l ↔ x ∈ l.
Proof. by rewrite sort_desc_perm. Qed.

(** In a descending list a smaller key never precedes a larger one. *)
Lemma sorted_desc_order l i j a b :
  StronglySorted (desc key) l → l !! i = Some a → l !! j = Some b →
  (key a < key b)%N → j < i.
Proof.
  intros Hs Ha Hb Hlt.
  destruct (decide (j < i)) as [|Hge]; [done|exfalso].
  assert (i = j ∨ i < j) as [->|Hij] by lia.
  - rewrite Ha in Hb. simplify_eq. lia.
  - apply lookup_lt_Some in Ha as Hi.
    rewrite <-(take_drop (S i) l) in Hs.
    apply StronglySorted_app in Hs as (Hab & _ & _).
    assert (desc key a b); [|unfold desc in *; lia].
    apply Hab.
    + apply list_elem_of_lookup. exists i. by rewrite lookup_take_lt by lia.
    + apply list_elem_of_lookup. exists (j - S i).
      rewrite lookup_drop. by replace (S i + (j - S i)) with j by lia.
Qed.
End sort_desc.

(** ** The capped deduplication loop *)

Lemma seen_ok_nil : seen_ok [] ∅.
Proof. split; [set_solver|constructor]. Qed.

Lemma seen_ok_snoc acc seen t :
  seen_ok acc seen → ratingKey t ∉ seen →
  seen_ok (acc ++ [t]) ({[ratingKey t]} ∪ seen).
Proof.
  intros [Hs Hn] Ht. split.
  - intros k. unfold keys_of. rewrite fmap_app, elem_of_app. simpl.
    rewrite elem_of_union, elem_of_singleton, Hs, list_elem_of_singleton. tauto.
  - unfold keys_of. rewrite fmap_app. apply NoDup_app. split; [done|]. split.
    + intros k Hk. simpl. rewrite list_elem_of_singleton. intros ->.
      apply Ht, Hs, Hk.
    + simpl. apply NoDup_singleton.
Qed.

Lemma dedup_capped_ext cap tracks acc seen :
  seen_ok acc seen →
  ∃ ext, dedup_capped cap tracks acc seen = acc ++ ext
    ∧ sublist ext tracks
    ∧ seen_ok (acc ++ ext) (seen ∪ list_to_set (keys_of ext))
    ∧ (∀ t, t ∈ tracks → ratingKey t ∈ keys_of (acc ++ ext) ∨ cap ≤ length (acc ++ ext))
    ∧ (length acc < cap → length (acc ++ ext) ≤ cap)
    ∧ (acc = [] → tracks ≠ [] → ext ≠ []).
Proof.
  revert acc seen. induction tracks as [|t rest IH]; intros acc seen Hok; simpl.
  - exists []. rewrite app_nil_r. split_and!; try done.
    + simpl. by rewrite union_empty_r_L.
    + intros t Ht. by apply elem_of_nil in Ht.
    + lia.
  - destruct (decide (ratingKey t ∈ seen)) as [Hin|Hnin].
    + destruct (IH acc seen Hok) as (ext & -> & Hsub & Hok' & Hall & Hlen & _).
      exists ext. split_and!; try done.
      * by apply sublist_cons.
      * intros t' Ht'. apply elem_of_cons in Ht' as [->|Ht']; [|by apply Hall].
        left. unfold keys_of. rewrite fmap_app, elem_of_app. left.
        by apply Hok.
      * intros ->. destruct Hok as [Hs _]. apply Hs in Hin.
        by apply elem_of_nil in Hin.
    + pose proof (seen_ok_snoc _ _ _ Hok Hnin) as Hok1.
      destruct (decide (cap ≤ length (acc ++ [t]))) as [Hcap|Hcap].
      * exists [t]. split_and!; try done.
        -- apply sublist_skip, sublist_nil_l.
        -- simpl. replace (seen ∪ ({[ratingKey t]} ∪ ∅)) with ({[ratingKey t]} ∪ seen)
             by set_solver. done.
        -- intros; by right.
        -- rewrite length_app in *. simpl in *. lia.
      * destruct (IH _ _ Hok1) as (ext & -> & Hsub & Hok' & Hall & Hlen & _).
        exists (t :: ext). rewrite <-(assoc_L (++)) in *. simpl in *.
        split_and!; try done.
        -- by apply sublist_skip.
        -- replace (seen ∪ ({[ratingKey t]} ∪ list_to_set (keys_of ext)))
             with ({[ratingKey t]} ∪ seen ∪ list_to_set (keys_of ext)) by set_solver.
           done.
        -- intros t' Ht'. apply elem_of_cons in Ht' as [->|Ht']; [|by apply Hall].
           left. unfold keys_of. rewrite fmap_app, elem_of_app. right. simpl. left.
        -- intros Hl. apply Hlen. rewrite length_app in *. simpl in *. lia.
Qed.

(** Every track kept by the loop is the first of its key in the scanned
    list, so in a descending list it carries the latest timestamp. *)
Lemma dedup_capped_latest cap tracks acc seen :
  seen_ok acc seen → StronglySorted (desc rated_key) tracks →
  ∀ ext, dedup_capped cap tracks acc seen = acc ++ ext →
  ∀ t t', t ∈ ext → t' ∈ tracks → ratingKey t' = ratingKey t →
    (rated_key t' ≤ rated_key t)%N.
Proof.
  revert acc seen. induction tracks as [|t0 rest IH]; intros acc seen Hok Hs ext Heq t t' Ht Ht' Hk.
  { by apply elem_of_nil in Ht'. }
  apply StronglySorted_cons in Hs as [Hfa Hs]. simpl in Heq.
  destruct (decide (ratingKey t0 ∈ seen)) as [Hin|Hnin].
  - apply elem_of_cons in Ht' as [->|Ht']; [|by eapply IH].
    exfalso.
    destruct (dedup_capped_ext cap rest acc seen Hok) as (ext' & Heq' & _ & [_ Hnd] & _).
    rewrite Heq in Heq'. apply app_inv_head in Heq'. subst ext'.
    unfold keys_of in Hnd. rewrite fmap_app in Hnd.
    apply NoDup_app in Hnd as (_ & Hdisj & _).
    apply (Hdisj (ratingKey t0)).
    + by apply Hok.
    + rewrite Hk. by apply list_elem_of_fmap_2.
  - pose proof (seen_ok_snoc _ _ _ Hok Hnin) as Hok1.
    destruct (decide (cap ≤ length (acc ++ [t0]))) as [Hcap|Hcap].
    + apply app_inv_head in Heq. subst ext.
      apply list_elem_of_singleton in Ht as ->.
      apply elem_of_cons in Ht' as [->|Ht']; [lia|].
      rewrite Forall_forall in Hfa. by apply Hfa.
    + destruct (dedup_capped_ext cap rest _ _ Hok1) as (ext' & Heq' & _ & [_ Hnd] & _).
      rewrite Heq in Heq'. rewrite <-(assoc_L (++)) in Heq'.
      apply app_inv_head in Heq'. subst ext.
      apply elem_of_cons in Ht as [->|Ht].
      * apply elem_of_cons in Ht' as [->|Ht']; [lia|].
        rewrite Forall_forall in Hfa. by apply Hfa.
      * apply elem_of_cons in Ht' as [->|Ht'].
        -- exfalso. unfold keys_of in Hnd. rewrite fmap_app in Hnd.
           apply NoDup_app in Hnd as (_ & Hdisj & _).
           apply (Hdisj (ratingKey t0)).
           ++ rewrite fmap_app, elem_of_app. right. simpl. left.
           ++ rewrite Hk. by apply list_elem_of_fmap_2.
        -- eapply (IH _ _ Hok1 Hs ext'); [|done..].
           rewrite Heq. by rewrite <-(assoc_L (++)).
Qed.

Lemma StronglySorted_sublist {A} (R : relation A) l1 l2 :
  sublist l1 l2 → StronglySorted R l2 → StronglySorted R l1.
Proof.
  induction 1 as [|x l1 l2 Hsub IH|x l1 l2 Hsub IH]; intros Hs; [done|..].
  - apply StronglySorted_cons in Hs as [Hfa Hs]. apply StronglySorted_cons.
    split; [|by apply IH].
    rewrite Forall_forall in *. intros y Hy. apply Hfa.
    by eapply elem_of_sublist.
  - apply StronglySorted_cons in Hs as [_ Hs]. by apply IH.
Qed.

(** What step 2 of [update_recent_raves] computes from the collected
    tracks. *)
Lemma merge_ratings_spec cap collected :
  let merged := merge_ratings cap collected in
  NoDup (keys_of merged)
  ∧ (∀ t, t ∈ merged → t ∈ collected)
  ∧ (∀ t, t ∈ collected → ratingKey t ∈ keys_of merged ∨ cap ≤ length merged)
  ∧ (0 < cap → length merged ≤ cap)
  ∧ (collected ≠ [] → merged ≠ [])
  ∧ StronglySorted (desc rated_key) merged
  ∧ (∀ t t', t ∈ merged → t' ∈ collected → ratingKey t' = ratingKey t →
       (rated_key t' ≤ rated_key t)%N).
Proof.
  unfold merge_ratings.
  pose proof (sort_desc_sorted rated_key collected) as Hsorted.
  destruct (dedup_capped_ext cap (sort_desc rated_key collected) [] ∅ seen_ok_nil)
    as (ext & Heq & Hsub & [_ Hnd] & Hall & Hlen & Hne).
  pose proof (dedup_capped_latest cap _ [] ∅ seen_ok_nil Hsorted ext Heq) as Hlatest.
  rewrite Heq. simpl in *. split_and!.
  - done.
  - intros t Ht. eapply sort_desc_elem, elem_of_sublist; done.
  - intros t Ht. apply Hall. by apply sort_desc_elem.
  - done.
  - intros Hc. apply Hne; [done|]. intros Hnil. apply Hc.
    apply Permutation_nil_r. rewrite <-Hnil. symmetry. apply sort_desc_perm.
  - by eapply StronglySorted_sublist.
  - intros t t' Ht Ht' Hk. eapply Hlatest; [done| |done].
    by apply sort_desc_elem.
Qed.

(** ** Removal from a playlist *)

Lemma remove_first_perm k its :
  k ∈ keys_of its →
  ∃ its', remove_first k its = Some its' ∧ keys_of its ≡ₚ k :: keys_of its'.
Proof.
  induction its as [|t rest IH]; simpl; intros Hk.
  { by apply elem_of_nil in Hk. }
  destruct (decide (ratingKey t = k)) as [<-|Hne].
  - by exists rest.
  - apply elem_of_cons in Hk as [Hk|Hk]; [congruence|].
    destruct (IH Hk) as (its' & -> & Hp). exists (t :: its'). split; [done|].
    simpl. rewrite Hp. apply Permutation_swap.
Qed.

Lemma remove_all_length tracks its :
  keys_of tracks ⊆+ keys_of its →
  ∃ its', remove_all tracks its = Some its'
    ∧ length its' + length tracks = length its.
Proof.
  revert its. induction tracks as [|t rest IH]; intros its Hsub; simpl.
  { exists its. split; [done|lia]. }
  simpl in Hsub. apply submseteq_cons_l in Hsub as (k' & Hp & Hsub).
  destruct (remove_first_perm (ratingKey t) its) as (its1 & -> & Hp1).
  { rewrite Hp. left. }
  simpl. rewrite Hp1 in Hp. apply Permutation_cons_inv in Hp.
  destruct (IH its1) as (its' & -> & Hlen).
  { by rewrite Hp. }
  exists its'. split; [done|].
  apply Permutation_length in Hp1. unfold keys_of in Hp1.
  simpl in Hp1. rewrite !length_fmap in Hp1. lia.
Qed.

(** Removing every current item empties the playlist. *)
Lemma remove_all_self its : remove_all its its = Some [].
Proof.
  destruct (remove_all_length its its) as (its' & -> & Hlen); [done|].
  f_equal. apply nil_length_inv. lia.
Qed.

Lemma remove_first_fresh k pre t post :
  k ∉ keys_of pre → ratingKey t = k →
  remove_first k (pre ++ t :: post) = Some (pre ++ post).
Proof.
  induction pre as [|p pre IH]; simpl; intros Hk Ht.
  - by rewrite decide_True.
  - apply not_elem_of_cons in Hk as [Hne Hk].
    rewrite decide_False by done. by rewrite IH.
Qed.

(** Removing the tail past a position leaves the head before it, when no
    key occurs twice. *)
Lemma remove_all_tail pre post :
  NoDup (keys_of (pre ++ post)) → remove_all post (pre ++ post) = Some pre.
Proof.
  revert pre. induction post as [|t post IH]; intros pre Hnd; simpl.
  { by rewrite app_nil_r. }
  unfold keys_of in *. rewrite fmap_app in Hnd. simpl in Hnd.
  apply NoDup_app in Hnd as (H1 & H2 & H3). apply NoDup_cons in H3 as [H4 H3].
  rewrite (remove_first_fresh (ratingKey t)); [| |done].
  - simpl. apply IH. rewrite fmap_app.
    apply NoDup_app. split_and!; [done| |done].
    intros k Hk Hk'. apply (H2 k Hk). by right.
  - intros Hk. apply (H2 _ Hk). left.
Qed.

(** ** The [track_info] dictionary *)

Lemma info_lookup_snoc k info k' v' :
  info_lookup k (info ++ [(k', v')]) =
    match info_lookup k info with
    | Some v => Some v
    | None => if decide (k' = k) then Some v' else None
    end.
Proof.
  induction info as [|[k0 v0] info IH]; simpl; [done|].
  by destruct (decide (k0 = k)).
Qed.

Lemma info_lookup_update k k' f info :
  info_lookup k (info_update k' f info) =
    if decide (k' = k) then f <$> info_lookup k info else info_lookup k info.
Proof.
  induction info as [|[k0 v0] info IH]; simpl; [by destruct (decide (k' = k))|].
  destruct (decide (k0 = k')) as [->|Hne]; simpl.
  - by destruct (decide (k' = k)).
  - rewrite IH. destruct (decide (k0 = k)) as [->|Hne']; [|done].
    by rewrite decide_False by done.
Qed.

Lemma info_update_keys k f info : (info_update k f info).*1 = info.*1.
Proof.
  induction info as [|[k0 v0] info IH]; simpl; [done|].
  destruct (decide (k0 = k)); simpl; [done|]. by f_equal.
Qed.

Lemma info_lookup_None k info : info_lookup k info = None ↔ k ∉ info.*1.
Proof.
  induction info as [|[k0 v0] info IH]; simpl.
  - split; [intros _; apply not_elem_of_nil|done].
  - rewrite not_elem_of_cons. destruct (decide (k0 = k)) as [->|Hne].
    + split; [done|]. intros [? _]. done.
    + rewrite IH. split; [intros; split; [congruence|done]|tauto].
Qed.

Lemma info_lookup_elem k v info :
  info_lookup k info = Some v → (k, v) ∈ info.
Proof.
  induction info as [|[k0 v0] info IH]; simpl; [done|].
  destruct (decide (k0 = k)) as [->|Hne].
  - intros [= ->]. left.
  - intros H. right. by apply IH.
Qed.

Lemma info_elem_lookup k v info :
  NoDup info.*1 → (k, v) ∈ info → info_lookup k info = Some v.
Proof.
  induction info as [|[k0 v0] info IH]; simpl; intros Hnd Hin.
  { by apply elem_of_nil in Hin. }
  apply NoDup_cons in Hnd as [Hk0 Hnd].
  apply elem_of_cons in Hin as [[= -> ->]|Hin].
  - by rewrite decide_True.
  - rewrite decide_False; [by apply IH|].
    intros ->. apply Hk0. by apply (list_elem_of_fmap_2 fst _ (k, v)).
Qed.

(** The dictionary entry of a key after one more item was folded in. *)
Lemma merge_item_lookup k username info item :
  info_lookup k (merge_item username info item) =
    if decide (ratingKey item = k) then
      Some match info_lookup k info with
           | None => new_info username item
           | Some existing =>
               if adds_earlier (addedAt item) (ti_added_at existing)
               then reattribute (addedAt item) username existing
               else existing
           end
    else info_lookup k info.
Proof.
  unfold merge_item.
  destruct (decide (ratingKey item = k)) as [<-|Hne].
  - destruct (info_lookup _ info) as [ex|] eqn:Hl.
    + destruct (adds_earlier _ _); [|done].
      by rewrite info_lookup_update, decide_True, Hl.
    + by rewrite info_lookup_snoc, Hl, decide_True.
  - destruct (info_lookup (ratingKey item) info) as [ex|] eqn:Hl.
    + destruct (adds_earlier _ _); [|done].
      by rewrite info_lookup_update, decide_False.
    + rewrite info_lookup_snoc.
      destruct (info_lookup k info); [done|]. by rewrite decide_False.
Qed.

Lemma merge_item_keys username info item :
  (merge_item username info item).*1 =
    if decide (ratingKey item ∈ info.*1) then info.*1
    else info.*1 ++ [ratingKey item].
Proof.
  unfold merge_item.
  destruct (info_lookup (ratingKey item) info) as [ex|] eqn:Hl.
  - rewrite decide_True.
    + destruct (adds_earlier _ _); [apply info_update_keys|done].
    + destruct (decide (ratingKey item ∈ info.*1)) as [|Hn]; [done|].
      apply info_lookup_None in Hn. congruence.
  - apply info_lookup_None in Hl. rewrite decide_False by done.
    by rewrite fmap_app.
Qed.

Lemma merge_fold_snoc occs o :
  foldl merge_occurrence [] (occs ++ [o]) =
    merge_item o.1 (foldl merge_occurrence [] occs) o.2.
Proof. by rewrite foldl_app. Qed.

(** The keys of the dictionary: each key that was met, once. *)
Lemma merge_fold_keys occs :
  let info := foldl merge_occurrence [] occs in
  NoDup info.*1 ∧ ∀ k, k ∈ info.*1 ↔ ∃ o, o ∈ occs ∧ ratingKey o.2 = k.
Proof.
  induction occs as [|o occs IH] using rev_ind; simpl.
  - split; [constructor|]. intros k. split.
    + intros Hk. by apply elem_of_nil in Hk.
    + intros (o & Ho & _). by apply elem_of_nil in Ho.
  - simpl in IH. destruct IH as [Hnd Hk]. rewrite merge_fold_snoc, merge_item_keys.
    destruct (decide (ratingKey o.2 ∈ _)) as [Hin|Hnin].
    + split; [done|]. intros k. rewrite Hk. split.
      * intros (o' & Ho' & <-). exists o'. split; [|done].
        apply elem_of_app. by left.
      * intros (o' & Ho' & <-). apply elem_of_app in Ho' as [Ho'|Ho'].
        -- by exists o'.
        -- apply list_elem_of_singleton in Ho' as ->. by apply Hk.
    + split.
      * apply NoDup_app. split_and!; [done| |apply NoDup_singleton].
        intros k Hk1 Hk2. apply list_elem_of_singleton in Hk2 as ->. done.
      * intros k. rewrite elem_of_app, Hk, list_elem_of_singleton. split.
        -- intros [(o' & Ho' & <-)| ->].
           ++ exists o'. split; [|done]. apply elem_of_app. by left.
           ++ exists o. split; [|done]. apply elem_of_app. right. left.
        -- intros (o' & Ho' & <-). apply elem_of_app in Ho' as [Ho'|Ho'].
           ++ left. by exists o'.
           ++ apply list_elem_of_singleton in Ho' as ->. by right.
Qed.

(** The entry of a key: it stems from one of the items met for that key,
    whose timestamp and member it carries, and no item met for the key has
    an earlier timestamp. *)
Lemma merge_fold_record occs k v :
  info_lookup k (foldl merge_occurrence [] occs) = Some v →
  ratingKey (ti_track v) = k
  ∧ (∃ o, o ∈ occs ∧ ratingKey o.2 = k
          ∧ ti_added_by v = o.1 ∧ ti_added_at v = addedAt o.2)
  ∧ (∀ o t', o ∈ occs → ratingKey o.2 = k → addedAt o.2 = Some t' →
       ∃ t, ti_added_at v = Some t ∧ (t ≤ t')%N).
Proof.
  revert v. induction occs as [|o occs IH] using rev_ind; intros v; [done|].
  rewrite merge_fold_snoc, merge_item_lookup.
  destruct (decide (ratingKey o.2 = k)) as [Hk|Hk].
  - destruct (info_lookup k _) as [ex|] eqn:Hl.
    + destruct (IH ex eq_refl) as (Htr & (o1 & Ho1 & Hk1 & Hby & Hat) & Hmin).
      destruct (addedAt o.2) as [t0|] eqn:Ho; simpl.
      * destruct (ti_added_at ex) as [tex|] eqn:Hex; simpl.
        -- destruct (t0 <? tex)%N eqn:Hlt; intros [= <-]; simpl.
           ++ apply N.ltb_lt in Hlt. split_and!; [done| |].
              ** exists o. rewrite elem_of_app, list_elem_of_singleton. eauto.
              ** intros o' t' Ho' Hk' Hat'.
                 apply elem_of_app in Ho' as [Ho'|Ho'].
                 --- destruct (Hmin o' t' Ho' Hk' Hat') as (t & [= <-] & Hle).
                     exists t0. split; [done|lia].
                 --- apply list_elem_of_singleton in Ho' as ->.
                     exists t0. split; [done|]. rewrite Ho in Hat'. simplify_eq. lia.
           ++ apply N.ltb_ge in Hlt. split_and!; [done| |].
              ** exists o1. rewrite elem_of_app, Hex. eauto.
              ** intros o' t' Ho' Hk' Hat'.
                 apply elem_of_app in Ho' as [Ho'|Ho'].
                 --- rewrite Hex. by eapply Hmin.
                 --- apply list_elem_of_singleton in Ho' as ->.
                     exists tex. split; [done|]. rewrite Ho in Hat'. simplify_eq. lia.
        -- intros [= <-]; simpl. split_and!; [done| |].
           ++ exists o. rewrite elem_of_app, list_elem_of_singleton. eauto.
           ++ intros o' t' Ho' Hk' Hat'. apply elem_of_app in Ho' as [Ho'|Ho'].
              ** destruct (Hmin o' t' Ho' Hk' Hat') as (t & Hn & _). congruence.
              ** apply list_elem_of_singleton in Ho' as ->.
                 exists t0. split; [done|]. rewrite Ho in Hat'. simplify_eq. lia.
      * intros [= <-]. split_and!; [done| |].
        -- exists o1. rewrite elem_of_app. eauto.
        -- intros o' t' Ho' Hk' Hat'. apply elem_of_app in Ho' as [Ho'|Ho'].
           ++ by eapply Hmin.
           ++ apply list_elem_of_singleton in Ho' as ->. congruence.
    + intros [= <-]; simpl. split_and!; [done| |].
      * exists o. rewrite elem_of_app, list_elem_of_singleton. eauto.
      * intros o' t' Ho' Hk' Hat'. apply elem_of_app in Ho' as [Ho'|Ho'].
        -- exfalso. apply info_lookup_None in Hl. apply Hl.
           apply (merge_fold_keys occs). by exists o'.
        -- apply list_elem_of_singleton in Ho' as ->. exists t'. split; [done|lia].
  - intros Hl. destruct (IH v Hl) as (Htr & (o1 & Ho1 & Hk1 & Hby & Hat) & Hmin).
    split_and!; [done| |].
    + exists o1. rewrite elem_of_app. eauto.
    + intros o' t' Ho' Hk' Hat'. apply elem_of_app in Ho' as [Ho'|Ho'].
      * by eapply Hmin.
      * apply list_elem_of_singleton in Ho' as ->. congruence.
Qed.

(** ** Step 1 of the membership merges *)

(** Reading one member never fails as a whole and leaves the catalog as it
    is; it folds the items it could read into the dictionary. *)
Lemma collect_playlist_run playlist_name username w l :
  try_except (collect_playlist playlist_name username) (w, l) =
    (Ok (), (w, {| track_info :=
                     foldl (merge_item username) (track_info l)
                       (visible_items playlist_name username w);
                   users_updated := users_updated l |})).
Proof.
  destruct l as [info n]. unfold collect_playlist, visible_items, lookup_playlist.
  run_monad.
  destruct (w_users w !! username) as [r|] eqn:Hr; simpl; [|done].
  destruct (faulty FSwitch r); simpl; [done|]. rewrite Hr.
  destruct (faulty FPlaylists r); simpl; [done|].
  destruct (find_index playlist_name (r_playlists r)) as [i|]; simpl; [|done].
  rewrite Hr. destruct (faulty FItems r); simpl.
  - by destruct (r_playlists r !! i).
  - by destruct (r_playlists r !! i).
Qed.

Lemma collect_loop_run playlist_name names w l :
  for_each names (λ username, try_except (collect_playlist playlist_name username)) (w, l) =
    (Ok (), (w, {| track_info :=
                     foldl merge_occurrence (track_info l)
                       (occurrences names playlist_name w);
                   users_updated := users_updated l |})).
Proof.
  revert l. induction names as [|u names IH]; intros l.
  - by destruct l.
  - simpl. unfold mbind at 1, M_bind at 1. rewrite collect_playlist_run, IH. simpl.
    unfold occurrences. simpl. rewrite foldl_app. do 4 f_equal.
    generalize (track_info l). induction (visible_items _ _ _) as [|y ys IHy]; intros info;
      [done|]. simpl. by rewrite IHy.
Qed.

Lemma collected_info_fold names playlist_name w :
  collected_info names playlist_name w =
    foldl merge_occurrence [] (occurrences names playlist_name w).
Proof. unfold collected_info. by rewrite collect_loop_run. Qed.

Lemma visible_items_elem playlist_name username w y :
  y ∈ visible_items playlist_name username w →
  ∃ r pl, w_users w !! username = Some r
    ∧ lookup_playlist playlist_name r = Some pl ∧ y ∈ pl_items pl.
Proof.
  unfold visible_items. destruct (w_users w !! username) as [r|]; [|by intros ?%elem_of_nil].
  destruct (_ || _); [by intros ?%elem_of_nil|].
  destruct (lookup_playlist playlist_name r) as [pl|] eqn:Hpl; [|by intros ?%elem_of_nil].
  destruct (faulty FItems r); [by intros ?%elem_of_nil|]. eauto.
Qed.

Lemma fault_free_faulty f r : fault_free r → faulty f r = false.
Proof.
  unfold fault_free, faulty. intros ->. apply bool_decide_eq_false, not_elem_of_nil.
Qed.

Lemma visible_items_fault_free playlist_name username w r :
  w_users w !! username = Some r → fault_free r →
  visible_items playlist_name username w = contents playlist_name r.
Proof.
  intros Hr Hf. unfold visible_items, contents. rewrite Hr, !fault_free_faulty by done.
  simpl. by destruct (lookup_playlist playlist_name r).
Qed.

Lemma occurrences_elem names playlist_name w o :
  o ∈ occurrences names playlist_name w ↔
    o.1 ∈ names ∧ o.2 ∈ visible_items playlist_name o.1 w.
Proof.
  unfold occurrences. rewrite list_elem_of_bind. split.
  - intros (u & Ho & Hu). apply list_elem_of_fmap in Ho as (y & -> & Hy). done.
  - intros [Hu Hy]. exists o.1. split; [|done].
    apply list_elem_of_fmap. exists o.2. split; [by destruct o|done].
Qed.

(** [C3] Earliest-wins rule of the membership merge ([sync_jam_jar],
    [sync_staff_picks]): when replica [A] holds an item of key [X] added at
    [t1] and every other holding of that key, in any replica that is read,
    is untimestamped or was added later than [t1], the dictionary entry of
    [X] carries the timestamp [t1] and is attributed to [A] - wherever [A]
    stands in the list of replicas that is folded. *)
Theorem earliest_wins names playlist_name w A rA plA x X t1 :
  A ∈ names →
  w_users w !! A = Some rA → fault_free rA →
  lookup_playlist playlist_name rA = Some plA →
  x ∈ pl_items plA → ratingKey x = X → addedAt x = Some t1 →
  (∀ B rB plB y, B ∈ names → w_users w !! B = Some rB →
     lookup_playlist playlist_name rB = Some plB → y ∈ pl_items plB →
     ratingKey y = X →
     addedAt y = None ∨ (∃ t2, addedAt y = Some t2 ∧ (t1 < t2)%N)
     ∨ (B = A ∧ addedAt y = Some t1)) →
  ∃ v, info_lookup X (collected_info names playlist_name w) = Some v
    ∧ ti_added_at v = Some t1 ∧ ti_added_by v = A.
Proof.
  intros HA HrA Hf HplA Hx HX Ht1 Hothers.
  rewrite collected_info_fold.
  set (occs := occurrences names playlist_name w).
  assert ((A, x) ∈ occs) as Hocc.
  { apply occurrences_elem. split; [done|]. simpl.
    rewrite (visible_items_fault_free _ _ _ rA) by done.
    unfold contents. by rewrite HplA. }
  destruct (info_lookup X (foldl merge_occurrence [] occs)) as [v|] eqn:Hl.
  - exists v. split; [done|].
    destruct (merge_fold_record occs X v Hl) as (_ & (o & Ho & Hk & Hby & Hat) & Hmin).
    destruct (Hmin (A, x) t1 Hocc HX Ht1) as (t & Hv & Hle).
    apply occurrences_elem in Ho as [Hon Hoy].
    apply visible_items_elem in Hoy as (rB & plB & HrB & HplB & Hy).
    destruct (Hothers o.1 rB plB o.2 Hon HrB HplB Hy Hk)
      as [Hn|[(t2 & Ht2 & Hlt)|[HB Hs]]].
    + congruence.
    + rewrite Ht2, Hv in Hat. simplify_eq. lia.
    + rewrite Hs, Hv in Hat. simplify_eq. by rewrite Hby.
  - exfalso. apply info_lookup_None in Hl. apply Hl.
    apply (merge_fold_keys occs). by exists (A, x).
Qed.

(** ** The catalog under requests *)

Lemma lookup_store_eq sc r w : lookup_replica sc (store_replica sc r w) = Some r.
Proof. destruct sc; simpl; [done|]. apply lookup_insert_eq. Qed.

Lemma lookup_store_ne sc sc' r w :
  sc' ≠ sc → lookup_replica sc' (store_replica sc r w) = lookup_replica sc' w.
Proof.
  destruct sc, sc'; simpl; try done. intros Hne.
  apply lookup_insert_ne. congruence.
Qed.

Lemma account_store sc r w : w_account (store_replica sc r w) = w_account w.
Proof. by destruct sc. Qed.

Lemma evolves_refl sc w : evolves sc w w.
Proof. by split_and!. Qed.

Lemma evolves_trans sc w1 w2 w3 : evolves sc w1 w2 → evolves sc w2 w3 → evolves sc w1 w3.
Proof.
  intros (Ha & Ho & Hf & Hs) (Ha' & Ho' & Hf' & Hs'). split_and!.
  - congruence.
  - intros sc' Hne. rewrite Ho', Ho; done.
  - congruence.
  - congruence.
Qed.

Lemma evolves_store sc w r r' :
  lookup_replica sc w = Some r → r_faults r' = r_faults r →
  r_sections r' = r_sections r → evolves sc w (store_replica sc r' w).
Proof.
  intros Hr Hf Hs. split_and!.
  - apply account_store.
  - intros sc' Hne. by apply lookup_store_ne.
  - rewrite lookup_store_eq, Hr. simpl. by f_equal.
  - rewrite lookup_store_eq, Hr. simpl. by f_equal.
Qed.

#[global] Instance stays_refl {L} sc : Reflexive (@stays L sc).
Proof. intros s. split; [done|apply evolves_refl]. Qed.

#[global] Instance stays_trans {L} sc : Transitive (@stays L sc).
Proof.
  intros s1 s2 s3 [Hl Hw] [Hl' Hw']. split; [congruence|by eapply evolves_trans].
Qed.

(** *** Composition rules *)

Lemma bind_ok {L A B} (m : M L A) (f : A → M L B) s a s' :
  m s = (Ok a, s') → (m ≫= f) s = f a s'.
Proof. unfold mbind, M_bind. by intros ->. Qed.

Lemma bind_raise {L A B} (m : M L A) (f : A → M L B) s e s' :
  m s = (Raise e, s') → (m ≫= f) s = (Raise e, s').
Proof. unfold mbind, M_bind. by intros ->. Qed.

Lemma respects_ret {L A} (R : relation (World * L)) `{!Reflexive R} (a : A) :
  respects R (mret a).
Proof. intros s r s' [= <- <-]. done. Qed.

Lemma respects_raise {L A} (R : relation (World * L)) `{!Reflexive R} e :
  respects R (@raise L A e).
Proof. intros s r s' [= <- <-]. done. Qed.

Lemma respects_bind {L A B} (R : relation (World * L)) `{!Transitive R}
    (m : M L A) (f : A → M L B) :
  respects R m → (∀ a, respects R (f a)) → respects R (m ≫= f).
Proof.
  intros Hm Hf s r s'. unfold mbind, M_bind.
  destruct (m s) as [[a|e] s1] eqn:Hms.
  - intros Hfs. etrans; [by eapply Hm|by eapply Hf].
  - intros [= <- <-]. by eapply Hm.
Qed.

Lemma respects_try {L} (R : relation (World * L)) (body : M L unit) :
  respects R body → respects R (try_except body).
Proof.
  intros Hb s r s'. unfold try_except.
  destruct (body s) as [[a|e] s1] eqn:Hbs; intros [= <- <-]; by eapply Hb.
Qed.

Lemma respects_for_each {L A} (R : relation (World * L))
    `{!Reflexive R, !Transitive R} (xs : list A) (body : A → M L unit) :
  (∀ x, x ∈ xs → respects R (body x)) → respects R (for_each xs body).
Proof.
  induction xs as [|x xs IH]; intros Hb; simpl.
  - by apply respects_ret.
  - apply respects_bind; [done|apply Hb; left|].
    intros _. apply IH. intros y Hy. apply Hb. by right.
Qed.

Lemma respects_request {L A} (R : relation (World * L)) `{!Reflexive R}
    sc f e (k : Replica → M L A) :
  (∀ r, respects R (k r)) → respects R (request sc f e k).
Proof.
  intros Hk [w l] r s'. unfold request. run_monad.
  destruct (lookup_replica sc w) as [rep|]; [|by intros [= <- <-]].
  destruct (faulty f rep); [by intros [= <- <-]|]. apply Hk.
Qed.

Lemma respects_weaken {L A} (R R' : relation (World * L)) (m : M L A) :
  (∀ s s', R s s' → R' s s') → respects R m → respects R' m.
Proof. intros HR Hm s r s' Hs. by eapply HR, Hm. Qed.

(** *** Reads change nothing *)

Lemma switchUser_pure {L} username : respects (L:=L) eq (switchUser username).
Proof. apply respects_request; [done|]. intros r. by apply respects_ret. Qed.

Lemma playlists_pure {L} sc : respects (L:=L) eq (playlists sc).
Proof. apply respects_request; [done|]. intros r. by apply respects_ret. Qed.

Lemma library_sections_pure {L} sc : respects (L:=L) eq (library_sections sc).
Proof. apply respects_request; [done|]. intros r. by apply respects_ret. Qed.

Lemma search_five_star_pure {L} lib : respects (L:=L) eq (search_five_star lib).
Proof.
  unfold search_five_star. destruct (sec_search lib);
    [by apply respects_ret|by apply respects_raise].
Qed.

Lemma items_pure {L} h : respects (L:=L) eq (items h).
Proof.
  apply respects_request; [done|]. intros r.
  destruct (r_playlists r !! h_index h); [by apply respects_ret|by apply respects_raise].
Qed.

(** *** Writes change the playlists of their scope only *)

Lemma addItems_stays {L} h tracks : respects (L:=L) (stays (h_scope h)) (addItems h tracks).
Proof.
  intros [w l] r s'. unfold addItems. run_monad.
  destruct (lookup_replica (h_scope h) w) as [rep|] eqn:Hrep; [|by intros [= <- <-]].
  destruct (faulty FAdd rep); intros [= <- <-]; [done|].
  split; [done|]. by eapply evolves_store.
Qed.

Lemma removeItems_stays {L} h tracks :
  respects (L:=L) (stays (h_scope h)) (removeItems h tracks).
Proof.
  intros [w l] r s'. unfold removeItems. run_monad.
  destruct (lookup_replica (h_scope h) w) as [rep|] eqn:Hrep; [|by intros [= <- <-]].
  destruct (faulty FRemove rep); [by intros [= <- <-]|].
  destruct (r_playlists rep !! h_index h) as [pl|]; [|by intros [= <- <-]].
  destruct (remove_all tracks (pl_items pl)); intros [= <- <-]; [|done].
  split; [done|]. by eapply evolves_store.
Qed.

Lemma createPlaylist_stays {L} sc playlist_name tracks :
  respects (L:=L) (stays sc) (createPlaylist sc playlist_name tracks).
Proof.
  intros [w l] r s'. unfold createPlaylist. run_monad.
  destruct (lookup_replica sc w) as [rep|] eqn:Hrep; [|by intros [= <- <-]].
  destruct (faulty FCreate rep); [by intros [= <- <-]|].
  destruct tracks; intros [= <- <-]; [done|].
  split; [done|]. by eapply evolves_store.
Qed.

Lemma eq_stays {L} sc (s s' : World * L) : s = s' → stays sc s s'.
Proof. by intros ->. Qed.

Lemma replace_playlist_stays sc playlist_name tracks :
  respects (stays sc) (replace_playlist sc playlist_name tracks).
Proof.
  unfold replace_playlist. apply respects_bind; [apply _| |].
  { eapply respects_weaken; [apply eq_stays|apply playlists_pure]. }
  intros pls. unfold find_playlist.
  destruct (find_index playlist_name pls) as [i|]; simpl;
    [|apply createPlaylist_stays].
  apply respects_bind; [apply _| |].
  { eapply respects_weaken; [apply eq_stays|apply items_pure]. }
  intros current. apply respects_bind; [apply _| |].
  - destruct current; [by apply respects_ret|].
    apply (removeItems_stays {| h_scope := sc; h_index := i |}).
  - intros _. apply (addItems_stays {| h_scope := sc; h_index := i |}).
Qed.

(** [switchUser] yields the scope of the user it was asked for. *)
Lemma switch_then {L B} username (f : Scope → M L B) s :
  (switchUser username ≫= f) s =
    match w_users s.1 !! username with
    | Some r =>
        if faulty FSwitch r then (Raise ScopeUnavailable, s) else f (User username) s
    | None => (Raise ScopeUnavailable, s)
    end.
Proof.
  destruct s as [w l]. run_monad.
  destruct (w_users w !! username) as [r|]; [|done]. by destruct (faulty FSwitch r).
Qed.

Lemma respects_switch {L B} (R : relation (World * L)) `{!Reflexive R}
    username (f : Scope → M L B) :
  respects R (f (User username)) → respects R (switchUser username ≫= f).
Proof.
  intros Hf s r s'. rewrite switch_then.
  destruct (w_users s.1 !! username) as [rep|]; [|by intros [= <- <-]].
  destruct (faulty FSwitch rep); [by intros [= <- <-]|]. apply Hf.
Qed.

(** *** Playlists of a replica *)

Lemma find_index_lookup playlist_name pls i :
  find_index playlist_name pls = Some i →
  ∃ pl, pls !! i = Some pl ∧ pl_title pl = playlist_name.
Proof.
  revert i. induction pls as [|pl pls IH]; intros i; simpl; [done|].
  destruct (decide (pl_title pl = playlist_name)).
  - intros [= <-]. by exists pl.
  - destruct (find_index playlist_name pls) as [j|]; [|done].
    intros [= <-]. by apply IH.
Qed.

Lemma find_index_alter playlist_name g i pls :
  (∀ pl, pl_title (g pl) = pl_title pl) →
  find_index playlist_name (alter g i pls) = find_index playlist_name pls.
Proof.
  intros Hg. revert i. induction pls as [|pl pls IH]; intros i; [done|].
  destruct i as [|i].
  - simpl. by rewrite Hg.
  - change (alter g (S i) (pl :: pls)) with (pl :: alter g i pls).
    simpl. by rewrite IH.
Qed.

Lemma find_index_snoc playlist_name pls pl :
  find_index playlist_name pls = None → pl_title pl = playlist_name →
  find_index playlist_name (pls ++ [pl]) = Some (length pls).
Proof.
  intros Hn Ht. induction pls as [|p pls IH]; simpl in *.
  - by rewrite decide_True.
  - destruct (decide (pl_title p = playlist_name)); [done|].
    destruct (find_index playlist_name pls); [done|]. by rewrite IH.
Qed.

Lemma lookup_playlist_update playlist_name i f r pl :
  find_index playlist_name (r_playlists r) = Some i →
  r_playlists r !! i = Some pl →
  lookup_playlist playlist_name (update_playlist i f r)
    = Some (set_items (f (pl_items pl)) pl).
Proof.
  intros Hi Hpl. unfold lookup_playlist, update_playlist. simpl.
  rewrite find_index_alter by done. rewrite Hi. simpl.
  by rewrite list_lookup_alter_eq, Hpl.
Qed.

Lemma lookup_playlist_index playlist_name r pl :
  lookup_playlist playlist_name r = Some pl ↔
    ∃ i, find_index playlist_name (r_playlists r) = Some i ∧ r_playlists r !! i = Some pl.
Proof.
  unfold lookup_playlist. destruct (find_index _ _) as [i|]; simpl.
  - split; [by exists i|]. by intros (j & [= <-] & ?).
  - split; [done|]. by intros (j & ? & ?).
Qed.

Lemma store_store sc r r' w :
  store_replica sc r' (store_replica sc r w) = store_replica sc r' w.
Proof. destruct sc; simpl; [done|]. by rewrite insert_insert_eq. Qed.

(** *** Requests that succeed *)

Lemma playlists_run {L} sc w (l : L) r :
  lookup_replica sc w = Some r → faulty FPlaylists r = false →
  playlists sc (w, l) = (Ok (r_playlists r), (w, l)).
Proof. intros Hr Hf. unfold playlists. run_monad. by rewrite Hr, Hf. Qed.

Lemma items_run {L} h w (l : L) r pl :
  lookup_replica (h_scope h) w = Some r → faulty FItems r = false →
  r_playlists r !! h_index h = Some pl →
  items h (w, l) = (Ok (pl_items pl), (w, l)).
Proof. intros Hr Hf Hpl. unfold items. run_monad. by rewrite Hr, Hf, Hpl. Qed.

Lemma addItems_run {L} h tracks w (l : L) r :
  lookup_replica (h_scope h) w = Some r → faulty FAdd r = false →
  addItems h tracks (w, l) =
    (Ok (), (store_replica (h_scope h)
               (update_playlist (h_index h) (λ its, its ++ tracks) r) w, l)).
Proof. intros Hr Hf. unfold addItems. run_monad. by rewrite Hr, Hf. Qed.

Lemma removeItems_run {L} h tracks w (l : L) r pl its' :
  lookup_replica (h_scope h) w = Some r → faulty FRemove r = false →
  r_playlists r !! h_index h = Some pl →
  remove_all tracks (pl_items pl) = Some its' →
  removeItems h tracks (w, l) =
    (Ok (), (store_replica (h_scope h)
               (update_playlist (h_index h) (λ _, its') r) w, l)).
Proof.
  intros Hr Hf Hpl Hrm. unfold removeItems. run_monad. by rewrite Hr, Hf, Hpl, Hrm.
Qed.

Lemma createPlaylist_run {L} sc playlist_name tracks w (l : L) r :
  lookup_replica sc w = Some r → faulty FCreate r = false → tracks ≠ [] →
  createPlaylist sc playlist_name tracks (w, l) =
    (Ok (), (store_replica sc
               {| r_sections := r_sections r;
                  r_playlists := r_playlists r
                    ++ [{| pl_title := playlist_name; pl_items := tracks |}];
                  r_faults := r_faults r |} w, l)).
Proof.
  intros Hr Hf Hne. unfold createPlaylist. run_monad. rewrite Hr, Hf.
  by destruct tracks.
Qed.

(** A replica that holds playlist [playlist_name] with exactly the given
    items. *)
Lemma replace_playlist_run sc playlist_name tracks w l r :
  lookup_replica sc w = Some r → fault_free r → tracks ≠ [] →
  ∃ r', replace_playlist sc playlist_name tracks (w, l)
          = (Ok (), (store_replica sc r' w, l))
    ∧ fault_free r'
    ∧ ∃ pl, lookup_playlist playlist_name r' = Some pl ∧ pl_items pl = tracks.
Proof.
  intros Hr Hf Hne. unfold replace_playlist.
  rewrite (bind_ok _ _ _ _ _ (playlists_run sc w l r Hr (fault_free_faulty _ _ Hf))).
  unfold find_playlist.
  destruct (find_index playlist_name (r_playlists r)) as [i|] eqn:Hi; simpl.
  - destruct (find_index_lookup _ _ _ Hi) as (pl & Hpl & Htitle).
    set (h := {| h_scope := sc; h_index := i |}).
    rewrite (bind_ok _ _ _ _ _
      (items_run h w l r pl Hr (fault_free_faulty _ _ Hf) Hpl)).
    destruct (pl_items pl) as [|t its] eqn:Hits.
    + rewrite (bind_ok _ _ (w, l) () (w, l)) by done.
      rewrite (addItems_run h tracks w l r Hr (fault_free_faulty _ _ Hf)).
      eexists. split; [done|]. split; [done|].
      eexists. split; [by eapply lookup_playlist_update|].
      simpl. by rewrite Hits.
    + assert (remove_all (t :: its) (pl_items pl) = Some []) as Hrm.
      { rewrite Hits. apply remove_all_self. }
      rewrite (bind_ok _ _ _ _ _
        (removeItems_run h (t :: its) w l r pl [] Hr (fault_free_faulty _ _ Hf) Hpl Hrm)).
      set (r1 := update_playlist i (λ _, []) r).
      rewrite (addItems_run h tracks _ l r1); [|apply lookup_store_eq|by apply fault_free_faulty].
      rewrite store_store. eexists. split; [done|]. split; [done|].
      assert (lookup_playlist playlist_name r1 = Some (set_items [] pl)) as Hl1
        by by eapply lookup_playlist_update.
      apply lookup_playlist_index in Hl1 as (j & Hj & Hplj).
      assert (j = i) as ->.
      { unfold r1, update_playlist in Hj. simpl in Hj.
        rewrite find_index_alter in Hj by done. congruence. }
      eexists. split; [by eapply lookup_playlist_update|done].
  - rewrite (createPlaylist_run sc playlist_name tracks w l r Hr
      (fault_free_faulty _ _ Hf) Hne).
    eexists. split; [done|]. split; [done|].
    exists {| pl_title := playlist_name; pl_items := tracks |}. split; [|done].
    unfold lookup_playlist. simpl. rewrite find_index_snoc by done. simpl.
    by rewrite lookup_app_r, Nat.sub_diag.
Qed.

(** ** Loops over replicas with [try/except] *)

#[global] Instance moves_refl {L} sc : Reflexive (@moves L sc).
Proof. intros s. apply evolves_refl. Qed.

#[global] Instance moves_trans {L} sc : Transitive (@moves L sc).
Proof. intros s1 s2 s3. apply evolves_trans. Qed.

Lemma stays_moves {L} sc (s s' : World * L) : stays sc s s' → moves sc s s'.
Proof. by intros [_ ?]. Qed.

Lemma for_each_app {L A} (xs ys : list A) (body : A → M L unit) s :
  for_each (xs ++ ys) body s = (for_each xs body ;; for_each ys body) s.
Proof.
  revert s. induction xs as [|x xs IH]; intros s; simpl; [done|].
  unfold mbind, M_bind in *. destruct (body x s) as [[[]|e] s1]; [|done].
  apply IH.
Qed.

(** A property kept by every iteration holds after the loop, and the loop
    itself never raises. *)
Lemma loop_invariant {L A} (I : World * L → Prop) (xs : list A)
    (body : A → M L unit) s :
  I s →
  (∀ x s r s', x ∈ xs → I s → body x s = (r, s') → I s') →
  ∃ s', for_each xs (λ x, try_except (body x)) s = (Ok (), s') ∧ I s'.
Proof.
  revert s. induction xs as [|x xs IH]; intros s HI Hstep; simpl.
  - by exists s.
  - unfold mbind, M_bind, try_except.
    destruct (body x s) as [[[]|e] s1] eqn:Hb.
    + apply IH; [eapply Hstep; [left|done..]|].
      intros y ? ? ? Hy. apply Hstep. by right.
    + apply IH; [eapply Hstep; [left|done..]|].
      intros y ? ? ? Hy. apply Hstep. by right.
Qed.

Lemma loop_never_raises {L A} (xs : list A) (body : A → M L unit) s :
  ∃ s', for_each xs (λ x, try_except (body x)) s = (Ok (), s').
Proof.
  destruct (loop_invariant (λ _, True) xs body s) as (s' & Hs & _); [done..|].
  by exists s'.
Qed.

Lemma loop_respects {L A} (R : relation (World * L))
    `{!Reflexive R, !Transitive R} (xs : list A) (body : A → M L unit) :
  (∀ x, x ∈ xs → respects R (body x)) →
  respects R (for_each xs (λ x, try_except (body x))).
Proof.
  intros Hb. apply respects_for_each; [done..|].
  intros x Hx. apply respects_try. by apply Hb.
Qed.

Section delivery.
Context {L X : Type} (Pre Post : Replica → Prop).
Context (scope_of : X → Scope) (body : X → M L unit) (sc : Scope).
Hypothesis frame : ∀ x, respects (moves (scope_of x)) (body x).
Hypothesis post_pre : ∀ r, Post r → Pre r.
Hypothesis run : ∀ x w l r,
  scope_of x = sc → lookup_replica sc w = Some r → Pre r →
  ∃ r' l', body x (w, l) = (Ok (), (store_replica sc r' w, l')) ∧ Post r'.

Lemma step_holds P x s r s' :
  (∀ r, P r → Pre r) → (∀ r, Post r → P r) →
  holds sc P s → body x s = (r, s') → holds sc P s'.
Proof.
  intros HP HPost (rep & Hrep & Hp) Hb.
  destruct (decide (scope_of x = sc)) as [Hsc|Hsc].
  - destruct s as [w l].
    destruct (run x w l rep Hsc Hrep (HP _ Hp)) as (r' & l' & Hrun & Hpost).
    rewrite Hrun in Hb. simplify_eq. exists r'. simpl.
    split; [apply lookup_store_eq|by apply HPost].
  - apply frame in Hb as (_ & Ho & _). exists rep. split; [|done].
    rewrite <-Hrep. apply Ho. congruence.
Qed.

(** Whatever happens to the other replicas, a replica that satisfies
    [Pre] satisfies [Post] once the loop has visited it. *)
Lemma loop_delivers xs s :
  (∃ x, x ∈ xs ∧ scope_of x = sc) → holds sc Pre s →
  ∃ s', for_each xs (λ x, try_except (body x)) s = (Ok (), s') ∧ holds sc Post s'.
Proof.
  intros (x & Hx & Hsc) Hpre.
  apply list_elem_of_split in Hx as (pre & post & ->).
  rewrite for_each_app.
  destruct (loop_invariant (holds sc Pre) pre body s Hpre) as (s1 & Hs1 & Hpre1).
  { intros y ? ? ? _. by apply step_holds. }
  rewrite (bind_ok _ _ _ _ _ Hs1). simpl.
  destruct s1 as [w1 l1]. destruct Hpre1 as (r1 & Hr1 & Hp1).
  destruct (run x w1 l1 r1 Hsc Hr1 Hp1) as (r' & l' & Hrun & Hpost).
  unfold mbind at 1, M_bind at 1, try_except at 1. rewrite Hrun.
  apply loop_invariant.
  - exists r'. split; [apply lookup_store_eq|done].
  - intros y ? ? ? _. by apply step_holds.
Qed.

Lemma loop_keeps xs s :
  holds sc Pre s →
  ∃ s', for_each xs (λ x, try_except (body x)) s = (Ok (), s') ∧ holds sc Pre s'.
Proof.
  intros Hpre. apply loop_invariant; [done|].
  intros y ? ? ? _. by apply step_holds.
Qed.
End delivery.

(** ** [sync_jam_jar] *)

Lemma sorted_info_nil info : sorted_info info = [] ↔ info = [].
Proof.
  unfold sorted_info. split; [|by intros ->].
  intros Hs. pose proof (sort_desc_perm added_key info.*2) as Hp.
  rewrite Hs in Hp. apply Permutation_nil_l in Hp. symmetry in Hp.
  by apply fmap_nil_inv in Hp.
Qed.

Lemma merged_tracks_nil names playlist_name w :
  merged_tracks names playlist_name w = [] ↔ collected_info names playlist_name w = [].
Proof.
  unfold merged_tracks. rewrite <-sorted_info_nil. split; [apply fmap_nil_inv|by intros ->].
Qed.

Lemma probe_playlist_pure playlist_name username :
  respects eq (probe_playlist playlist_name username).
Proof.
  unfold probe_playlist. apply respects_bind; [apply _|apply switchUser_pure|].
  intros sc. apply respects_bind; [apply _|apply playlists_pure|].
  intros pls. destruct (find_playlist _ _ _); by apply respects_ret.
Qed.

Lemma push_member_frame playlist_name tracks username :
  respects (moves (User username)) (push_member playlist_name tracks username).
Proof.
  apply respects_switch; [apply _|].
  eapply respects_weaken; [apply stays_moves|apply replace_playlist_stays].
Qed.

Lemma push_member_run playlist_name tracks username w l r :
  lookup_replica (User username) w = Some r → fault_free r → tracks ≠ [] →
  ∃ r', push_member playlist_name tracks username (w, l)
          = (Ok (), (store_replica (User username) r' w, l))
    ∧ fault_free r'
    ∧ ∃ pl, lookup_playlist playlist_name r' = Some pl ∧ pl_items pl = tracks.
Proof.
  intros Hr Hf Hne. unfold push_member. rewrite switch_then.
  change (w_users (w, l).1 !! username) with (lookup_replica (User username) w).
  rewrite Hr, fault_free_faulty by done.
  by apply (replace_playlist_run _ _ _ _ _ r).
Qed.

Lemma sync_jam_jar_empty fmt members playlist_name w :
  collected_info members playlist_name w = [] →
  call sync_initial (sync_jam_jar fmt members playlist_name) w =
    (Ok {| jam_total := 0; jam_tracks := [] |}, w).
Proof.
  intros Hnil. unfold call, sync_jam_jar.
  rewrite (bind_ok _ _ _ _ _ (collect_loop_run playlist_name members w sync_initial)).
  rewrite <-collected_info_fold, Hnil. simpl.
  destruct (loop_never_raises members (probe_playlist playlist_name)
              (w, {| track_info := []; users_updated := 0 |})) as (s' & Hs').
  unfold mbind at 1, M_bind at 1. unfold get_locals at 1. simpl.
  rewrite (bind_ok _ _ _ _ _ Hs').
  assert ((w, {| track_info := []; users_updated := 0 |}) = s') as <-; [|done].
  eapply (loop_respects eq); [|exact Hs'].
  intros x _. apply probe_playlist_pure.
Qed.

Lemma sync_jam_jar_run fmt members playlist_name w :
  collected_info members playlist_name w ≠ [] →
  ∃ s', for_each members (λ username,
          try_except (push_member playlist_name
                        (merged_tracks members playlist_name w) username))
          (w, {| track_info := collected_info members playlist_name w;
                 users_updated := 0 |}) = (Ok (), s')
    ∧ call sync_initial (sync_jam_jar fmt members playlist_name) w =
        (Ok {| jam_total := length (merged_tracks members playlist_name w);
               jam_tracks := member_entry fmt <$>
                 sorted_info (collected_info members playlist_name w) |}, s'.1).
Proof.
  intros Hne.
  destruct (loop_never_raises members
    (push_member playlist_name (merged_tracks members playlist_name w))
    (w, {| track_info := collected_info members playlist_name w;
           users_updated := 0 |})) as (s' & Hs').
  exists s'. split; [done|]. unfold call, sync_jam_jar.
  rewrite (bind_ok _ _ _ _ _ (collect_loop_run playlist_name members w sync_initial)).
  rewrite <-collected_info_fold.
  unfold mbind at 1, M_bind at 1. unfold get_locals at 1. simpl.
  destruct (collected_info members playlist_name w) as [|kv info] eqn:Hinfo; [done|].
  unfold merged_tracks in Hs'. rewrite Hinfo in Hs'.
  rewrite (bind_ok _ _ _ _ _ Hs').
  unfold merged_tracks. rewrite Hinfo. by destruct s' as [w' l'].
Qed.

Lemma push_member_delivers playlist_name tracks members username s :
  tracks ≠ [] → username ∈ members →
  holds (User username) fault_free s →
  ∃ s', for_each members (λ x, try_except (push_member playlist_name tracks x)) s
          = (Ok (), s')
    ∧ holds (User username) (synced playlist_name tracks) s'.
Proof.
  intros Hne Hu Hpre.
  apply (loop_delivers fault_free (synced playlist_name tracks) User); try done.
  - intros x. apply push_member_frame.
  - by intros r [? _].
  - intros x w l r [= ->] Hr Hf.
    destruct (push_member_run playlist_name tracks username w l r Hr Hf Hne)
      as (r' & Hrun & Hf' & Hpl).
    by exists r', l.
  - by exists username.
Qed.

Lemma nothing_collected_contents names playlist_name w username r :
  collected_info names playlist_name w = [] →
  username ∈ names → w_users w !! username = Some r → fault_free r →
  contents playlist_name r = [].
Proof.
  intros Hnil Hu Hr Hf.
  destruct (contents playlist_name r) as [|y ys] eqn:Hc; [done|exfalso].
  pose proof (merge_fold_keys (occurrences names playlist_name w)) as [_ Hk].
  rewrite <-collected_info_fold, Hnil in Hk.
  apply (not_elem_of_nil (ratingKey y)), Hk. exists (username, y). split; [|done].
  apply occurrences_elem. split; [done|]. simpl.
  rewrite (visible_items_fault_free _ _ _ r), Hc by done. left.
Qed.

(** [C5] Full-replace convergence of [sync_jam_jar]: after one pass, every
    member whose requests all succeed holds a playlist whose items are
    exactly the merged list - cleared and repopulated when it existed,
    created otherwise - whatever the other members' requests did. *)
Theorem full_replace_converges fmt members playlist_name w username r :
  username ∈ members → w_users w !! username = Some r → fault_free r →
  ∃ res w' r',
    call sync_initial (sync_jam_jar fmt members playlist_name) w = (Ok res, w')
    ∧ w_users w' !! username = Some r'
    ∧ contents playlist_name r' = merged_tracks members playlist_name w
    ∧ (merged_tracks members playlist_name w ≠ [] →
         ∃ pl, lookup_playlist playlist_name r' = Some pl
           ∧ pl_items pl = merged_tracks members playlist_name w)
    ∧ jam_total res = length (merged_tracks members playlist_name w).
Proof.
  intros Hu Hr Hf.
  destruct (decide (collected_info members playlist_name w = [])) as [Hnil|Hne].
  - exists {| jam_total := 0; jam_tracks := [] |}, w, r.
    pose proof (proj2 (merged_tracks_nil members playlist_name w) Hnil) as Hm.
    rewrite Hm. split_and!; try done.
    + by apply sync_jam_jar_empty.
    + by eapply nothing_collected_contents.
  - destruct (sync_jam_jar_run fmt members playlist_name w Hne) as (s' & Hloop & Hcall).
    assert (merged_tracks members playlist_name w ≠ []) as Hm
      by by rewrite merged_tracks_nil.
    assert (holds (User username) fault_free
              (w, {| track_info := collected_info members playlist_name w;
                     users_updated := 0 |})) as Hpre by by exists r.
    destruct (push_member_delivers playlist_name _ members username _ Hm Hu Hpre)
      as (s2 & Hloop2 & r' & Hr' & Hf' & pl & Hpl & Hits).
    rewrite Hloop in Hloop2. simplify_eq.
    eexists _, _, r'. split_and!; try done.
    + unfold contents. by rewrite Hpl.
    + intros _. by exists pl.
Qed.

(** ** [sync_staff_picks] *)

Lemma for_each_fmap {L A B} (f : A → B) (xs : list A) (body : B → M L unit) s :
  for_each (f <$> xs) body s = for_each xs (λ x, body (f x)) s.
Proof.
  revert s. induction xs as [|x xs IH]; intros s; simpl; [done|].
  unfold mbind, M_bind. destruct (body (f x) s) as [[[]|e] s1]; [apply IH|done].
Qed.

Lemma staff_targets_loop playlist_name tracks home_users s :
  for_each (staff_targets home_users)
    (λ t, try_except (push_target playlist_name tracks t)) s =
  (try_except (push_admin playlist_name tracks);;
   for_each home_users (λ user,
     try_except (push_home_user playlist_name tracks user))) s.
Proof.
  unfold staff_targets. simpl. unfold mbind, M_bind.
  destruct (try_except _ s) as [[[]|e] s1]; [|done].
  apply (for_each_fmap Some).
Qed.

Lemma count_user_moves sc : respects (moves sc) count_user.
Proof. intros [w l] r s' [= <- <-]. apply evolves_refl. Qed.

Lemma push_target_frame playlist_name tracks t :
  respects (moves (target_scope t)) (push_target playlist_name tracks t).
Proof.
  destruct t as [user|]; simpl.
  - apply respects_switch; [apply _|]. apply respects_bind; [apply _| |].
    + eapply respects_weaken; [apply stays_moves|apply replace_playlist_stays].
    + intros _. apply count_user_moves.
  - apply respects_bind; [apply _| |].
    + eapply respects_weaken; [apply stays_moves|apply replace_playlist_stays].
    + intros _. apply count_user_moves.
Qed.

Lemma push_target_run playlist_name tracks t w l r :
  lookup_replica (target_scope t) w = Some r → fault_free r → tracks ≠ [] →
  ∃ r', push_target playlist_name tracks t (w, l)
          = (Ok (), (store_replica (target_scope t) r' w, counted 1 l))
    ∧ synced playlist_name tracks r'.
Proof.
  intros Hr Hf Hne.
  destruct (replace_playlist_run (target_scope t) playlist_name tracks w l r Hr Hf Hne)
    as (r' & Hrun & Hsynced).
  exists r'. split; [|done]. destruct t as [user|].
  - unfold push_target, push_home_user. rewrite switch_then. cbn [fst].
    change (lookup_replica (target_scope (Some user)) w)
      with (w_users w !! u_title user) in Hr.
    rewrite Hr, fault_free_faulty by done.
    by rewrite (bind_ok _ _ _ _ _ Hrun).
  - unfold push_target, push_admin. by rewrite (bind_ok _ _ _ _ _ Hrun).
Qed.

Lemma push_target_delivers playlist_name tracks targets t s :
  tracks ≠ [] → t ∈ targets →
  holds (target_scope t) fault_free s →
  ∃ s', for_each targets (λ x, try_except (push_target playlist_name tracks x)) s
          = (Ok (), s')
    ∧ holds (target_scope t) (synced playlist_name tracks) s'.
Proof.
  intros Hne Ht Hpre.
  apply (loop_delivers fault_free (synced playlist_name tracks) target_scope); try done.
  - intros x. apply push_target_frame.
  - by intros r [? _].
  - intros x w l r Hsc Hr Hf. rewrite <-Hsc in *.
    destruct (push_target_run playlist_name tracks x w l r Hr Hf Hne) as (r' & Hrun & Hs).
    by exists r', (counted 1 l).
  - by exists t.
Qed.

(** With every target in order, every target is counted. *)
Lemma push_target_counts playlist_name tracks targets s :
  tracks ≠ [] →
  (∀ t, t ∈ targets → holds (target_scope t) fault_free s) →
  ∃ s', for_each targets (λ x, try_except (push_target playlist_name tracks x)) s
          = (Ok (), s')
    ∧ users_updated s'.2 = users_updated s.2 + length targets.
Proof.
  intros Hne. revert s. induction targets as [|t targets IH]; intros s Hall; simpl.
  - exists s. split; [done|lia].
  - destruct s as [w l]. destruct (Hall t) as (r & Hr & Hf); [left|].
    destruct (push_target_run playlist_name tracks t w l r Hr Hf Hne)
      as (r' & Hrun & Hf' & _).
    unfold mbind, M_bind, try_except. rewrite Hrun.
    destruct (IH (store_replica (target_scope t) r' w, counted 1 l))
      as (s' & Hs' & Hcount).
    + intros t' Ht'. destruct (decide (target_scope t' = target_scope t)) as [->|Hsc].
      * exists r'. split; [apply lookup_store_eq|done].
      * destruct (Hall t') as (r1 & Hr1 & Hf1); [by right|].
        exists r1. split; [|done]. simpl. by rewrite lookup_store_ne.
    + exists s'. split; [done|]. rewrite Hcount. simpl. lia.
Qed.

Lemma sync_staff_picks_empty fmt curators playlist_name w :
  collected_info curators playlist_name w = [] →
  call sync_initial (sync_staff_picks fmt curators playlist_name) w =
    (Ok {| sp_total := 0; sp_tracks := []; sp_users_updated := 0 |}, w).
Proof.
  intros Hnil. unfold call, sync_staff_picks.
  rewrite (bind_ok _ _ _ _ _ (collect_loop_run playlist_name curators w sync_initial)).
  rewrite <-collected_info_fold, Hnil. done.
Qed.

Lemma sync_staff_picks_run fmt curators playlist_name w users :
  collected_info curators playlist_name w ≠ [] →
  w_account w = Some users →
  ∃ s', for_each (staff_targets (home_users_of w))
          (λ t, try_except (push_target playlist_name
                              (merged_tracks curators playlist_name w) t))
          (w, {| track_info := collected_info curators playlist_name w;
                 users_updated := 0 |}) = (Ok (), s')
    ∧ call sync_initial (sync_staff_picks fmt curators playlist_name) w =
        (Ok {| sp_total := length (merged_tracks curators playlist_name w);
               sp_tracks := member_entry fmt <$>
                 sorted_info (collected_info curators playlist_name w);
               sp_users_updated := users_updated s'.2 |}, s'.1).
Proof.
  intros Hne Hacc.
  destruct (loop_never_raises (staff_targets (home_users_of w))
    (push_target playlist_name (merged_tracks curators playlist_name w))
    (w, {| track_info := collected_info curators playlist_name w;
           users_updated := 0 |})) as (s' & Hs').
  exists s'. split; [done|]. unfold call, sync_staff_picks.
  rewrite (bind_ok _ _ _ _ _ (collect_loop_run playlist_name curators w sync_initial)).
  rewrite <-collected_info_fold.
  unfold mbind at 1, M_bind at 1. unfold get_locals at 1. simpl.
  destruct (collected_info curators playlist_name w) as [|kv info] eqn:Hinfo; [done|].
  unfold merged_tracks in Hs'. rewrite Hinfo in Hs'.
  rewrite staff_targets_loop in Hs'. unfold home_users_of in Hs'.
  rewrite Hacc in Hs'. simpl in Hs'.
  unfold account_users. unfold mbind at 1, M_bind at 1.
  unfold mbind at 1, M_bind at 1. unfold get_world at 1. simpl. rewrite Hacc.
  unfold mret at 1, M_ret at 1.
  unfold mbind at 1 in Hs'. unfold M_bind at 1 in Hs'.
  unfold mbind at 1, M_bind at 1.
  destruct (try_except _ _) as [[[]|e] s1]; [|done].
  rewrite (bind_ok _ _ _ _ _ Hs').
  unfold merged_tracks. rewrite Hinfo. by destruct s' as [w' l'].
Qed.

Lemma loop_untouched {L X} (scope_of : X → Scope) (body : X → M L unit) sc xs s r s' :
  (∀ x, respects (moves (scope_of x)) (body x)) →
  (∀ x, x ∈ xs → scope_of x ≠ sc) →
  for_each xs (λ x, try_except (body x)) s = (r, s') →
  lookup_replica sc s'.1 = lookup_replica sc s.1.
Proof.
  intros Hframe Hsc Hloop.
  destruct (loop_invariant (λ s1, lookup_replica sc s1.1 = lookup_replica sc s.1)
              xs body s) as (s2 & Hs2 & Heq); [done| |congruence].
  intros x s1 r1 s1' Hx Hs1 Hb. apply Hframe in Hb as (_ & Ho & _).
  rewrite Ho; [done|]. intros Heq. by eapply Hsc.
Qed.

(** The merged list carries the keys of the dictionary, each once. *)
Lemma merged_tracks_keys names playlist_name w :
  keys_of (merged_tracks names playlist_name w)
    ≡ₚ (collected_info names playlist_name w).*1.
Proof.
  unfold merged_tracks, sorted_info, keys_of. rewrite <-list_fmap_compose.
  rewrite sort_desc_perm. rewrite <-list_fmap_compose.
  rewrite collected_info_fold.
  set (occs := occurrences names playlist_name w).
  pose proof (merge_fold_keys occs) as [Hnd _]. simpl in Hnd.
  assert (Forall (λ kv, (ratingKey ∘ ti_track ∘ snd) kv = kv.1)
            (foldl merge_occurrence [] occs)) as Hall.
  { apply Forall_forall. intros [k v] Hkv.
    apply info_elem_lookup in Hkv; [|done].
    by apply merge_fold_record in Hkv as (Hk & _). }
  apply Forall_fmap_ext in Hall. by rewrite Hall.
Qed.

Lemma merged_tracks_NoDup names playlist_name w :
  NoDup (keys_of (merged_tracks names playlist_name w)).
Proof.
  rewrite merged_tracks_keys, collected_info_fold. apply merge_fold_keys.
Qed.

(** A key is in the merged list exactly when a replica that was read holds
    an item of that key. *)
Lemma merged_tracks_elem names playlist_name w k :
  k ∈ keys_of (merged_tracks names playlist_name w) ↔
    ∃ username y, username ∈ names
      ∧ y ∈ visible_items playlist_name username w ∧ ratingKey y = k.
Proof.
  rewrite merged_tracks_keys, collected_info_fold.
  pose proof (merge_fold_keys (occurrences names playlist_name w)) as [_ Hk].
  rewrite Hk. split.
  - intros ([u y] & Ho & Hy). apply occurrences_elem in Ho as [? ?]. by exists u, y.
  - intros (u & y & Hu & Hy & Hkey). exists (u, y). split; [|done].
    by apply occurrences_elem.
Qed.

(** A user that the account lists without the home flag is a known replica
    that the broadcast does not write: no request fails, the merged list is
    [T2; T1], four replicas are counted, and [E] still has no playlist. *)
Lemma broadcast_skips_guest :
  let run := call sync_initial (sync_staff_picks no_format ["A"; "B"] "Staff Picks")
               broadcast_with_guest in
  w_account broadcast_with_guest = Some [home "A"; home "B"; home "C"; guest "E"]
  ∧ w_users broadcast_with_guest !! "E" = Some (replica_of [] [])
  ∧ merged_tracks ["A"; "B"] "Staff Picks" broadcast_with_guest = [T2; T1]
  ∧ (sp_users_updated <$> match run.1 with Ok res => Some res | Raise _ => None end)
      = Some 4
  ∧ user_contents "Staff Picks" "C" run.2 = [T2; T1]
  ∧ user_contents "Staff Picks" "E" run.2 = []
  ∧ user_contents "Staff Picks" "E" run.2
      ≠ merged_tracks ["A"; "B"] "Staff Picks" broadcast_with_guest.
Proof. vm_compute. by split_and!. Qed.

Lemma staff_targets_elem w users t :
  w_account w = Some users →
  t ∈ staff_targets (home_users_of w) ↔
    t = None ∨ ∃ user, t = Some user ∧ user ∈ users ∧ u_home user = true.
Proof.
  intros Hacc. unfold staff_targets, home_users_of. rewrite Hacc. simpl.
  rewrite elem_of_cons, list_elem_of_fmap. split.
  - intros [->|(user & -> & Hu)]; [by left|right].
    apply list_elem_of_filter in Hu as [? ?]. by exists user.
  - intros [->|(user & -> & Hu & Hh)]; [by left|right].
    exists user. split; [done|]. by apply list_elem_of_filter.
Qed.

(** [C6] Broadcast read and write scope of [sync_staff_picks] (amended: the
    replicas written besides the admin are the account's home users).  The
    merge is computed from the curators' playlists only; when it is not
    empty it replaces the playlist of the admin scope and of every home
    user, curator or not, whose requests succeed; a user that is not a home
    user of the account is left alone; [users_updated] counts the written
    replicas (one more than the home users when nothing fails) and is
    reported next to the merged total.  In the scenario - curators [A], [B]
    holding [T1], [T2], membership [A], [B], [C] and the admin [D] - [C]
    and the admin end with both tracks and [users_updated] is 4. *)
Theorem broadcast_scope :
  (∀ fmt curators playlist_name w users,
     w_account w = Some users →
     let merged := merged_tracks curators playlist_name w in
     ∃ res w',
       call sync_initial (sync_staff_picks fmt curators playlist_name) w = (Ok res, w')
       ∧ sp_total res = length merged
       ∧ (∀ k, k ∈ keys_of merged ↔
            ∃ curator y, curator ∈ curators
              ∧ y ∈ visible_items playlist_name curator w ∧ ratingKey y = k)
       ∧ (merged ≠ [] → fault_free (w_admin w) →
            synced playlist_name merged (w_admin w'))
       ∧ (merged ≠ [] → ∀ user r, user ∈ users → u_home user = true →
            w_users w !! u_title user = Some r → fault_free r →
            ∃ r', w_users w' !! u_title user = Some r'
              ∧ synced playlist_name merged r')
       ∧ (∀ name, (∀ user, user ∈ users → u_home user = true → u_title user ≠ name) →
            w_users w' !! name = w_users w !! name)
       ∧ (merged ≠ [] → fault_free (w_admin w) →
            (∀ user, user ∈ users → u_home user = true →
               ∃ r, w_users w !! u_title user = Some r ∧ fault_free r) →
            sp_users_updated res = 1 + length (home_users_of w)))
  ∧ (let run := call sync_initial (sync_staff_picks no_format ["A"; "B"] "Staff Picks")
                  broadcast_scenario in
     (match run.1 with
      | Ok res => Some (sp_total res, sp_users_updated res)
      | Raise _ => None
      end) = Some (2, 4)
     ∧ user_contents "Staff Picks" "C" run.2 = [T2; T1]
     ∧ contents "Staff Picks" (w_admin run.2) = [T2; T1]).
Proof.
  split; [|by vm_compute].
  intros fmt curators playlist_name w users Hacc merged.
  destruct (decide (collected_info curators playlist_name w = [])) as [Hnil|Hne].
  - pose proof (proj2 (merged_tracks_nil curators playlist_name w) Hnil) as Hm.
    eexists _, w. split; [by apply sync_staff_picks_empty|].
    subst merged. split_and!.
    + by rewrite Hm.
    + apply merged_tracks_elem.
    + by rewrite Hm.
    + by rewrite Hm.
    + done.
    + by rewrite Hm.
  - destruct (sync_staff_picks_run fmt curators playlist_name w users Hne Hacc)
      as ([w' l'] & Hloop & Hcall).
    fold merged in Hloop, Hcall.
    eexists _, w'. split; [exact Hcall|]. simpl. split_and!.
    + done.
    + apply merged_tracks_elem.
    + intros Hm Hf.
      assert (holds (target_scope None) fault_free
                (w, {| track_info := collected_info curators playlist_name w;
                       users_updated := 0 |})) as Hpre by by exists (w_admin w).
      destruct (push_target_delivers playlist_name merged _ None _ Hm
                  (proj2 (staff_targets_elem w users None Hacc) (or_introl eq_refl))
                  Hpre)
        as (s2 & Hloop2 & r' & Hr' & Hs).
      rewrite Hloop in Hloop2. simplify_eq. simpl in Hr'. by simplify_eq.
    + intros Hm user r Hu Hh Hr Hf.
      assert (Some user ∈ staff_targets (home_users_of w)) as Ht.
      { apply (staff_targets_elem w users); [done|]. right. by exists user. }
      assert (holds (target_scope (Some user)) fault_free
                (w, {| track_info := collected_info curators playlist_name w;
                       users_updated := 0 |})) as Hpre by by exists r.
      destruct (push_target_delivers playlist_name merged _ (Some user) _ Hm Ht Hpre)
        as (s2 & Hloop2 & r' & Hr' & Hs).
      rewrite Hloop in Hloop2. simplify_eq. by exists r'.
    + intros name Hname.
      apply (loop_untouched target_scope _ (User name) _ _ _ _
               (push_target_frame playlist_name merged)) in Hloop; [done|].
      intros t Ht.
      apply (staff_targets_elem w users t Hacc) in Ht as [->|(user & -> & Hu & Hh)];
        [done|]. simpl. intros [= Heq]. by eapply Hname.
    + intros Hm Hf Hall.
      destruct (push_target_counts playlist_name merged
                  (staff_targets (home_users_of w))
                  (w, {| track_info := collected_info curators playlist_name w;
                         users_updated := 0 |}) Hm) as (s2 & Hloop2 & Hcount).
      * intros t Ht.
        apply (staff_targets_elem w users t Hacc) in Ht as [->|(user & -> & Hu & Hh)].
        -- by exists (w_admin w).
        -- destruct (Hall user Hu Hh) as (r & Hr & Hfr). by exists r.
      * rewrite Hloop in Hloop2. simplify_eq. simpl in Hcount. rewrite Hcount.
        unfold staff_targets. simpl. by rewrite length_fmap.
Qed.

(** ** Step 3 of [update_recent_raves] *)

Lemma store_same sc r w : lookup_replica sc w = Some r → store_replica sc r w = w.
Proof.
  destruct w as [a us acc], sc; simpl.
  - by intros [= ->].
  - intros Hr. f_equal. by apply insert_id.
Qed.

Lemma bump_0 l : bump 0 l = l.
Proof. destruct l. unfold bump. simpl. f_equal. lia. Qed.

Lemma add_count_moves sc n : respects (moves sc) (add_count n).
Proof. intros [w l] r s' [= <- <-]. apply evolves_refl. Qed.

Lemma push_ratings_frame unique_tracks max_songs playlist_name username :
  respects (moves (User username))
    (push_ratings unique_tracks max_songs playlist_name username).
Proof.
  apply respects_switch; [apply _|]. apply respects_bind; [apply _| |].
  { eapply respects_weaken; [|apply playlists_pure]. by intros ?? ->. }
  intros pls. unfold find_playlist.
  destruct (find_index playlist_name pls) as [i|]; simpl.
  - apply respects_bind; [apply _| |].
    { eapply respects_weaken; [|apply items_pure]. by intros ?? ->. }
    intros existing. destruct (new_tracks_of unique_tracks existing) as [|t new].
    { by apply respects_ret. }
    apply respects_bind; [apply _| |].
    { eapply respects_weaken; [apply stays_moves|].
      apply (addItems_stays {| h_scope := User username; h_index := i |}). }
    intros _. apply respects_bind; [apply _|apply add_count_moves|].
    intros _. apply respects_bind; [apply _| |].
    { eapply respects_weaken; [|apply items_pure]. by intros ?? ->. }
    intros current. destruct (decide _); [|by apply respects_ret].
    eapply respects_weaken; [apply stays_moves|].
    apply (removeItems_stays {| h_scope := User username; h_index := i |}).
  - apply respects_bind; [apply _| |].
    + eapply respects_weaken; [apply stays_moves|apply createPlaylist_stays].
    + intros _. apply add_count_moves.
Qed.

Lemma drop_keys_submseteq n (its : list Track) :
  keys_of (drop n its) ⊆+ keys_of its.
Proof. unfold keys_of. apply fmap_submseteq, submseteq_drop. Qed.

Lemma new_tracks_length unique_tracks existing :
  length (new_tracks_of unique_tracks existing) ≤ length unique_tracks.
Proof. apply length_filter. Qed.

(** A replica without faults: the step returns, counts what it added and
    leaves the playlist described by [pushed]. *)
Lemma push_ratings_run unique_tracks max_songs playlist_name username w l r :
  lookup_replica (User username) w = Some r → fault_free r → unique_tracks ≠ [] →
  ∃ r' n,
    push_ratings unique_tracks max_songs playlist_name username (w, l)
      = (Ok (), (store_replica (User username) r' w, bump n l))
    ∧ fault_free r'
    ∧ n = push_count unique_tracks playlist_name r
    ∧ ∃ pl, lookup_playlist playlist_name r' = Some pl
        ∧ pl_items pl = pushed unique_tracks max_songs playlist_name r.
Proof.
  intros Hr Hf Hne. unfold push_ratings. rewrite switch_then. cbn [fst].
  change (w_users w !! username) with (lookup_replica (User username) w).
  rewrite Hr, fault_free_faulty by done.
  rewrite (bind_ok _ _ _ _ _
    (playlists_run (User username) w l r Hr (fault_free_faulty _ _ Hf))).
  unfold find_playlist, pushed, push_count.
  destruct (find_index playlist_name (r_playlists r)) as [i|] eqn:Hi;
    cbn [fmap option_fmap option_map].
  - destruct (find_index_lookup _ _ _ Hi) as (pl & Hpl & Htitle).
    assert (lookup_playlist playlist_name r = Some pl) as ->.
    { apply lookup_playlist_index. by exists i. }
    set (h := {| h_scope := User username; h_index := i |}).
    rewrite (bind_ok _ _ _ _ _
      (items_run h w l r pl Hr (fault_free_faulty _ _ Hf) Hpl)).
    unfold after_push.
    destruct (new_tracks_of unique_tracks (pl_items pl)) as [|t new] eqn:Hnew.
    + exists r, 0. rewrite store_same, bump_0 by done. split_and!; [done|done|done|].
      exists pl. split; [|done]. apply lookup_playlist_index. by exists i.
    + rewrite (bind_ok _ _ _ _ _
        (addItems_run h (t :: new) w l r Hr (fault_free_faulty _ _ Hf))).
      set (r1 := update_playlist i (λ its, its ++ t :: new) r).
      set (w1 := store_replica (h_scope h) r1 w).
      assert (lookup_playlist playlist_name r1
                = Some (set_items (pl_items pl ++ t :: new) pl)) as Hl1
        by by eapply lookup_playlist_update.
      apply lookup_playlist_index in Hl1 as (j & Hj & Hplj).
      assert (j = i) as ->.
      { unfold r1, update_playlist in Hj. simpl in Hj.
        rewrite find_index_alter in Hj by done. congruence. }
      unfold add_count. unfold mbind at 1, M_bind at 1. unfold modify_locals at 1.
      cbn [fst snd].
      rewrite (bind_ok _ _ _ _ _
        (items_run h w1 (bump (length (t :: new)) l) r1 _
           (lookup_store_eq _ _ _) (fault_free_faulty _ r1 Hf) Hplj)).
      cbn [pl_items set_items].
      pose proof (new_tracks_length unique_tracks (pl_items pl)) as Hlen.
      rewrite Hnew in Hlen.
      destruct (decide (max_songs < length (pl_items pl ++ t :: new))) as [Hcap|Hcap].
      * destruct (remove_all_length (drop max_songs (pl_items pl ++ t :: new))
                    (pl_items pl ++ t :: new)) as (its' & Hrm & Hl').
        { apply drop_keys_submseteq. }
        rewrite (removeItems_run h _ w1 _ r1 _ its' (lookup_store_eq _ _ _)
                   (fault_free_faulty _ r1 Hf) Hplj Hrm).
        unfold w1. rewrite store_store. rewrite Hrm. simpl.
        eexists _, _. split; [done|]. split_and!; [done|done|].
        eexists. split; [by eapply lookup_playlist_update|done].
      * eexists _, _. split; [done|]. split_and!; [done|done|].
        eexists. split; [by eapply lookup_playlist_update|done].
  - assert (lookup_playlist playlist_name r = None) as ->.
    { unfold lookup_playlist. by rewrite Hi. }
    rewrite (bind_ok _ _ _ _ _
      (createPlaylist_run (User username) playlist_name unique_tracks w l r Hr
         (fault_free_faulty _ _ Hf) Hne)).
    eexists _, _. split; [done|]. split_and!; [done|done|].
    exists {| pl_title := playlist_name; pl_items := unique_tracks |}. split; [|done].
    unfold lookup_playlist. simpl. rewrite find_index_snoc by done. simpl.
    by rewrite lookup_app_r, Nat.sub_diag.
Qed.

(** *** The playlist after a push *)

Lemma new_tracks_nil unique_tracks existing :
  new_tracks_of unique_tracks existing = [] →
  ∀ t, t ∈ unique_tracks → ratingKey t ∈ keys_of existing.
Proof.
  unfold new_tracks_of. intros Hnil t Ht.
  destruct (decide (ratingKey t ∈ keys_of existing)) as [|Hn]; [done|exfalso].
  apply (not_elem_of_nil t). rewrite <-Hnil. apply list_elem_of_filter.
  split; [|done]. by rewrite elem_of_list_to_set.
Qed.

Lemma new_tracks_elem unique_tracks existing t :
  t ∈ new_tracks_of unique_tracks existing ↔
    t ∈ unique_tracks ∧ ratingKey t ∉ keys_of existing.
Proof.
  unfold new_tracks_of. rewrite list_elem_of_filter, elem_of_list_to_set. tauto.
Qed.

Lemma after_push_length unique_tracks max_songs existing :
  new_tracks_of unique_tracks existing ≠ [] ∨ length existing ≤ max_songs →
  length (after_push unique_tracks max_songs existing) ≤ max_songs.
Proof.
  unfold after_push. intros Hpre.
  destruct (new_tracks_of unique_tracks existing) as [|t new]; [by destruct Hpre|].
  destruct (decide _) as [Hcap|Hcap]; [|lia].
  destruct (remove_all_length (drop max_songs (existing ++ t :: new))
              (existing ++ t :: new)) as (its' & -> & Hl).
  { apply drop_keys_submseteq. }
  simpl. rewrite length_drop in Hl. lia.
Qed.

(** After a push the playlist holds every merged track, unless it is
    filled up to the cap. *)
Lemma after_push_delivered unique_tracks max_songs existing :
  (∀ t, t ∈ unique_tracks →
     ratingKey t ∈ keys_of (after_push unique_tracks max_songs existing))
  ∨ length (after_push unique_tracks max_songs existing) = max_songs.
Proof.
  unfold after_push.
  destruct (new_tracks_of unique_tracks existing) as [|t new] eqn:Hnew.
  { left. by apply new_tracks_nil. }
  destruct (decide _) as [Hcap|Hcap].
  - right.
    destruct (remove_all_length (drop max_songs (existing ++ t :: new))
                (existing ++ t :: new)) as (its' & -> & Hl).
    { apply drop_keys_submseteq. }
    simpl. rewrite length_drop in Hl. lia.
  - left. intros t' Ht'. unfold keys_of. rewrite fmap_app, elem_of_app.
    destruct (decide (ratingKey t' ∈ keys_of existing)) as [|Hn]; [by left|right].
    apply list_elem_of_fmap_2. rewrite <-Hnew. by apply new_tracks_elem.
Qed.

(** With distinct keys, what is removed past the cap is the tail. *)
Lemma after_push_tail unique_tracks max_songs existing :
  NoDup (keys_of existing) → NoDup (keys_of unique_tracks) →
  new_tracks_of unique_tracks existing ≠ [] →
  max_songs < length (existing ++ new_tracks_of unique_tracks existing) →
  after_push unique_tracks max_songs existing
    = take max_songs (existing ++ new_tracks_of unique_tracks existing).
Proof.
  intros Hex Hun Hne Hcap. unfold after_push.
  destruct (new_tracks_of unique_tracks existing) as [|t new] eqn:Hnew; [done|].
  rewrite decide_True by done.
  pose proof (remove_all_tail (take max_songs (existing ++ t :: new))
                (drop max_songs (existing ++ t :: new))) as Htail.
  rewrite take_drop in Htail. rewrite Htail; [done|].
  unfold keys_of. rewrite fmap_app. apply NoDup_app. split_and!; [done| |].
  - intros k Hk Hk'. apply list_elem_of_fmap in Hk' as (t' & -> & Ht').
    rewrite <-Hnew in Ht'. apply new_tracks_elem in Ht' as [_ Hn]. by apply Hn.
  - rewrite <-Hnew. unfold new_tracks_of.
    eapply sublist_NoDup; [exact Hun|].
    apply fmap_sublist, sublist_filter.
Qed.

(** ** [update_recent_raves] as a whole *)

#[global] Instance reads_only_refl : Reflexive reads_only.
Proof. by intros s. Qed.

#[global] Instance reads_only_trans : Transitive reads_only.
Proof. intros s1 s2 s3 [? ?] [? ?]. split; congruence. Qed.

Lemma eq_reads_only s s' : s = s' → reads_only s s'.
Proof. by intros ->. Qed.

Lemma modify_reads_only f :
  (∀ l, total_added (f l) = total_added l) → respects reads_only (modify_locals f).
Proof. intros Hf [w l] r s' [= <- <-]. split; [done|apply Hf]. Qed.

Lemma collect_ratings_reads username : respects reads_only (collect_ratings username).
Proof.
  apply respects_switch; [apply _|]. apply respects_bind; [apply _| |].
  { eapply respects_weaken; [apply eq_reads_only|apply library_sections_pure]. }
  intros secs. apply respects_bind; [apply _|by apply modify_reads_only|].
  intros _. apply respects_bind; [apply _| |].
  - apply respects_for_each; [apply _..|]. intros lib _.
    apply respects_bind; [apply _| |].
    { eapply respects_weaken; [apply eq_reads_only|apply search_five_star_pure]. }
    intros results. apply respects_for_each; [apply _..|]. intros track _.
    destruct (lastRatedAt track); [by apply modify_reads_only|by apply respects_ret].
  - intros _. by apply modify_reads_only.
Qed.

Lemma collect_ratings_loop contributors w :
  for_each contributors (λ username, try_except (collect_ratings username))
    (w, raves_initial) = (Ok (), (w, collected_ratings contributors w))
  ∧ total_added (collected_ratings contributors w) = 0.
Proof.
  unfold collected_ratings.
  destruct (loop_never_raises contributors collect_ratings (w, raves_initial))
    as ([w' l'] & Hs).
  rewrite Hs. simpl.
  apply (loop_respects reads_only) in Hs as [Hw Hl].
  - simpl in *. by subst.
  - intros x _. apply collect_ratings_reads.
Qed.

Lemma update_recent_raves_empty fmt contributors max_songs playlist_name w :
  all_rated_tracks (collected_ratings contributors w) = [] →
  call raves_initial (update_recent_raves fmt contributors max_songs playlist_name) w
    = (Ok raves_nothing, w).
Proof.
  intros Hnil. unfold call, update_recent_raves.
  rewrite (bind_ok _ _ _ _ _ (proj1 (collect_ratings_loop contributors w))).
  unfold mbind at 1, M_bind at 1. unfold get_locals at 1. cbn [fst snd].
  by rewrite Hnil.
Qed.

Lemma merged_ratings_nonempty contributors max_songs w :
  all_rated_tracks (collected_ratings contributors w) ≠ [] →
  merged_ratings contributors max_songs w ≠ [].
Proof. intros Hne. by apply merge_ratings_spec. Qed.

Lemma update_recent_raves_run fmt contributors max_songs playlist_name w :
  all_rated_tracks (collected_ratings contributors w) ≠ [] →
  let merged := merged_ratings contributors max_songs w in
  ∃ s', for_each contributors (λ username,
          try_except (push_ratings merged max_songs playlist_name username))
          (w, collected_ratings contributors w) = (Ok (), s')
    ∧ call raves_initial
        (update_recent_raves fmt contributors max_songs playlist_name) w =
        (Ok {| added := total_added s'.2; total := length merged;
               tracks := rated_entry fmt
                           (track_users (collected_ratings contributors w)) <$> merged |},
         s'.1).
Proof.
  intros Hne merged.
  destruct (loop_never_raises contributors
              (push_ratings merged max_songs playlist_name)
              (w, collected_ratings contributors w)) as (s' & Hs').
  exists s'. split; [done|]. unfold call, update_recent_raves.
  rewrite (bind_ok _ _ _ _ _ (proj1 (collect_ratings_loop contributors w))).
  unfold mbind at 1, M_bind at 1. unfold get_locals at 1. cbn [fst snd].
  pose proof (merged_ratings_nonempty contributors max_songs w Hne) as Hm.
  fold merged in Hm. unfold merged, merged_ratings in *.
  destruct (all_rated_tracks (collected_ratings contributors w)) as [|t ts]; [done|].
  destruct (merge_ratings max_songs (t :: ts)) as [|m ms]; [done|].
  rewrite (bind_ok _ _ _ _ _ Hs'). by destruct s' as [w' l'].
Qed.

(** ** The cap *)

(** A playlist that is longer than the cap and holds every merged track is
    not trimmed: the run adds nothing and leaves its 51 items. *)
Lemma cap_not_restored :
  let run := call raves_initial
               (update_recent_raves no_format ["A"] 50 "Recent Raves") overlong_world in
  (match run.1 with
   | Ok res => Some (added res, total res)
   | Raise _ => None
   end) = Some (0, 1)
  ∧ length (user_contents "Recent Raves" "A" run.2) = 51
  ∧ ¬ length (user_contents "Recent Raves" "A" run.2) ≤ default_max_songs.
Proof. vm_compute. split_and!; [done|done|lia]. Qed.

Lemma push_ratings_caps merged max_songs playlist_name contributors username s :
  0 < max_songs → merged ≠ [] → length merged ≤ max_songs →
  username ∈ contributors →
  holds (User username) (cappable merged max_songs playlist_name) s →
  ∃ s', for_each contributors (λ x,
          try_except (push_ratings merged max_songs playlist_name x)) s = (Ok (), s')
    ∧ holds (User username) (capped max_songs playlist_name) s'.
Proof.
  intros Hcap Hne Hlen Hu Hpre.
  apply (loop_delivers (cappable merged max_songs playlist_name)
           (capped max_songs playlist_name) User); try done.
  - intros x. apply push_ratings_frame.
  - intros r (Hf & pl & Hpl & Hl). split; [done|]. rewrite Hpl. by left.
  - intros x w l r [= ->] Hr [Hf Hpl].
    destruct (push_ratings_run merged max_songs playlist_name username w l r Hr Hf Hne)
      as (r' & n & Hrun & Hf' & _ & pl' & Hpl' & Hits).
    exists r', (bump n l). split; [done|]. split; [done|].
    exists pl'. split; [done|]. rewrite Hits. unfold pushed.
    destruct (lookup_playlist playlist_name r) as [pl|]; [|done].
    apply after_push_length. tauto.
  - by exists username.
Qed.

(** [C2] Cap invariant of [update_recent_raves] (amended: the playlist must
    be created, extended or already within the cap).  For a contributor
    whose requests all succeed and whose playlist was absent, held at most
    [max_songs] items or lacked a merged track, the playlist holds at most
    [max_songs] items after the run, whatever the other contributors'
    requests did.  When appending the new tracks makes the playlist longer
    than [max_songs], what a push removes are the entries past that
    boundary: with distinct keys, the playlist becomes the first
    [max_songs] entries of the extended list. *)
Theorem cap_invariant :
  (∀ fmt contributors max_songs playlist_name w username r,
     0 < max_songs → username ∈ contributors →
     w_users w !! username = Some r →
     cappable (merged_ratings contributors max_songs w) max_songs playlist_name r →
     ∃ res w' r',
       call raves_initial
         (update_recent_raves fmt contributors max_songs playlist_name) w = (Ok res, w')
       ∧ w_users w' !! username = Some r'
       ∧ length (contents playlist_name r') ≤ max_songs)
  ∧ (∀ unique_tracks max_songs playlist_name username w l r pl,
       w_users w !! username = Some r → fault_free r →
       lookup_playlist playlist_name r = Some pl →
       NoDup (keys_of (pl_items pl)) → NoDup (keys_of unique_tracks) →
       new_tracks_of unique_tracks (pl_items pl) ≠ [] →
       max_songs < length (pl_items pl ++ new_tracks_of unique_tracks (pl_items pl)) →
       ∃ r' n pl',
         push_ratings unique_tracks max_songs playlist_name username (w, l)
           = (Ok (), (store_replica (User username) r' w, bump n l))
         ∧ lookup_playlist playlist_name r' = Some pl'
         ∧ pl_items pl' =
             take max_songs (pl_items pl ++ new_tracks_of unique_tracks (pl_items pl))).
Proof.
  split.
  - intros fmt contributors max_songs playlist_name w username r Hcap Hu Hr Hpre.
    destruct (decide (all_rated_tracks (collected_ratings contributors w) = []))
      as [Hnil|Hne].
    + exists raves_nothing, w, r. split; [by apply update_recent_raves_empty|].
      split; [done|]. destruct Hpre as [_ Hpl]. unfold contents.
      destruct (lookup_playlist playlist_name r) as [pl|]; simpl; [|lia].
      destruct Hpl as [|Hnew]; [done|]. exfalso. apply Hnew.
      unfold merged_ratings. by rewrite Hnil.
    + destruct (update_recent_raves_run fmt contributors max_songs playlist_name w Hne)
        as (s' & Hloop & Hcall).
      pose proof (merge_ratings_spec max_songs
                    (all_rated_tracks (collected_ratings contributors w)))
        as (_ & _ & _ & Hlen & Hm & _).
      assert (holds (User username)
                (cappable (merged_ratings contributors max_songs w) max_songs
                   playlist_name)
                (w, collected_ratings contributors w)) as Hholds by by exists r.
      destruct (push_ratings_caps (merged_ratings contributors max_songs w)
                  max_songs playlist_name contributors username _
                  Hcap (Hm Hne) (Hlen Hcap) Hu Hholds)
        as (s2 & Hloop2 & r' & Hr' & Hf' & pl & Hpl & Hl).
      rewrite Hloop in Hloop2. simplify_eq.
      eexists _, _, r'. split; [exact Hcall|]. split; [done|].
      unfold contents. by rewrite Hpl.
  - intros unique_tracks max_songs playlist_name username w l r pl
      Hr Hf Hpl Hex Hun Hnew Hcap.
    assert (unique_tracks ≠ []) as Hne.
    { intros ->. by apply Hnew. }
    destruct (push_ratings_run unique_tracks max_songs playlist_name username w l r
                Hr Hf Hne) as (r' & n & Hrun & _ & _ & pl' & Hpl' & Hits).
    exists r', n, pl'. split; [done|]. split; [done|].
    rewrite Hits. unfold pushed. rewrite Hpl. by apply after_push_tail.
Qed.

(** ** Rerunning the capped policy *)

(** [C1] Idempotence fails on a full playlist.  The new track 51 is
    appended and, the playlist now being 51 long, removed again as the entry
    past the cap; the run reports one addition and leaves the catalog
    exactly as it was, so the second run does the same and reports one
    addition again instead of none. *)
Theorem rerun_adds_again :
  let update := call raves_initial
                  (update_recent_raves no_format ["A"] default_max_songs "Recent Raves") in
  let first := update full_playlist_world in
  let second := update first.2 in
  (match first.1 with Ok res => Some (added res, total res) | Raise _ => None end)
    = Some (1, 50)
  ∧ first.2 = full_playlist_world
  ∧ (match second.1 with Ok res => Some (added res, total res) | Raise _ => None end)
    = Some (1, 50)
  ∧ keys_of (user_contents "Recent Raves" "A" second.2)
    = Z.of_nat <$> reverse (seq 1 50).
Proof. vm_compute. by split_and!. Qed.

(** ** Counting under failures *)

Lemma evolves_faults sc w w' sc' :
  evolves sc w w' → faults_at sc' w' = faults_at sc' w.
Proof.
  intros (_ & Ho & Hf & _). unfold faults_at.
  destruct (decide (sc' = sc)) as [->|Hne]; [done|]. by rewrite Ho.
Qed.

Lemma write_fails_lookup sc w r :
  lookup_replica sc w = Some r →
  write_fails sc w = faulty FAdd r && faulty FCreate r.
Proof. intros Hr. unfold write_fails, faults_at. by rewrite Hr. Qed.

Lemma write_fails_unknown sc w :
  lookup_replica sc w = None → write_fails sc w = true.
Proof. intros Hr. unfold write_fails, faults_at. by rewrite Hr. Qed.

Lemma sound_lookup sc w :
  sound sc w = true ↔ ∃ r, lookup_replica sc w = Some r ∧ fault_free r.
Proof.
  unfold sound, faults_at, fault_free.
  destruct (lookup_replica sc w) as [r|]; simpl.
  - rewrite bool_decide_eq_true. split; [by exists r|]. by intros (? & [= <-] & ?).
  - split; [done|]. by intros (? & ? & ?).
Qed.

(** A replica that cannot be written makes the full replace raise. *)
Lemma replace_playlist_blocked sc playlist_name tracks w l res s' :
  write_fails sc w = true →
  replace_playlist sc playlist_name tracks (w, l) = (res, s') →
  ∃ e, res = Raise e.
Proof.
  intros Hb. unfold replace_playlist.
  destruct (lookup_replica sc w) as [r|] eqn:Hr.
  2:{ unfold playlists. run_monad. rewrite Hr. intros [= <- <-]. eauto. }
  rewrite (write_fails_lookup _ _ _ Hr) in Hb.
  apply andb_true_iff in Hb as [Hadd Hcreate].
  unfold mbind at 1, M_bind at 1.
  destruct (playlists sc (w, l)) as [[pls|e] s1] eqn:Hpl.
  2:{ intros [= <- <-]. eauto. }
  apply playlists_pure in Hpl as <-. unfold find_playlist.
  destruct (find_index playlist_name pls) as [i|]; cbn [fmap option_fmap option_map].
  - set (h := {| h_scope := sc; h_index := i |}).
    unfold mbind at 1, M_bind at 1.
    destruct (items h (w, l)) as [[current|e] s2] eqn:Hit.
    2:{ intros [= <- <-]. eauto. }
    apply items_pure in Hit as <-.
    unfold mbind at 1, M_bind at 1.
    destruct (match current with [] => mret () | _ :: _ => removeItems h current end
                (w, l)) as [[[]|e] [w3 l3]] eqn:Hrm.
    2:{ intros [= <- <-]. eauto. }
    assert (stays sc (w, l) (w3, l3)) as [_ Hev].
    { destruct current; [unfold mret, M_ret in Hrm; by simplify_eq|].
      by apply (removeItems_stays h) in Hrm. }
    pose proof (evolves_faults sc w w3 sc Hev) as Hfs. unfold faults_at in Hfs.
    rewrite Hr in Hfs. unfold addItems. run_monad.
    destruct (lookup_replica sc w3) as [r3|]; [|by intros [= <- <-]; eauto].
    simpl in Hfs. injection Hfs as Hfs. unfold faulty in *. rewrite Hfs, Hadd.
    intros [= <- <-]. eauto.
  - unfold createPlaylist. run_monad. rewrite Hr, Hcreate. intros [= <- <-]. eauto.
Qed.

(** One target of the broadcast: counted at most once, not at all when it
    cannot be written. *)
Lemma push_target_step playlist_name tracks t w l res s' :
  push_target playlist_name tracks t (w, l) = (res, s') →
  ∃ n, s'.2 = counted n l ∧ n ≤ 1
    ∧ (write_fails (target_scope t) w = true → n = 0).
Proof.
  assert (∀ sc res s', 
    (replace_playlist sc playlist_name tracks;; count_user) (w, l) = (res, s') →
    ∃ n, s'.2 = counted n l ∧ n ≤ 1 ∧ (write_fails sc w = true → n = 0)) as Hcore.
  { intros sc res0 s0. unfold mbind, M_bind.
    destruct (replace_playlist sc playlist_name tracks (w, l)) as [[[]|e] [w1 l1]] eqn:Hrp.
    - pose proof (replace_playlist_stays _ _ _ _ _ _ Hrp) as [Hl _]. simpl in Hl. subst l1.
      intros [= <- <-]. exists 1. split_and!; [done|lia|].
      intros Hb. by destruct (replace_playlist_blocked _ _ _ _ _ _ _ Hb Hrp).
    - pose proof (replace_playlist_stays _ _ _ _ _ _ Hrp) as [Hl _]. simpl in Hl. subst l1.
      intros [= <- <-]. exists 0. split_and!; [|lia|done].
      destruct l. unfold counted. simpl. f_equal. lia. }
  destruct t as [user|]; [|apply Hcore].
  unfold push_target, push_home_user. rewrite switch_then. cbn [fst].
  destruct (w_users w !! u_title user) as [r|] eqn:Hr.
  - destruct (faulty FSwitch r); [|apply Hcore].
    intros [= <- <-]. exists 0. split_and!; [|lia|done].
    destruct l. unfold counted. simpl. f_equal. lia.
  - intros [= <- <-]. exists 0. split_and!; [|lia|done].
    destruct l. unfold counted. simpl. f_equal. lia.
Qed.

Lemma addItems_ok h tracks w (l : RavesLocals) a s' :
  addItems h tracks (w, l) = (Ok a, s') → write_fails (h_scope h) w = false.
Proof.
  unfold addItems. run_monad.
  destruct (lookup_replica (h_scope h) w) as [r|] eqn:Hr; [|done].
  rewrite (write_fails_lookup _ _ _ Hr). by destruct (faulty FAdd r).
Qed.

Lemma createPlaylist_ok sc playlist_name tracks w (l : RavesLocals) a s' :
  createPlaylist sc playlist_name tracks (w, l) = (Ok a, s') →
  write_fails sc w = false.
Proof.
  unfold createPlaylist. run_monad.
  destruct (lookup_replica sc w) as [r|] eqn:Hr; [|done].
  rewrite (write_fails_lookup _ _ _ Hr).
  destruct (faulty FCreate r); [done|]. intros _. apply andb_false_r.
Qed.

(** One contributor of the capped policy: at most the merged tracks are
    counted, and none when the replica cannot be written. *)
Lemma push_ratings_step unique_tracks max_songs playlist_name username w l res s' :
  push_ratings unique_tracks max_songs playlist_name username (w, l) = (res, s') →
  ∃ n, s'.2 = bump n l ∧ n ≤ length unique_tracks
    ∧ (write_fails (User username) w = true → n = 0).
Proof.
  assert (∃ n, l = bump n l ∧ n ≤ length unique_tracks
            ∧ (write_fails (User username) w = true → n = 0)) as Hzero.
  { exists 0. rewrite bump_0. split_and!; [done|lia|done]. }
  unfold push_ratings. rewrite switch_then. cbn [fst].
  destruct (w_users w !! username) as [r|] eqn:Hr; [|by intros [= <- <-]].
  destruct (faulty FSwitch r); [by intros [= <- <-]|].
  unfold mbind at 1, M_bind at 1.
  destruct (playlists (User username) (w, l)) as [[pls|e] s1] eqn:Hpl;
    apply playlists_pure in Hpl as <-; [|by intros [= <- <-]].
  unfold find_playlist.
  destruct (find_index playlist_name pls) as [i|]; cbn [fmap option_fmap option_map].
  - set (h := {| h_scope := User username; h_index := i |}).
    unfold mbind at 1, M_bind at 1.
    destruct (items h (w, l)) as [[existing|e] s2] eqn:Hit;
      apply items_pure in Hit as <-; [|by intros [= <- <-]].
    pose proof (new_tracks_length unique_tracks existing) as Hlen.
    destruct (new_tracks_of unique_tracks existing) as [|t new]; [by intros [= <- <-]|].
    unfold mbind at 1, M_bind at 1.
    destruct (addItems h (t :: new) (w, l)) as [[[]|e] [w1 l1]] eqn:Hadd.
    2:{ apply (addItems_stays h) in Hadd as [Hl _]. simpl in Hl. subst l1.
        by intros [= <- <-]. }
    pose proof (addItems_ok _ _ _ _ _ _ Hadd) as Hnb.
    apply (addItems_stays h) in Hadd as [Hl _]. simpl in Hl. subst l1.
    unfold add_count. unfold mbind at 1, M_bind at 1. unfold modify_locals at 1.
    cbn [fst snd]. unfold mbind at 1, M_bind at 1.
    destruct (items h (w1, bump (length (t :: new)) l)) as [[current|e] s3] eqn:Hit;
      apply items_pure in Hit as <-.
    2:{ intros [= <- <-]. exists (length (t :: new)). split_and!; [done..|].
        simpl in Hnb. congruence. }
    destruct (decide _).
    + intros Hrm. apply (removeItems_stays h) in Hrm as [Hl _]. simpl in Hl.
      exists (length (t :: new)). split_and!; [done..|]. simpl in Hnb. congruence.
    + intros [= <- <-]. exists (length (t :: new)). split_and!; [done..|].
      simpl in Hnb. congruence.
  - unfold mbind at 1, M_bind at 1.
    destruct (createPlaylist (User username) playlist_name unique_tracks (w, l))
      as [[[]|e] [w1 l1]] eqn:Hcr.
    2:{ apply createPlaylist_stays in Hcr as [Hl _]. simpl in Hl. subst l1.
        by intros [= <- <-]. }
    pose proof (createPlaylist_ok _ _ _ _ _ _ _ Hcr) as Hnb.
    apply createPlaylist_stays in Hcr as [Hl _]. simpl in Hl. subst l1.
    intros [= <- <-]. exists (length unique_tracks). split_and!; [done|lia|congruence].
Qed.

Section counting.
Context {L X : Type} (cnt : L → nat) (scope_of : X → Scope) (body : X → M L unit).
Hypothesis frame : ∀ x, respects (moves (scope_of x)) (body x).

Lemma loop_counts_upper (K : nat) (w0 : World) xs s r s' :
  (∀ x w l r s', body x (w, l) = (r, s') →
     cnt s'.2 ≤ cnt l + (if write_fails (scope_of x) w then 0 else K)) →
  (∀ sc, faults_at sc s.1 = faults_at sc w0) →
  for_each xs (λ x, try_except (body x)) s = (r, s') →
  cnt s'.2 ≤ cnt s.2
             + K * length (filter (λ x, write_fails (scope_of x) w0 = false) xs).
Proof.
  intros Hstep. revert s. induction xs as [|x xs IH]; intros s Hinv; simpl.
  - intros [= <- <-]. lia.
  - unfold mbind, M_bind, try_except.
    destruct (body x s) as [res1 s1] eqn:Hb.
    assert (∀ sc, faults_at sc s1.1 = faults_at sc w0) as Hinv1.
    { intros sc. rewrite <-Hinv. eapply evolves_faults. by eapply frame. }
    assert (write_fails (scope_of x) s.1 = write_fails (scope_of x) w0) as Hwf.
    { unfold write_fails. by rewrite Hinv. }
    destruct s as [w l]. apply Hstep in Hb. simpl in *. rewrite Hwf in Hb.
    rewrite filter_cons.
    assert (for_each xs (λ x, try_except (body x)) s1 = (r, s') →
            cnt s'.2 ≤ cnt l + K * length
              (if decide (write_fails (scope_of x) w0 = false)
               then x :: filter (λ x, write_fails (scope_of x) w0 = false) xs
               else filter (λ x, write_fails (scope_of x) w0 = false) xs)) as Hgoal.
    { intros Hloop. apply IH in Hloop; [|done].
      destruct (write_fails (scope_of x) w0); simpl in *; lia. }
    by destruct res1.
Qed.

Lemma loop_counts_lower (w0 : World) xs s r s' :
  (∀ x w l r s', body x (w, l) = (r, s') →
     cnt l + (if sound (scope_of x) w then 1 else 0) ≤ cnt s'.2) →
  (∀ sc, faults_at sc s.1 = faults_at sc w0) →
  for_each xs (λ x, try_except (body x)) s = (r, s') →
  cnt s.2 + length (filter (λ x, sound (scope_of x) w0 = true) xs) ≤ cnt s'.2.
Proof.
  intros Hstep. revert s. induction xs as [|x xs IH]; intros s Hinv; simpl.
  - intros [= <- <-]. lia.
  - unfold mbind, M_bind, try_except.
    destruct (body x s) as [res1 s1] eqn:Hb.
    assert (∀ sc, faults_at sc s1.1 = faults_at sc w0) as Hinv1.
    { intros sc. rewrite <-Hinv. eapply evolves_faults. by eapply frame. }
    assert (sound (scope_of x) s.1 = sound (scope_of x) w0) as Hwf.
    { unfold sound. by rewrite Hinv. }
    destruct s as [w l]. apply Hstep in Hb. simpl in *. rewrite Hwf in Hb.
    rewrite filter_cons.
    assert (for_each xs (λ x, try_except (body x)) s1 = (r, s') →
            cnt l + length
              (if decide (sound (scope_of x) w0 = true)
               then x :: filter (λ x, sound (scope_of x) w0 = true) xs
               else filter (λ x, sound (scope_of x) w0 = true) xs) ≤ cnt s'.2) as Hgoal.
    { intros Hloop. apply IH in Hloop; [|done].
      destruct (sound (scope_of x) w0); simpl in *; lia. }
    by destruct res1.
Qed.
End counting.

(** ** Failures of single replicas *)

Lemma push_ratings_delivers merged max_songs playlist_name contributors username s :
  merged ≠ [] → username ∈ contributors →
  holds (User username) fault_free s →
  ∃ s', for_each contributors (λ x,
          try_except (push_ratings merged max_songs playlist_name x)) s = (Ok (), s')
    ∧ holds (User username) (delivered merged max_songs playlist_name) s'.
Proof.
  intros Hne Hu Hpre.
  apply (loop_delivers fault_free (delivered merged max_songs playlist_name) User);
    try done.
  - intros x. apply push_ratings_frame.
  - by intros r [? _].
  - intros x w l r [= ->] Hr Hf.
    destruct (push_ratings_run merged max_songs playlist_name username w l r Hr Hf Hne)
      as (r' & n & Hrun & Hf' & _ & pl' & Hpl' & Hits).
    exists r', (bump n l). split; [done|]. split; [done|].
    exists pl'. split; [done|]. rewrite Hits. unfold pushed.
    destruct (lookup_playlist playlist_name r) as [pl|].
    + apply after_push_delivered.
    + left. intros t Ht. by apply list_elem_of_fmap_2.
  - by exists username.
Qed.

Lemma push_ratings_bound merged max_songs playlist_name contributors w l r s' :
  for_each contributors (λ x,
    try_except (push_ratings merged max_songs playlist_name x)) (w, l) = (r, s') →
  total_added s'.2 ≤ total_added l
    + length merged
      * length (filter (λ x, write_fails (User x) w = false) contributors).
Proof.
  apply (loop_counts_upper total_added User _ (push_ratings_frame _ _ _));
    [|done].
  intros x w1 l1 r1 s1 Hb.
  apply push_ratings_step in Hb as (n & -> & Hn & Hnb). simpl.
  destruct (write_fails (User x) w1); [rewrite Hnb by done|]; lia.
Qed.

Lemma push_target_bounds playlist_name tracks targets w l r s' :
  for_each targets (λ t, try_except (push_target playlist_name tracks t)) (w, l)
    = (r, s') →
  users_updated s'.2 ≤ users_updated l
    + length (filter (λ t, write_fails (target_scope t) w = false) targets)
  ∧ (tracks ≠ [] →
       users_updated l
         + length (filter (λ t, sound (target_scope t) w = true) targets)
       ≤ users_updated s'.2).
Proof.
  intros Hloop. split.
  - pose proof (loop_counts_upper users_updated target_scope _
                  (push_target_frame playlist_name tracks) 1 w targets (w, l) r s')
      as Hup. rewrite Nat.mul_1_l in Hup. apply Hup; [|done..].
    intros x w1 l1 r1 s1 Hb.
    apply push_target_step in Hb as (n & -> & Hn & Hnb). simpl.
    destruct (write_fails (target_scope x) w1); [rewrite Hnb by done|]; lia.
  - intros Hne.
    apply (loop_counts_lower users_updated target_scope _
             (push_target_frame playlist_name tracks) w targets (w, l) r s');
      [|done..].
    intros x w1 l1 r1 s1 Hb.
    destruct (sound (target_scope x) w1) eqn:Hs; [|].
    + apply sound_lookup in Hs as (rep & Hrep & Hf).
      destruct (push_target_run playlist_name tracks x w1 l1 rep Hrep Hf Hne)
        as (r' & Hrun & _).
      rewrite Hrun in Hb. simplify_eq. simpl. lia.
    + apply push_target_step in Hb as (n & -> & _). simpl. lia.
Qed.

(** The capped policy returns a result whatever fails; its total and rows
    are those of the merge. *)
Lemma update_recent_raves_result fmt contributors max_songs playlist_name w :
  ∃ res w',
    call raves_initial
      (update_recent_raves fmt contributors max_songs playlist_name) w = (Ok res, w')
    ∧ total res = length (merged_ratings contributors max_songs w)
    ∧ tracks res
        = rated_entry fmt (track_users (collected_ratings contributors w))
            <$> merged_ratings contributors max_songs w.
Proof.
  destruct (decide (all_rated_tracks (collected_ratings contributors w) = []))
    as [Hnil|Hne].
  - exists raves_nothing, w. unfold merged_ratings. rewrite Hnil.
    split; [by apply update_recent_raves_empty|done].
  - destruct (update_recent_raves_run fmt contributors max_songs playlist_name w Hne)
      as (s' & _ & Hcall).
    eexists _, _. split; [exact Hcall|done].
Qed.

Lemma first_push_nil playlist_name w username : first_push [] playlist_name w username = 0.
Proof.
  unfold first_push, push_count. destruct (w_users w !! username) as [r|]; [|done].
  destruct (bool_decide _); [|done]. by destruct (lookup_playlist playlist_name r).
Qed.

Lemma first_push_nil_sum playlist_name w names :
  sum_list (first_push [] playlist_name w <$> names) = 0.
Proof.
  induction names as [|x names IH]; [done|].
  rewrite fmap_cons. cbn [sum_list_with]. rewrite first_push_nil. exact IH.
Qed.

(** The counter rises by what every contributor without faults adds at its
    first visit, whatever happens at the other visits. *)
Lemma push_ratings_counts merged max_songs playlist_name w0 contributors :
  merged ≠ [] →
  ∀ seen s r s',
    (∀ y, y ∉ seen → w_users s.1 !! y = w_users w0 !! y) →
    for_each contributors (λ x,
      try_except (push_ratings merged max_songs playlist_name x)) s = (r, s') →
    total_added s.2
      + sum_list (first_push merged playlist_name w0 <$> first_occurrences seen contributors)
    ≤ total_added s'.2.
Proof.
  intros Hne. induction contributors as [|x xs IH]; intros seen [w l] r s' Hinv.
  { intros [= <- <-]. simpl. lia. }
  cbn [for_each]. unfold mbind at 1, M_bind at 1, try_except at 1.
  destruct (push_ratings merged max_songs playlist_name x (w, l)) as [res1 s1] eqn:Hb.
  pose proof (push_ratings_frame merged max_songs playlist_name x _ _ _ Hb)
    as (_ & Hothers & _).
  assert (∀ y, y ≠ x → w_users s1.1 !! y = w_users w !! y) as Hkept.
  { intros y Hy. apply (Hothers (User y)). congruence. }
  pose proof (push_ratings_step _ _ _ _ _ _ _ _ Hb) as (n & Hl & _).
  assert (for_each xs (λ x, try_except (push_ratings merged max_songs playlist_name x)) s1
            = (r, s') →
          total_added l
            + sum_list (first_push merged playlist_name w0
                          <$> first_occurrences seen (x :: xs))
          ≤ total_added s'.2) as Hgoal.
  { intros Hloop. cbn [first_occurrences]. simpl in Hinv.
    destruct (decide (x ∈ seen)) as [Hseen|Hnew].
    - apply (IH seen) in Hloop.
      + rewrite Hl in Hloop. simpl in Hloop. lia.
      + intros y Hy. rewrite Hkept; [by apply Hinv|]. by intros ->.
    - apply (IH (x :: seen)) in Hloop.
      2:{ intros y Hy. apply not_elem_of_cons in Hy as [Hyx Hy].
          rewrite Hkept by done. by apply Hinv. }
      rewrite fmap_cons. cbn [sum_list_with].
      change (sum_list_with id (first_push merged playlist_name w0
                                  <$> first_occurrences (x :: seen) xs))
        with (sum_list (first_push merged playlist_name w0
                          <$> first_occurrences (x :: seen) xs)).
      enough (total_added l + first_push merged playlist_name w0 x ≤ total_added s1.2)
        by (unfold id at 1; lia).
      unfold first_push. rewrite <- (Hinv x Hnew).
      destruct (w_users w !! x) as [rep|] eqn:Hrep; [|rewrite Hl; simpl; lia].
      destruct (bool_decide (r_faults rep = [])) eqn:Hff; [|rewrite Hl; simpl; lia].
      apply bool_decide_eq_true in Hff.
      destruct (push_ratings_run merged max_songs playlist_name x w l rep Hrep Hff Hne)
        as (r' & m & Hrun & _ & -> & _).
      rewrite Hrun in Hb. simplify_eq. simpl. lia. }
  by destruct res1.
Qed.

(** [C7] Partial failure isolation, for [update_recent_raves] and
    [sync_staff_picks], with any request of any replica failing.  The call
    returns a result: no exception of a replica escapes (the broadcast
    needs the user list of the account, which is read outside the loops).
    The merged list and the rows of the result are those of the merge.
    Every target whose own requests succeed receives its write, whichever
    targets before it failed.  The counters count written replicas only:
    a replica that cannot be written adds nothing to [added] or to
    [users_updated], and every target without faults is counted: in
    [users_updated] once, in [added] - at its first visit - with the
    merged tracks that its playlist lacked. *)
Theorem failure_isolation :
  (∀ fmt contributors max_songs playlist_name w,
     let merged := merged_ratings contributors max_songs w in
     ∃ res w',
       call raves_initial
         (update_recent_raves fmt contributors max_songs playlist_name) w = (Ok res, w')
       ∧ total res = length merged
       ∧ tracks res
           = rated_entry fmt (track_users (collected_ratings contributors w)) <$> merged
       ∧ (merged ≠ [] → ∀ username r, username ∈ contributors →
            w_users w !! username = Some r → fault_free r →
            ∃ r', w_users w' !! username = Some r'
              ∧ delivered merged max_songs playlist_name r')
       ∧ added res
           ≤ total res
             * length (filter (λ x, write_fails (User x) w = false) contributors)
       ∧ sum_list (first_push merged playlist_name w <$> first_occurrences [] contributors)
           ≤ added res)
  ∧ (∀ fmt curators playlist_name w users,
       w_account w = Some users →
       let merged := merged_tracks curators playlist_name w in
       let targets := staff_targets (home_users_of w) in
       ∃ res w',
         call sync_initial (sync_staff_picks fmt curators playlist_name) w = (Ok res, w')
         ∧ sp_total res = length merged
         ∧ sp_tracks res
             = member_entry fmt <$> sorted_info (collected_info curators playlist_name w)
         ∧ (merged ≠ [] → ∀ t r, t ∈ targets →
              lookup_replica (target_scope t) w = Some r → fault_free r →
              ∃ r', lookup_replica (target_scope t) w' = Some r'
                ∧ synced playlist_name merged r')
         ∧ (merged ≠ [] →
              length (filter (λ t, sound (target_scope t) w = true) targets)
              ≤ sp_users_updated res)
         ∧ sp_users_updated res
             ≤ length (filter (λ t, write_fails (target_scope t) w = false) targets)).
Proof.
  split.
  - intros fmt contributors max_songs playlist_name w merged.
    destruct (decide (all_rated_tracks (collected_ratings contributors w) = []))
      as [Hnil|Hne].
    + assert (merged = []) as Hm.
      { unfold merged, merged_ratings. by rewrite Hnil. }
      exists raves_nothing, w. rewrite Hm.
      split_and!; [by apply update_recent_raves_empty|done|done|done|simpl; lia|].
      by rewrite first_push_nil_sum.
    + destruct (update_recent_raves_run fmt contributors max_songs playlist_name w Hne)
        as ([w' l'] & Hloop & Hcall). fold merged in Hloop, Hcall.
      eexists _, w'. split; [exact Hcall|]. simpl. split_and!; [done|done| | |].
      * intros Hm username r Hu Hr Hf.
        assert (holds (User username) fault_free
                  (w, collected_ratings contributors w)) as Hpre by by exists r.
        destruct (push_ratings_delivers merged max_songs playlist_name contributors
                    username _ Hm Hu Hpre) as (s2 & Hloop2 & r' & Hr' & Hd).
        rewrite Hloop in Hloop2. simplify_eq. by exists r'.
      * apply push_ratings_bound in Hloop. simpl in Hloop.
        rewrite (proj2 (collect_ratings_loop contributors w)) in Hloop. lia.
      * apply (push_ratings_counts merged max_songs playlist_name w contributors
                 (merged_ratings_nonempty _ _ _ Hne) []) in Hloop; [|done].
        simpl in Hloop.
        rewrite (proj2 (collect_ratings_loop contributors w)) in Hloop. lia.
  - intros fmt curators playlist_name w users Hacc merged targets.
    destruct (decide (collected_info curators playlist_name w = [])) as [Hnil|Hne].
    + pose proof (proj2 (merged_tracks_nil curators playlist_name w) Hnil) as Hm.
      eexists _, w. split; [by apply sync_staff_picks_empty|].
      subst merged. rewrite Hm, Hnil. simpl. split_and!; [done..|lia].
    + destruct (sync_staff_picks_run fmt curators playlist_name w users Hne Hacc)
        as ([w' l'] & Hloop & Hcall).
      fold merged targets in Hloop, Hcall.
      eexists _, w'. split; [exact Hcall|]. simpl. split_and!; [done|done| | |].
      * intros Hm t r Ht Hr Hf.
        assert (holds (target_scope t) fault_free
                  (w, {| track_info := collected_info curators playlist_name w;
                         users_updated := 0 |})) as Hpre by by exists r.
        destruct (push_target_delivers playlist_name merged targets t _ Hm Ht Hpre)
          as (s2 & Hloop2 & r' & Hr' & Hs).
        rewrite Hloop in Hloop2. simplify_eq. by exists r'.
      * intros Hm. apply push_target_bounds in Hloop as [_ Hlow]. by apply Hlow.
      * by apply push_target_bounds in Hloop as [Hup _].
Qed.

(** ** Step 1 of [update_recent_raves] *)

Lemma scan_results_run username results w l :
  for_each results (λ track,
    match lastRatedAt track with
    | Some _ =>
        modify_locals (λ l,
          {| all_rated_tracks := all_rated_tracks l;
             track_users := <[ratingKey track := username]> (track_users l);
             user_tracks := user_tracks l ++ [track];
             total_added := total_added l |})
    | None => mret ()
    end) (w, l) =
  (Ok (), (w, {| all_rated_tracks := all_rated_tracks l;
                 track_users := foldl attribute (track_users l)
                                  ((username,.) <$> with_rating_time results);
                 user_tracks := user_tracks l ++ with_rating_time results;
                 total_added := total_added l |})).
Proof.
  revert l. induction results as [|track results IH]; intros l.
  - simpl. rewrite app_nil_r. by destruct l.
  - cbn [for_each]. unfold mbind at 1, M_bind at 1. unfold with_rating_time.
    rewrite filter_cons. destruct (lastRatedAt track) as [d|] eqn:Hd.
    + rewrite decide_True by by eexists. unfold modify_locals at 1. cbn [fst snd].
      rewrite IH. simpl. by rewrite <-(assoc_L (++)).
    + rewrite decide_False by by intros [? ?].
      unfold mret at 1, M_ret at 1. by rewrite IH.
Qed.

Lemma scan_libs_run username libs w l :
  ∃ res l',
    for_each libs (λ lib,
      results ← search_five_star lib;
      for_each results (λ track,
        match lastRatedAt track with
        | Some _ =>
            modify_locals (λ l,
              {| all_rated_tracks := all_rated_tracks l;
                 track_users := <[ratingKey track := username]> (track_users l);
                 user_tracks := user_tracks l ++ [track];
                 total_added := total_added l |})
        | None => mret ()
        end)) (w, l) = (res, (w, l'))
    ∧ (res = Ok () ↔ (scan_libs libs).2 = true)
    ∧ all_rated_tracks l' = all_rated_tracks l
    ∧ track_users l' = foldl attribute (track_users l)
                         ((username,.) <$> (scan_libs libs).1)
    ∧ ((scan_libs libs).2 = true →
         user_tracks l' = user_tracks l ++ (scan_libs libs).1).
Proof.
  revert l. induction libs as [|lib libs IH]; intros l.
  - exists (Ok ()), l. simpl. rewrite app_nil_r. by split_and!.
  - cbn [for_each scan_libs]. unfold mbind at 1, M_bind at 1.
    unfold mbind at 1, M_bind at 1. unfold search_five_star at 1.
    destruct (sec_search lib) as [results|].
    + unfold mret at 1, M_ret at 1. rewrite scan_results_run.
      destruct (IH {| all_rated_tracks := all_rated_tracks l;
                      track_users := foldl attribute (track_users l)
                                       ((username,.) <$> with_rating_time results);
                      user_tracks := user_tracks l ++ with_rating_time results;
                      total_added := total_added l |})
        as (res & l' & -> & Hres & Hall & Husers & Hut).
      exists res, l'. simpl in *. split_and!; [done|done|done| |].
      * by rewrite Husers, fmap_app, foldl_app.
      * intros Hok. by rewrite Hut, (assoc_L (++)).
    + exists (Raise CatalogReadFailure), l. simpl. by split_and!.
Qed.

(** One contributor: the catalog is only read; the tracks met are
    attributed, and they are kept when no request failed. *)
Lemma collect_ratings_run username w l :
  ∃ l', try_except (collect_ratings username) (w, l) = (Ok (), (w, l'))
    ∧ all_rated_tracks l'
        = all_rated_tracks l
          ++ (if (rating_scan username w).2 then (rating_scan username w).1 else [])
    ∧ track_users l' = foldl attribute (track_users l)
                         ((username,.) <$> (rating_scan username w).1).
Proof.
  unfold collect_ratings, rating_scan, try_except. rewrite switch_then. cbn [fst].
  destruct (w_users w !! username) as [r|] eqn:Hr.
  2:{ exists l. simpl. rewrite app_nil_r. by split_and!. }
  destruct (faulty FSwitch r); simpl.
  { exists l. rewrite app_nil_r. by split_and!. }
  unfold mbind at 1, M_bind at 1. unfold library_sections. run_monad. rewrite Hr.
  destruct (faulty FSections r); simpl.
  { exists l. rewrite app_nil_r. by split_and!. }
  set (libs := filter (λ lib, sec_type lib = "artist") (r_sections r)).
  destruct (scan_libs_run username libs w
              {| all_rated_tracks := all_rated_tracks l; track_users := track_users l;
                 user_tracks := []; total_added := total_added l |})
    as (res & l1 & Hscan & Hres & Hall & Husers & Hut).
  unfold mbind, M_bind, mret, M_ret, modify_locals in Hscan. simpl in Hscan.
  rewrite Hscan. simpl in *.
  destruct res as [[]|e].
  - assert ((scan_libs libs).2 = true) as Hok by by apply Hres.
    eexists. split; [done|]. simpl. rewrite Hok, Hall, Hut by done. done.
  - assert ((scan_libs libs).2 = false) as Hok.
    { destruct ((scan_libs libs).2); [|done]. by destruct Hres as [_ Hres];
        specialize (Hres eq_refl). }
    exists l1. rewrite Hok, app_nil_r. done.
Qed.

Lemma collect_ratings_loop_run contributors w l :
  ∃ l', for_each contributors (λ username, try_except (collect_ratings username)) (w, l)
          = (Ok (), (w, l'))
    ∧ all_rated_tracks l' = all_rated_tracks l ++ kept_ratings contributors w
    ∧ track_users l' = foldl attribute (track_users l)
                         (rating_occurrences contributors w).
Proof.
  revert l. induction contributors as [|u us IH]; intros l.
  - exists l. simpl. rewrite app_nil_r. by split_and!.
  - destruct (collect_ratings_run u w l) as (l1 & Hrun & Hall & Husers).
    destruct (IH l1) as (l2 & Hloop & Hall2 & Husers2).
    exists l2. cbn [for_each]. rewrite (bind_ok _ _ _ _ _ Hrun).
    split; [done|]. unfold kept_ratings, rating_occurrences in *. simpl.
    rewrite Hall2, Hall, Husers2, Husers, foldl_app, (assoc_L (++)). done.
Qed.

(** What step 1 leaves in [all_rated_tracks] and [track_users]. *)
Lemma collected_ratings_spec contributors w :
  all_rated_tracks (collected_ratings contributors w) = kept_ratings contributors w
  ∧ track_users (collected_ratings contributors w)
      = foldl attribute ∅ (rating_occurrences contributors w).
Proof.
  destruct (collect_ratings_loop_run contributors w raves_initial)
    as (l' & Hloop & Hall & Husers).
  unfold collected_ratings. rewrite Hloop. simpl. by rewrite Hall, Husers.
Qed.



(** ** The rating merge *)



(** ** One entry per key *)



(** ** Nothing collected *)

(** [C9] An empty collection is not an error: each of the three operations
    then returns its zero result without raising and leaves the whole
    catalog, hence every playlist, as it was. *)
Theorem empty_merge :
  (∀ fmt contributors max_songs playlist_name w,
     all_rated_tracks (collected_ratings contributors w) = [] →
     call raves_initial (update_recent_raves fmt contributors max_songs playlist_name) w
       = (Ok {| added := 0; total := 0; tracks := [] |}, w))
  ∧ (∀ fmt members playlist_name w,
       collected_info members playlist_name w = [] →
       call sync_initial (sync_jam_jar fmt members playlist_name) w
         = (Ok {| jam_total := 0; jam_tracks := [] |}, w))
  ∧ (∀ fmt curators playlist_name w,
       collected_info curators playlist_name w = [] →
       call sync_initial (sync_staff_picks fmt curators playlist_name) w
         = (Ok {| sp_total := 0; sp_tracks := []; sp_users_updated := 0 |}, w)).
Proof.
  split_and!.
  - intros. by apply update_recent_raves_empty.
  - intros. by apply sync_jam_jar_empty.
  - intros. by apply sync_staff_picks_empty.
Qed.

(** ** Items without a timestamp *)

(** An item added at [datetime.min] sorts like an item without timestamp:
    here the untimestamped [U] stays in front of the timestamped [V]. *)
Lemma untimestamped_before_minimum :
  ti_added_at <$> sorted_info (collected_info ["A"] "Jam Jar" tie_world)
    = [None; Some datetime_min]
  ∧ merged_tracks ["A"] "Jam Jar" tie_world
    = [member_item 1 "U" None; member_item 2 "V" (Some datetime_min)].
Proof. by vm_compute. Qed.

(** [C10] Items without [addedAt] in the membership merges (amended for
    the least timestamp).  Every item that is read gets an entry, whether
    it has a timestamp or not, and the entry has no timestamp when no
    holding of its key has one.  In the sorted output an entry without
    timestamp comes after every entry whose timestamp is later than
    [datetime.min]; an entry stamped exactly [datetime.min] has the same
    sort key and keeps its place among them. *)
Theorem untimestamped_last names playlist_name w :
  let info := collected_info names playlist_name w in
  let sorted := sorted_info info in
  merged_tracks names playlist_name w = ti_track <$> sorted
  ∧ (∀ username y,
       username ∈ names → y ∈ visible_items playlist_name username w →
       ∃ v, info_lookup (ratingKey y) info = Some v ∧ v ∈ sorted
         ∧ ((∀ username' y', username' ∈ names →
               y' ∈ visible_items playlist_name username' w →
               ratingKey y' = ratingKey y → addedAt y' = None) →
            ti_added_at v = None))
  ∧ (∀ i j v v' t,
       sorted !! i = Some v → sorted !! j = Some v' →
       ti_added_at v = None → ti_added_at v' = Some t → (datetime_min < t)%N →
       j < i).
Proof.
  intros info sorted. split; [done|]. split.
  - intros username y Hu Hy. subst sorted info. rewrite collected_info_fold.
    set (occs := occurrences names playlist_name w).
    assert ((username, y) ∈ occs) as Hocc by by apply occurrences_elem.
    destruct (info_lookup (ratingKey y) (foldl merge_occurrence [] occs)) as [v|] eqn:Hl.
    + exists v. split; [done|]. split.
      * unfold sorted_info. apply sort_desc_elem.
        pose proof (info_lookup_elem _ _ _ Hl) as Hel.
        by apply (list_elem_of_fmap_2 snd _ (ratingKey y, v)).
      * intros Hnone.
        destruct (merge_fold_record occs _ v Hl) as (_ & (o & Ho & Hk & _ & Hat) & _).
        apply occurrences_elem in Ho as [Ho1 Ho2]. rewrite Hat. by eapply Hnone.
    + exfalso. apply info_lookup_None in Hl. apply Hl.
      apply (merge_fold_keys occs). by exists (username, y).
  - intros i j v v' t Hi Hj Hv Hv' Ht.
    eapply (sorted_desc_order added_key); [apply sort_desc_sorted|exact Hi|exact Hj|].
    unfold added_key. rewrite Hv, Hv'. done.
Qed.

(** ** Rerunning without eviction *)

Lemma new_tracks_none unique_tracks existing :
  (∀ t, t ∈ unique_tracks → ratingKey t ∈ keys_of existing) →
  new_tracks_of unique_tracks existing = [].
Proof.
  intros Hall. destruct (new_tracks_of unique_tracks existing) as [|t new] eqn:Hnew;
    [done|exfalso].
  assert (t ∈ new_tracks_of unique_tracks existing) as Ht by (rewrite Hnew; left).
  apply new_tracks_elem in Ht as [Ht Hn]. by apply Hn, Hall.
Qed.

Lemma new_tracks_after_append unique_tracks existing :
  new_tracks_of unique_tracks
    (existing ++ new_tracks_of unique_tracks existing) = [].
Proof.
  apply new_tracks_none. intros t Ht. unfold keys_of. rewrite fmap_app, elem_of_app.
  destruct (decide (ratingKey t ∈ keys_of existing)) as [|Hn]; [by left|right].
  apply list_elem_of_fmap_2. by apply new_tracks_elem.
Qed.

Lemma pushed_complete merged max_songs playlist_name r pl' :
  roomy merged max_songs playlist_name r →
  pl_items pl' = pushed merged max_songs playlist_name r →
  new_tracks_of merged (pl_items pl') = [].
Proof.
  intros [_ Hroom] ->. unfold pushed.
  destruct (lookup_playlist playlist_name r) as [pl|].
  - unfold after_push.
    destruct (new_tracks_of merged (pl_items pl)) as [|t new] eqn:Hnew; [done|].
    destruct Hroom as [Hlen|]; [|done].
    rewrite decide_False by lia. rewrite <-Hnew. apply new_tracks_after_append.
  - apply new_tracks_none. intros t Ht. by apply list_elem_of_fmap_2.
Qed.

Lemma complete_roomy merged max_songs playlist_name r :
  complete merged playlist_name r → roomy merged max_songs playlist_name r.
Proof. intros (Hf & pl & Hpl & Hnew). split; [done|]. rewrite Hpl. by right. Qed.

Lemma push_ratings_completes merged max_songs playlist_name contributors username s :
  merged ≠ [] → username ∈ contributors →
  holds (User username) (roomy merged max_songs playlist_name) s →
  ∃ s', for_each contributors (λ x,
          try_except (push_ratings merged max_songs playlist_name x)) s = (Ok (), s')
    ∧ holds (User username) (complete merged playlist_name) s'.
Proof.
  intros Hne Hu Hpre.
  apply (loop_delivers (roomy merged max_songs playlist_name)
           (complete merged playlist_name) User); try done.
  - intros x. apply push_ratings_frame.
  - intros r. apply complete_roomy.
  - intros x w l r [= ->] Hr Hroomy.
    destruct (push_ratings_run merged max_songs playlist_name username w l r Hr
                (proj1 Hroomy) Hne)
      as (r' & n & Hrun & Hf' & _ & pl' & Hpl' & Hits).
    exists r', (bump n l). split; [done|]. split; [done|].
    exists pl'. split; [done|]. by eapply pushed_complete.
  - by exists username.
Qed.

#[global] Instance keeps_sources_refl : Reflexive keeps_sources.
Proof. by intros s u. Qed.

#[global] Instance keeps_sources_trans : Transitive keeps_sources.
Proof. intros s1 s2 s3 H1 H2 u. by rewrite H2, H1. Qed.

Lemma moves_keeps_sources sc (s s' : World * RavesLocals) :
  moves sc s s' → keeps_sources s s'.
Proof.
  intros (_ & Ho & Hf & Hs) u.
  destruct (decide (User u = sc)) as [<-|Hne].
  - simpl in Hf, Hs.
    destruct (w_users s'.1 !! u) as [r'|], (w_users s.1 !! u) as [r|];
      simpl in *; congruence.
  - specialize (Ho (User u) Hne). simpl in Ho. by rewrite Ho.
Qed.

Lemma rating_scan_same w w' username :
  same_sources w w' → rating_scan username w' = rating_scan username w.
Proof.
  intros Hsame. specialize (Hsame username). unfold rating_scan, faulty.
  destruct (w_users w' !! username) as [r'|], (w_users w !! username) as [r|];
    simpl in Hsame; try done.
  injection Hsame as Hs Hf. by rewrite Hs, Hf.
Qed.

Lemma collected_ratings_same contributors w w' :
  same_sources w w' →
  all_rated_tracks (collected_ratings contributors w')
    = all_rated_tracks (collected_ratings contributors w)
  ∧ track_users (collected_ratings contributors w')
    = track_users (collected_ratings contributors w).
Proof.
  intros Hsame.
  destruct (collected_ratings_spec contributors w) as [-> ->].
  destruct (collected_ratings_spec contributors w') as [-> ->].
  unfold kept_ratings, rating_occurrences.
  assert (∀ u, rating_scan u w' = rating_scan u w) as Hscan
    by (intros u; by apply rating_scan_same).
  split.
  - induction contributors as [|u us IH]; [done|].
    rewrite !bind_cons. by rewrite Hscan, IH.
  - f_equal. induction contributors as [|u us IH]; [done|].
    rewrite !bind_cons. by rewrite Hscan, IH.
Qed.

(** With every contributor's playlist complete, a run adds nothing. *)
Lemma push_ratings_idle merged max_songs playlist_name contributors s :
  merged ≠ [] →
  (∀ u, u ∈ contributors → holds (User u) (complete merged playlist_name) s) →
  ∃ s', for_each contributors (λ x,
          try_except (push_ratings merged max_songs playlist_name x)) s = (Ok (), s')
    ∧ total_added s'.2 = total_added s.2.
Proof.
  intros Hne Hall.
  destruct (loop_invariant
              (λ s1, (∀ u, u ∈ contributors →
                        holds (User u) (complete merged playlist_name) s1)
                     ∧ total_added s1.2 = total_added s.2)
              contributors (push_ratings merged max_songs playlist_name) s)
    as (s' & Hloop & _ & Hcount); [done| |by exists s'].
  intros x [w1 l1] res s1 Hx [Hall1 Hcount1] Hb.
  destruct (Hall1 x Hx) as (r & Hr & Hf & pl & Hpl & Hnew).
  destruct (push_ratings_run merged max_songs playlist_name x w1 l1 r Hr Hf Hne)
    as (r' & n & Hrun & Hf' & Hn & pl' & Hpl' & Hits).
  rewrite Hrun in Hb. simplify_eq. simpl in *. split.
  - intros u Hu. destruct (decide (u = x)) as [->|Hux].
    + exists r'. simpl. rewrite lookup_insert_eq. split; [done|]. split; [done|].
      exists pl'. split; [done|]. rewrite Hits. unfold pushed, after_push.
      by rewrite Hpl, Hnew.
    + destruct (Hall1 u Hu) as (ru & Hru & Hcu). exists ru. simpl.
      by rewrite lookup_insert_ne.
  - unfold push_count. rewrite Hpl, Hnew. simpl. lia.
Qed.

(** Idempotence where no playlist overflows: when every contributor's
    requests succeed and every playlist has room for the merged tracks it
    lacks, a second run on the catalog left by the first adds nothing and
    reports the same total and the same rows. *)
Theorem rerun_without_eviction fmt contributors max_songs playlist_name w :
  (∀ u, u ∈ contributors →
     ∃ r, w_users w !! u = Some r
       ∧ roomy (merged_ratings contributors max_songs w) max_songs playlist_name r) →
  ∃ res1 w1 res2 w2,
    call raves_initial
      (update_recent_raves fmt contributors max_songs playlist_name) w = (Ok res1, w1)
    ∧ call raves_initial
        (update_recent_raves fmt contributors max_songs playlist_name) w1 = (Ok res2, w2)
    ∧ added res2 = 0 ∧ total res2 = total res1 ∧ tracks res2 = tracks res1.
Proof.
  intros Hroomy.
  destruct (decide (all_rated_tracks (collected_ratings contributors w) = []))
    as [Hnil|Hne].
  { exists raves_nothing, w, raves_nothing, w.
    by rewrite update_recent_raves_empty. }
  set (merged := merged_ratings contributors max_songs w) in *.
  pose proof (merged_ratings_nonempty contributors max_songs w Hne) as Hm.
  fold merged in Hm.
  destruct (update_recent_raves_run fmt contributors max_songs playlist_name w Hne)
    as ([w1 l1] & Hloop & Hcall). fold merged in Hloop, Hcall.
  assert (same_sources w w1) as Hsame.
  { apply (loop_respects keeps_sources) in Hloop; [done|].
    intros x _. eapply respects_weaken; [apply moves_keeps_sources|].
    apply push_ratings_frame. }
  destruct (collected_ratings_same contributors w w1 Hsame) as [Hall Husers].
  assert (merged_ratings contributors max_songs w1 = merged) as Hmerged.
  { unfold merged, merged_ratings. by rewrite Hall. }
  assert (all_rated_tracks (collected_ratings contributors w1) ≠ []) as Hne1
    by by rewrite Hall.
  destruct (update_recent_raves_run fmt contributors max_songs playlist_name w1 Hne1)
    as ([w2 l2] & Hloop2 & Hcall2). rewrite Hmerged in Hloop2, Hcall2.
  destruct (push_ratings_idle merged max_songs playlist_name contributors
              (w1, collected_ratings contributors w1) Hm) as (s2 & Hloop3 & Hcount).
  { intros u Hu. destruct (Hroomy u Hu) as (r & Hr & Hroom).
    assert (holds (User u) (roomy merged max_songs playlist_name)
              (w, collected_ratings contributors w)) as Hpre by by exists r.
    destruct (push_ratings_completes merged max_songs playlist_name contributors u _
                Hm Hu Hpre) as (s' & Hloop' & r' & Hr' & Hc).
    rewrite Hloop in Hloop'. simplify_eq. by exists r'. }
  rewrite Hloop2 in Hloop3. simplify_eq. simpl in Hcount.
  eexists _, w1, _, w2. split; [exact Hcall|]. split; [exact Hcall2|]. simpl.
  split; [|by rewrite Husers].
  rewrite Hcount. apply collect_ratings_loop.
Qed.

(** ** What the policies leave alone *)

(** [update_recent_raves] writes to its contributors only: the admin scope
    and every user that is not a contributor keep their replica, and the
    account's user list is as before. *)
Theorem raves_targets_only fmt contributors max_songs playlist_name w :
  ∃ res w',
    call raves_initial
      (update_recent_raves fmt contributors max_songs playlist_name) w = (Ok res, w')
    ∧ w_admin w' = w_admin w
    ∧ w_account w' = w_account w
    ∧ ∀ username, username ∉ contributors → w_users w' !! username = w_users w !! username.
Proof.
  destruct (decide (all_rated_tracks (collected_ratings contributors w) = []))
    as [Hnil|Hne].
  { exists raves_nothing, w. by rewrite update_recent_raves_empty. }
  destruct (update_recent_raves_run fmt contributors max_songs playlist_name w Hne)
    as ([w' l'] & Hloop & Hcall).
  eexists _, w'. split; [exact Hcall|]. split_and!.
  - assert (lookup_replica Root w' = lookup_replica Root w) as Hroot; [|by simplify_eq].
    apply (loop_untouched User _ Root _ _ _ _ (push_ratings_frame _ _ _) ltac:(done) Hloop).
  - destruct (loop_invariant (λ s, w_account s.1 = w_account w) contributors
                (push_ratings (merged_ratings contributors max_songs w) max_songs
                   playlist_name) (w, collected_ratings contributors w))
      as (s2 & Hs2 & Hacc); [done| |rewrite Hloop in Hs2; by simplify_eq].
    intros x s r s' _ Hs Hb. apply push_ratings_frame in Hb as (Ha & _). congruence.
  - intros username Hn.
    apply (loop_untouched User _ (User username) _ _ _ _ (push_ratings_frame _ _ _))
      in Hloop; [done|].
    intros x Hx [= ->]. done.
Qed.

(** [sync_jam_jar] returns its result whatever request of whatever member
    fails; the total and the rows are those of the merge, and only members
    are written. *)
Theorem jam_jar_returns fmt members playlist_name w :
  ∃ res w',
    call sync_initial (sync_jam_jar fmt members playlist_name) w = (Ok res, w')
    ∧ jam_total res = length (merged_tracks members playlist_name w)
    ∧ jam_tracks res
        = member_entry fmt <$> sorted_info (collected_info members playlist_name w)
    ∧ w_admin w' = w_admin w
    ∧ ∀ username, username ∉ members → w_users w' !! username = w_users w !! username.
Proof.
  destruct (decide (collected_info members playlist_name w = [])) as [Hnil|Hne].
  { eexists _, w. split; [by apply sync_jam_jar_empty|].
    rewrite (proj2 (merged_tracks_nil members playlist_name w) Hnil), Hnil. done. }
  destruct (sync_jam_jar_run fmt members playlist_name w Hne)
    as ([w' l'] & Hloop & Hcall).
  eexists _, w'. split; [exact Hcall|]. split_and!; [done|done| |].
  - assert (lookup_replica Root w' = lookup_replica Root w) as Hroot; [|by simplify_eq].
    apply (loop_untouched User _ Root _ _ _ _ (push_member_frame _ _) ltac:(done) Hloop).
  - intros username Hn.
    apply (loop_untouched User _ (User username) _ _ _ _ (push_member_frame _ _))
      in Hloop; [done|].
    intros x Hx [= ->]. done.
Qed.

(** ** What the broadcast leaves alone *)

(** [sync_staff_picks] returns when the account's user list can be read,
    and writes to the admin scope and to the home users only: every user
    the account does not list with the home flag - a curator included -
    keeps its replica. *)
Theorem staff_picks_targets_only fmt curators playlist_name w users :
  w_account w = Some users →
  ∃ res w',
    call sync_initial (sync_staff_picks fmt curators playlist_name) w = (Ok res, w')
    ∧ sp_total res = length (merged_tracks curators playlist_name w)
    ∧ w_account w' = w_account w
    ∧ ∀ username, username ∉ u_title <$> filter (λ u, u_home u = true) users →
        w_users w' !! username = w_users w !! username.
Proof.
  intros Hacc.
  destruct (decide (collected_info curators playlist_name w = [])) as [Hnil|Hne].
  { eexists _, w. split; [by apply sync_staff_picks_empty|].
    rewrite (proj2 (merged_tracks_nil curators playlist_name w) Hnil). done. }
  destruct (sync_staff_picks_run fmt curators playlist_name w users Hne Hacc)
    as ([w' l'] & Hloop & Hcall).
  eexists _, w'. split; [exact Hcall|]. split_and!; [done| |].
  - destruct (loop_invariant (λ s, w_account s.1 = w_account w)
                (staff_targets (home_users_of w))
                (push_target playlist_name (merged_tracks curators playlist_name w))
                (w, {| track_info := collected_info curators playlist_name w;
                       users_updated := 0 |}))
      as (s2 & Hs2 & Hacc2); [done| |rewrite Hloop in Hs2; by simplify_eq].
    intros x s r s' _ Hs Hb. apply push_target_frame in Hb as (Ha & _). congruence.
  - intros username Hn.
    apply (loop_untouched target_scope _ (User username) _ _ _ _
             (push_target_frame _ _)) in Hloop; [done|].
    intros [user|] Hx; [|done]. intros [= <-]. apply Hn.
    apply elem_of_cons in Hx as [?|Hx]; [done|].
    apply list_elem_of_fmap in Hx as (u' & [= <-] & Hu').
    apply list_elem_of_fmap. exists user. split; [done|].
    unfold home_users_of in Hu'. by rewrite Hacc in Hu'.
Qed.

(** The account's user list is read outside every [try]: when it cannot be
    read and something was collected, [sync_staff_picks] raises, and has
    written nothing. *)
Theorem staff_picks_account_unavailable fmt curators playlist_name w :
  w_account w = None →
  collected_info curators playlist_name w ≠ [] →
  call sync_initial (sync_staff_picks fmt curators playlist_name) w
    = (Raise CatalogReadFailure, w).
Proof.
  intros Hacc Hne. unfold call, sync_staff_picks.
  rewrite (bind_ok _ _ _ _ _ (collect_loop_run playlist_name curators w sync_initial)).
  rewrite <-collected_info_fold.
  unfold mbind at 1, M_bind at 1. unfold get_locals at 1. simpl.
  destruct (collected_info curators playlist_name w) as [|kv info]; [done|].
  unfold account_users. run_monad. by rewrite Hacc.
Qed.

(** ** A replace that fails half-way *)

Section delivery_any.
Context {L X : Type} (Pre Post : Replica → Prop).
Context (scope_of : X → Scope) (body : X → M L unit) (sc : Scope).
Hypothesis frame : ∀ x, respects (moves (scope_of x)) (body x).
Hypothesis post_pre : ∀ r, Post r → Pre r.
Hypothesis run : ∀ x w l r,
  scope_of x = sc → lookup_replica sc w = Some r → Pre r →
  ∃ res r' l', body x (w, l) = (res, (store_replica sc r' w, l')) ∧ Post r'.

Lemma step_holds_any P x s r s' :
  (∀ r, P r → Pre r) → (∀ r, Post r → P r) →
  holds sc P s → body x s = (r, s') → holds sc P s'.
Proof.
  intros HP HPost (rep & Hrep & Hp) Hb.
  destruct (decide (scope_of x = sc)) as [Hsc|Hsc].
  - destruct s as [w l].
    destruct (run x w l rep Hsc Hrep (HP _ Hp)) as (res & r' & l' & Hrun & Hpost).
    rewrite Hrun in Hb. simplify_eq. exists r'. simpl.
    split; [apply lookup_store_eq|by apply HPost].
  - apply frame in Hb as (_ & Ho & _). exists rep. split; [|done].
    rewrite <-Hrep. apply Ho. congruence.
Qed.

(** As [loop_delivers], for a body that may raise after it has written. *)
Lemma loop_delivers_any xs s :
  (∃ x, x ∈ xs ∧ scope_of x = sc) → holds sc Pre s →
  ∃ s', for_each xs (λ x, try_except (body x)) s = (Ok (), s') ∧ holds sc Post s'.
Proof.
  intros (x & Hx & Hsc) Hpre.
  apply list_elem_of_split in Hx as (pre & post & ->).
  rewrite for_each_app.
  destruct (loop_invariant (holds sc Pre) pre body s Hpre) as (s1 & Hs1 & Hpre1).
  { intros y ? ? ? _. by apply step_holds_any. }
  rewrite (bind_ok _ _ _ _ _ Hs1). simpl.
  destruct s1 as [w1 l1]. destruct Hpre1 as (r1 & Hr1 & Hp1).
  destruct (run x w1 l1 r1 Hsc Hr1 Hp1) as (res & r' & l' & Hrun & Hpost).
  unfold mbind at 1, M_bind at 1, try_except at 1. rewrite Hrun.
  assert (holds sc Post (store_replica sc r' w1, l')) as Hpost'.
  { exists r'. split; [apply lookup_store_eq|done]. }
  destruct res as [[]|e]; apply loop_invariant; try done;
    intros y ? ? ? _; by apply step_holds_any.
Qed.
End delivery_any.

Lemma replace_playlist_add_fails sc playlist_name tracks w l r :
  lookup_replica sc w = Some r → add_blocked r →
  (∃ pl, lookup_playlist playlist_name r = Some pl) →
  ∃ r', replace_playlist sc playlist_name tracks (w, l)
          = (Raise PlaylistWriteFailure, (store_replica sc r' w, l))
    ∧ add_blocked r' ∧ emptied playlist_name r'.
Proof.
  intros Hr (Hadd & Hsw & Hpls & Hits & Hrm) (pl & Hpl).
  apply lookup_playlist_index in Hpl as (i & Hi & Hpl).
  unfold replace_playlist.
  rewrite (bind_ok _ _ _ _ _ (playlists_run sc w l r Hr Hpls)).
  unfold find_playlist. rewrite Hi. simpl.
  set (h := {| h_scope := sc; h_index := i |}).
  rewrite (bind_ok _ _ _ _ _ (items_run h w l r pl Hr Hits Hpl)).
  destruct (pl_items pl) as [|t its] eqn:Hcur.
  - rewrite (bind_ok _ _ (w, l) () (w, l)) by done.
    exists r. split_and!.
    + unfold addItems. run_monad. rewrite Hr, Hadd. by rewrite store_same.
    + done.
    + exists pl. split; [|done]. apply lookup_playlist_index. by exists i.
  - assert (remove_all (t :: its) (pl_items pl) = Some []) as Hrall.
    { rewrite Hcur. apply remove_all_self. }
    rewrite (bind_ok _ _ _ _ _
      (removeItems_run h (t :: its) w l r pl [] Hr Hrm Hpl Hrall)).
    set (r1 := update_playlist i (λ _, []) r).
    exists r1. split_and!.
    + unfold addItems. run_monad. rewrite lookup_store_eq.
      change (faulty FAdd (update_playlist i (λ _, []) r)) with (faulty FAdd r).
      by rewrite Hadd.
    + done.
    + exists (set_items [] pl). split; [|done]. by apply lookup_playlist_update.
Qed.

Lemma emptied_has_playlist playlist_name r :
  emptied playlist_name r → ∃ pl, lookup_playlist playlist_name r = Some pl.
Proof. intros (pl & Hpl & _). by exists pl. Qed.

(** The full replace is not atomic.  A member whose playlist can be read
    and cleared but refuses [addItems] loses its items in [sync_jam_jar]:
    the playlist is emptied, the failure is swallowed, and the result
    reports the merged tracks as before. *)
Theorem replace_is_not_atomic fmt members playlist_name w username r pl :
  username ∈ members → w_users w !! username = Some r → add_blocked r →
  lookup_playlist playlist_name r = Some pl → pl_items pl ≠ [] →
  ∃ res w' r',
    call sync_initial (sync_jam_jar fmt members playlist_name) w = (Ok res, w')
    ∧ jam_total res = length (merged_tracks members playlist_name w)
    ∧ 0 < jam_total res
    ∧ w_users w' !! username = Some r'
    ∧ emptied playlist_name r'.
Proof.
  intros Hu Hr Hb Hpl Hne.
  assert (visible_items playlist_name username w = pl_items pl) as Hvis.
  { unfold visible_items. destruct Hb as (_ & Hsw & Hpls & Hits & _).
    by rewrite Hr, Hsw, Hpls, Hpl, Hits. }
  assert (merged_tracks members playlist_name w ≠ []) as Hm.
  { destruct (pl_items pl) as [|y ys] eqn:Hcur; [done|].
    intros Hnil.
    assert (ratingKey y ∈ keys_of (merged_tracks members playlist_name w)) as Hin.
    { apply merged_tracks_elem. exists username, y. rewrite Hvis.
      split_and!; [done|left|done]. }
    rewrite Hnil in Hin. by apply elem_of_nil in Hin. }
  assert (collected_info members playlist_name w ≠ []) as Hinfo
    by by rewrite <-merged_tracks_nil.
  destruct (sync_jam_jar_run fmt members playlist_name w Hinfo) as (s' & Hloop & Hcall).
  set (Pre := λ r, add_blocked r ∧ ∃ pl, lookup_playlist playlist_name r = Some pl).
  set (Post := λ r, add_blocked r ∧ emptied playlist_name r).
  destruct (loop_delivers_any Pre Post User
              (push_member playlist_name (merged_tracks members playlist_name w))
              (User username)) with (xs := members)
      (s := (w, {| track_info := collected_info members playlist_name w;
                   users_updated := 0 |}))
    as (s2 & Hloop2 & r' & Hr' & _ & Hempty).
  - intros x. apply push_member_frame.
  - intros r0 [? ?]. split; [done|]. by apply emptied_has_playlist.
  - intros x w0 l0 r0 [= ->] Hr0 [Hb0 Hpl0]. unfold push_member.
    rewrite switch_then.
    change (w_users (w0, l0).1 !! username) with (lookup_replica (User username) w0).
    rewrite Hr0. destruct Hb0 as (Hadd & Hsw & Hrest). rewrite Hsw.
    destruct (replace_playlist_add_fails (User username) playlist_name
                (merged_tracks members playlist_name w) w0 l0 r0 Hr0
                (conj Hadd (conj Hsw Hrest)) Hpl0) as (r1 & Hrun & Hb1 & He1).
    by exists (Raise PlaylistWriteFailure), r1, l0.
  - by exists username.
  - exists r. split; [done|]. split; [done|]. by exists pl.
  - rewrite Hloop in Hloop2. simplify_eq.
    eexists _, _, r'. split; [exact Hcall|]. simpl. split_and!; try done.
    destruct (merged_tracks members playlist_name w); [done|simpl; lia].
Qed.

(** ** The size of the capped merge *)

Lemma dedup_capped_zero tracks :
  tracks ≠ [] → length (dedup_capped 0 tracks [] ∅) = 1.
Proof.
  destruct tracks as [|t rest]; [done|]. intros _. simpl.
  by rewrite decide_False by set_solver.
Qed.

(** [update_recent_raves] reports as many rows as its total, never more
    than [max_songs] of them - except that a cap of [0] still lets one
    track through, because the loop tests the length after it has appended
    the track. *)
Theorem raves_total_bound fmt contributors max_songs playlist_name w :
  ∃ res w',
    call raves_initial
      (update_recent_raves fmt contributors max_songs playlist_name) w = (Ok res, w')
    ∧ length (tracks res) = total res
    ∧ total res ≤ max max_songs 1
    ∧ (max_songs = 0 → all_rated_tracks (collected_ratings contributors w) ≠ [] →
         total res = 1).
Proof.
  destruct (update_recent_raves_result fmt contributors max_songs playlist_name w)
    as (res & w' & Hcall & Htotal & Htracks).
  exists res, w'. split; [done|]. rewrite Htotal, Htracks, length_fmap.
  split; [done|].
  assert (∀ collected, collected ≠ [] →
            length (merge_ratings 0 collected) = 1) as Hzero.
  { intros collected Hne. unfold merge_ratings. apply dedup_capped_zero.
    intros Hnil. pose proof (sort_desc_perm rated_key collected) as Hp.
    rewrite Hnil in Hp. by apply Permutation_nil_l in Hp. }
  unfold merged_ratings. split.
  - destruct max_songs as [|n].
    + destruct (all_rated_tracks (collected_ratings contributors w)) as [|t ts] eqn:Hall.
      * simpl. lia.
      * rewrite Hzero by done. lia.
    + pose proof (merge_ratings_spec (S n)
        (all_rated_tracks (collected_ratings contributors w))) as (_ & _ & _ & Hlen & _).
      specialize (Hlen ltac:(lia)). lia.
  - intros -> Hne. by apply Hzero.
Qed.

(** ** The membership merge as a union *)

(** The merged list of [sync_jam_jar] and [sync_staff_picks] is the union
    by key of what was read: it has an entry for a key exactly when a
    replica that could be read holds an item of that key, and no key has
    two entries. *)
Theorem membership_merge_union names playlist_name w :
  NoDup (keys_of (merged_tracks names playlist_name w))
  ∧ ∀ k, k ∈ keys_of (merged_tracks names playlist_name w) ↔
      ∃ username y, username ∈ names
        ∧ y ∈ visible_items playlist_name username w ∧ ratingKey y = k.
Proof.
  split; [apply merged_tracks_NoDup|]. intros k. apply merged_tracks_elem.
Qed.

(** ** Reports of a sync *)

Lemma string_length_app s1 s2 :
  String.length (s1 +:+ s2) = String.length s1 + String.length s2.
Proof. induction s1 as [|c s1 IH]; simpl; [done|]. by rewrite IH. Qed.

Lemma str_take_length n s : String.length (str_take n s) ≤ n.
Proof.
  revert s. induction n as [|n IH]; intros [|c s]; simpl; try lia.
  specialize (IH s). lia.
Qed.

Lemma shorten_length keep limit s :
  keep + 2 ≤ limit → String.length (shorten keep limit s) ≤ limit.
Proof.
  intros Hk. unfold shorten. destruct (decide _); [|lia].
  rewrite string_length_app. pose proof (str_take_length keep s). simpl. lia.
Qed.

Lemma spaces_length n : String.length (spaces n) = n.
Proof. induction n as [|n IH]; simpl; [done|]. rewrite string_length_app, IH. done. Qed.

Lemma format_index_length i : i < 100 → String.length (format_index i) = 2.
Proof.
  intros Hi. unfold format_index. rewrite string_length_app, spaces_length.
  assert (1 ≤ String.length (pretty i) ≤ 2) as Hlen; [|lia].
  assert (forallb (λ n, bool_decide (1 ≤ String.length (pretty n) ≤ 2)) (seq 0 100) = true)
    as Hall by by vm_compute.
  rewrite forallb_forall in Hall.
  specialize (Hall i). rewrite bool_decide_eq_true in Hall. apply Hall.
  apply list_elem_of_In, elem_of_seq. lia.
Qed.

Lemma track_line_length i title artist user :
  i < 100 → String.length (track_line i title artist user) ≤ 76.
Proof.
  intros Hi. unfold track_line. rewrite !string_length_app, format_index_length by done.
  pose proof (shorten_length 30 32 title ltac:(lia)) as Ht.
  pose proof (shorten_length 18 20 artist ltac:(lia)) as Ha.
  pose proof (str_take_length 8 user) as Hu.
  revert Ht Ha Hu.
  generalize (shorten 30 32 title) (shorten 18 20 artist) (str_take 8 user).
  intros s1 s2 s3 ???. simpl. lia.
Qed.

Lemma concat_length sep m ls :
  Forall (λ s, String.length s ≤ m) ls →
  String.length (String.concat sep ls) ≤ length ls * (m + String.length sep).
Proof.
  induction 1 as [|s ls Hs Hls IH]; simpl; [done|].
  destruct ls as [|s' ls']; [simpl; lia|].
  rewrite !string_length_app.
  change (String.length (String.concat sep (s' :: ls'))
          ≤ length (s' :: ls') * (m + String.length sep)) in IH.
  simpl length in *. lia.
Qed.

Lemma range_by_elem step stop i :
  0 < step → i ∈ range_by step stop ↔ ∃ k, i = k * step ∧ i < stop.
Proof.
  intros Hstep. unfold range_by. rewrite list_elem_of_fmap. split.
  - intros (k & -> & Hk). apply elem_of_seq in Hk. exists k. split; [done|].
    assert (k + 1 ≤ (stop + step - 1) / step) as Hle by lia.
    assert (((stop + step - 1) / step) * step ≤ stop + step - 1) as Hdiv.
    { rewrite Nat.mul_comm. apply Nat.Div0.mul_div_le. }
    nia.
  - intros (k & -> & Hk). exists k. split; [done|]. apply elem_of_seq.
    split; [lia|]. simpl.
    apply Nat.div_le_lower_bound; [lia|]. nia.
Qed.

Lemma range_by_length step stop : length (range_by step stop) = (stop + step - 1) / step.
Proof. unfold range_by. by rewrite length_fmap, length_seq. Qed.

Lemma chunk_at_length track_lines i : length (chunk_at track_lines i) ≤ chunk_size.
Proof. unfold chunk_at. rewrite length_take. lia. Qed.

(** The lines of a chunk that starts below [bound - chunk_size] are among
    the first [bound] lines. *)
Lemma chunk_at_lookup track_lines i line :
  line ∈ chunk_at track_lines i →
  ∃ j, j < i + chunk_size ∧ track_lines !! j = Some line.
Proof.
  unfold chunk_at. intros Hin. apply list_elem_of_lookup in Hin as (j & Hj).
  apply lookup_take_Some in Hj as [Hj Hlt]. rewrite lookup_drop in Hj.
  exists (i + j). split; [lia|done].
Qed.

Lemma lines_short {A} (f : nat → A → string) (rows : list A) j line :
  (∀ i t, i < 99 → String.length (f i t) ≤ 76) →
  imap f rows !! j = Some line → j < 99 → String.length line ≤ 76.
Proof.
  intros Hf. rewrite list_lookup_imap. intros Hl Hj.
  destruct (rows !! j) as [t|]; [|done]. simpl in Hl. injection Hl as <-. by apply Hf.
Qed.

Lemma chunk_value_fits {A} (f : nat → A → string) (rows : list A) i :
  (∀ i t, i < 99 → String.length (f i t) ≤ 76) →
  i + chunk_size ≤ 99 →
  String.length (String.concat newline (chunk_at (imap f rows) i)) ≤ field_limit.
Proof.
  intros Hf Hi.
  etrans; [apply (concat_length newline 76)|].
  - apply Forall_forall. intros line Hin.
    apply chunk_at_lookup in Hin as (j & Hj & Hl).
    eapply lines_short; [done..|lia].
  - pose proof (chunk_at_length (imap f rows) i). unfold chunk_size, field_limit in *.
    simpl. lia.
Qed.

Lemma rated_line_short i t :
  i < 99 → String.length (track_line (S i) (e_title t) (e_artist t) (e_user t)) ≤ 76.
Proof. intros Hi. apply track_line_length. lia. Qed.

Lemma member_line_short i t :
  i < 99 → String.length (track_line (S i) (m_title t) (m_artist t) (m_user t)) ≤ 76.
Proof. intros Hi. apply track_line_length. lia. Qed.

Lemma raves_fields_fit rows :
  length rows ≤ 50 →
  length (raves_fields (rated_lines rows)) ≤ 5
  ∧ Forall (λ f, String.length f.2 ≤ field_limit) (raves_fields (rated_lines rows)).
Proof.
  intros Hlen. unfold raves_fields.
  assert (length (rated_lines rows) = length rows) as Hl
    by apply length_imap.
  split.
  - rewrite length_fmap, range_by_length, Hl. unfold chunk_size.
    assert ((length rows + 10 - 1) / 10 < 6); [|lia].
    apply Nat.Div0.div_lt_upper_bound. lia.
  - apply Forall_fmap, Forall_forall. intros i Hi. simpl.
    apply range_by_elem in Hi as (k & -> & Hk); [|unfold chunk_size; lia].
    apply (chunk_value_fits _ rows); [apply rated_line_short|].
    unfold chunk_size in *. lia.
Qed.

(** The report of [recent_raves_update] always fits an embed: whatever the
    catalog holds and whichever requests fail, it has at most five fields
    of at most 1024 characters each. *)
Theorem raves_report_fits fmt txt w :
  within_limits (recent_raves_update fmt txt w).1
  ∧ match (recent_raves_update fmt txt w).1 with
    | Message _ => True
    | Embedded e => length (em_fields e) ≤ 5
    end.
Proof.
  unfold recent_raves_update.
  destruct (update_recent_raves_result fmt group_members default_max_songs
              "Recent Raves" w) as (res & w' & Hcall & Htotal & Htracks).
  rewrite Hcall. destruct (decide (total res = 0)); [done|]. simpl.
  assert (length (tracks res) ≤ 50) as Hlen.
  { rewrite Htracks, length_fmap.
    pose proof (merge_ratings_spec default_max_songs
      (all_rated_tracks (collected_ratings group_members w))) as (_ & _ & _ & Hcap & _).
    apply Hcap. unfold default_max_songs. lia. }
  destruct (raves_fields_fit (tracks res) Hlen) as [Hn Hv].
  split_and!; [unfold fields_limit; lia|done|done].
Qed.

(** *** Chunks *)

Lemma range_by_succ step stop :
  0 < step → 0 < stop →
  range_by step stop = 0 :: ((λ i, i + step) <$> range_by step (stop - step)).
Proof.
  intros Hstep Hstop. unfold range_by.
  assert ((stop + step - 1) / step = S ((stop - step + step - 1) / step)) as ->.
  { destruct (decide (step ≤ stop)) as [Hle|Hgt].
    - replace (stop + step - 1) with ((stop - step + step - 1) + 1 * step) by lia.
      rewrite Nat.div_add by lia. lia.
    - replace (stop - step) with 0 by lia. simpl.
      rewrite (Nat.div_small (step - 1)) by lia.
      assert (step * 1 ≤ stop + step - 1) as H1 by lia.
      apply Nat.div_le_lower_bound in H1; [|lia].
      assert ((stop + step - 1) / step < 2); [|lia].
      apply Nat.Div0.div_lt_upper_bound. lia. }
  simpl. f_equal. rewrite <-list_fmap_compose, <-fmap_S_seq, <-list_fmap_compose.
  apply list_fmap_ext. intros _ k _. simpl. lia.
Qed.

(** The chunk loop cuts [track_lines] into consecutive pieces. *)
Lemma chunks_concat track_lines :
  concat (chunk_at track_lines <$> range_by chunk_size (length track_lines)) = track_lines
  ∧ Forall (λ c, 0 < length c ≤ chunk_size)
      (chunk_at track_lines <$> range_by chunk_size (length track_lines)).
Proof.
  remember (length track_lines) as n eqn:Hn.
  revert track_lines Hn. induction (lt_wf n) as [n _ IH]. intros track_lines Hn.
  destruct (decide (n = 0)) as [->|Hpos].
  { symmetry in Hn. apply nil_length_inv in Hn as ->. by split. }
  rewrite range_by_succ by (unfold chunk_size; lia).
  rewrite fmap_cons, <-list_fmap_compose.
  rewrite (list_fmap_ext (chunk_at track_lines ∘ (λ i, i + chunk_size))
             (chunk_at (drop chunk_size track_lines))).
  2:{ intros _ i _. unfold chunk_at. simpl. by rewrite drop_drop, Nat.add_comm. }
  destruct (IH (n - chunk_size)) with (track_lines := drop chunk_size track_lines)
    as [Hcat Hall].
  { unfold chunk_size. lia. }
  { rewrite length_drop. lia. }
  split.
  - simpl. rewrite Hcat. unfold chunk_at. simpl. apply take_drop.
  - constructor; [|done]. unfold chunk_at. rewrite drop_0, length_take.
    unfold chunk_size. lia.
Qed.

(** Every row of the result reaches the report of [recent_raves_update]
    exactly once and in order, at most ten rows to a field; the command
    answers with the warning exactly when nothing was merged, and never
    with the failure text, as [update_recent_raves] does not raise. *)
Theorem raves_report_complete fmt txt w :
  ∃ res w',
    call raves_initial
      (update_recent_raves fmt group_members default_max_songs "Recent Raves") w
      = (Ok res, w')
    ∧ (recent_raves_update fmt txt w).2 = w'
    ∧ match (recent_raves_update fmt txt w).1 with
      | Message _ => total res = 0
      | Embedded e =>
          total res ≠ 0
          ∧ em_color e = (if decide (0 < added res) then green else blue)
          ∧ ∃ chunks,
              snd <$> em_fields e = String.concat newline <$> chunks
              ∧ concat chunks = rated_lines (tracks res)
              ∧ Forall (λ c, 0 < length c ≤ chunk_size) chunks
      end.
Proof.
  destruct (update_recent_raves_result fmt group_members default_max_songs
              "Recent Raves" w) as (res & w' & Hcall & _).
  exists res, w'. split; [done|]. unfold recent_raves_update. rewrite Hcall.
  destruct (decide (total res = 0)) as [Hz|Hnz]; [done|]. simpl.
  split; [done|]. split; [done|]. split; [by destruct (decide (0 < added res))|].
  destruct (chunks_concat (rated_lines (tracks res))) as [Hcat Hall].
  eexists. split; [|split; [exact Hcat|exact Hall]].
  unfold raves_fields. by rewrite <-!list_fmap_compose.
Qed.

Lemma sync_jam_jar_result fmt members playlist_name w :
  ∃ res w',
    call sync_initial (sync_jam_jar fmt members playlist_name) w = (Ok res, w')
    ∧ jam_total res = length (jam_tracks res).
Proof.
  destruct (decide (collected_info members playlist_name w = [])) as [Hnil|Hne].
  - eexists _, w. split; [by apply sync_jam_jar_empty|done].
  - destruct (sync_jam_jar_run fmt members playlist_name w Hne) as (s' & _ & Hcall).
    eexists _, _. split; [exact Hcall|]. simpl.
    unfold merged_tracks. by rewrite !length_fmap.
Qed.

Lemma chunk_at_take track_lines bound i :
  i + chunk_size ≤ bound →
  chunk_at (take bound track_lines) i = chunk_at track_lines i.
Proof.
  intros Hi. unfold chunk_at. rewrite !take_drop_commute, take_take.
  by rewrite Nat.min_l.
Qed.

(** The report of [jam_jar_sync] lists the first fifty rows of the result,
    in order and at most ten to a field, whatever the size of the merge:
    at most five fields of at most 1024 characters each, followed by one
    note that counts the rows left out when there are more than fifty.
    The command answers with a text exactly when the merge is empty. *)
Theorem jam_report_shows_fifty fmt txt w :
  ∃ res w',
    call sync_initial (sync_jam_jar fmt group_members "Jam Jar") w = (Ok res, w')
    ∧ (jam_jar_sync fmt txt w).2 = w'
    ∧ match (jam_jar_sync fmt txt w).1 with
      | Message _ => jam_total res = 0
      | Embedded e =>
          jam_total res ≠ 0
          ∧ length (em_fields e) ≤ 6
          ∧ ∃ chunks,
              snd <$> em_fields e
                = (String.concat newline <$> chunks)
                  ++ (if decide (50 < jam_total res)
                      then ["And " +:+ pretty (jam_total res - 50) +:+ " more tracks"]
                      else [])
              ∧ concat chunks = take 50 (member_lines (jam_tracks res))
              ∧ Forall (λ c, 0 < length c ≤ chunk_size) chunks
              ∧ Forall (λ v, String.length v ≤ field_limit)
                  (String.concat newline <$> chunks)
      end.
Proof.
  destruct (sync_jam_jar_result fmt group_members "Jam Jar" w)
    as (res & w' & Hcall & Htotal).
  exists res, w'. split; [done|]. unfold jam_jar_sync. rewrite Hcall.
  destruct (decide (jam_total res = 0)) as [Hz|Hnz]; [done|]. simpl.
  split; [done|]. split; [done|].
  set (track_lines := member_lines (jam_tracks res)).
  assert (length track_lines = jam_total res) as Hlen.
  { unfold track_lines, member_lines. by rewrite length_imap. }
  assert (length (take 50 track_lines) = min (length track_lines) 50) as Htake
    by (rewrite length_take; lia).
  assert (chunk_at track_lines <$> range_by chunk_size (min (length track_lines) 50)
          = chunk_at (take 50 track_lines)
              <$> range_by chunk_size (length (take 50 track_lines))) as Hchunks.
  { rewrite Htake. apply list_fmap_ext. intros j i Hi. symmetry. apply chunk_at_take.
    apply list_elem_of_lookup_2, range_by_elem in Hi as (k & -> & Hk);
      [|unfold chunk_size; lia].
    unfold chunk_size in *. lia. }
  destruct (chunks_concat (take 50 track_lines)) as [Hcat Hall].
  split.
  - unfold jam_fields. rewrite length_app, length_fmap, range_by_length.
    assert ((min (length track_lines) 50 + chunk_size - 1) / chunk_size < 6) as Hdiv.
    { apply Nat.Div0.div_lt_upper_bound. unfold chunk_size. lia. }
    destruct (decide (50 < length track_lines)); cbn [length]; lia.
  - exists (chunk_at (take 50 track_lines)
              <$> range_by chunk_size (length (take 50 track_lines))).
    split_and!; [|done|done|].
    + unfold jam_fields. rewrite fmap_app, <-Hchunks, <-!list_fmap_compose, Hlen.
      f_equal. by destruct (decide (50 < jam_total res)).
    + rewrite <-Hchunks. apply Forall_fmap, Forall_fmap, Forall_forall.
      intros i Hi. simpl.
      apply range_by_elem in Hi as (k & -> & Hk); [|unfold chunk_size; lia].
      apply (chunk_value_fits _ (jam_tracks res)); [apply member_line_short|].
      unfold chunk_size in *. lia.
Qed.

(** ** The rating playlist *)

Section TopRatedFacts.
Context (rating : Type) (minus_tenth : rating → rating).
Context (search_above : rating → LibSection → option (list Track)).

Lemma search_step_run (r : rating) lib w (l : list Track) :
  (tracks ← search_rated rating search_above r lib;
   modify_locals (λ all_top_tracks, all_top_tracks ++ tracks)) (w, l)
  = match search_above r lib with
    | Some ts => (Ok (), (w, l ++ ts))
    | None => (Raise CatalogReadFailure, (w, l))
    end.
Proof.
  unfold search_rated. by destruct (search_above r lib).
Qed.

Lemma search_loop_run (r : rating) libs w (l : list Track) :
  match found_in rating search_above r libs with
  | Some found =>
      for_each libs (λ lib,
        tracks ← search_rated rating search_above r lib;
        modify_locals (λ all_top_tracks, all_top_tracks ++ tracks)) (w, l)
      = (Ok (), (w, l ++ found))
  | None =>
      ∃ l', for_each libs (λ lib,
              tracks ← search_rated rating search_above r lib;
              modify_locals (λ all_top_tracks, all_top_tracks ++ tracks)) (w, l)
            = (Raise CatalogReadFailure, (w, l'))
  end.
Proof.
  unfold found_in. revert l. induction libs as [|lib libs IH]; intros l.
  - simpl. by rewrite app_nil_r.
  - cbn [for_each mapM]. pose proof (search_step_run r lib w l) as Hstep.
    destruct (search_above r lib) as [ts|] eqn:Hs.
    + specialize (IH (l ++ ts)). cbn [mbind option_bind].
      destruct (mapM (search_above r) libs) as [answers|];
        cbn [mbind option_bind mret option_ret fmap option_fmap option_map] in *.
      * rewrite (bind_ok _ _ _ _ _ Hstep), IH. simpl. by rewrite app_assoc.
      * destruct IH as (l' & IH). exists l'. by rewrite (bind_ok _ _ _ _ _ Hstep).
    + exists l. by rewrite (bind_raise _ _ _ _ _ Hstep).
Qed.

Lemma sections_root_run {L} w (l : L) :
  library_sections Root (w, l)
  = if faulty FSections (w_admin w) then (Raise CatalogReadFailure, (w, l))
    else (Ok (r_sections (w_admin w)), (w, l)).
Proof.
  unfold library_sections, request. run_monad. by destruct (faulty FSections (w_admin w)).
Qed.

(** The searches come first: when the sections cannot be listed or a
    search raises, [create_playlist_from_rating] raises before any write,
    whatever the earlier sections answered. *)
Lemma create_playlist_from_rating_unread min_rating playlist_name w :
  top_tracks rating minus_tenth search_above min_rating w = None →
  call [] (create_playlist_from_rating rating minus_tenth search_above
             min_rating playlist_name) w
    = (Raise CatalogReadFailure, w).
Proof.
  unfold top_tracks, call, create_playlist_from_rating. intros Htop.
  pose proof (sections_root_run w ([] : list Track)) as Hsec.
  destruct (faulty FSections (w_admin w)).
  { by rewrite (bind_raise _ _ _ _ _ Hsec). }
  rewrite (bind_ok _ _ _ _ _ Hsec).
  pose proof (search_loop_run (minus_tenth min_rating)
    (filter (λ lib, sec_type lib = "artist"%string) (r_sections (w_admin w))) w [])
    as Hloop.
  rewrite Htop in Hloop. destruct Hloop as (l' & Hloop).
  by rewrite (bind_raise _ _ _ _ _ Hloop).
Qed.

Lemma create_playlist_from_rating_found min_rating playlist_name w found :
  top_tracks rating minus_tenth search_above min_rating w = Some found →
  call [] (create_playlist_from_rating rating minus_tenth search_above
             min_rating playlist_name) w
  = match found with
    | [] => (Ok 0, w)
    | _ :: _ =>
        call found
          (pls ← playlists Root;
           match find_playlist Root playlist_name pls with
           | Some playlist =>
               current ← items playlist;
               removeItems playlist current;;
               addItems playlist found
           | None => createPlaylist Root playlist_name found
           end;;
           mret (length found)) w
    end.
Proof.
  unfold top_tracks, call, create_playlist_from_rating. intros Htop.
  pose proof (sections_root_run w ([] : list Track)) as Hsec.
  destruct (faulty FSections (w_admin w)) eqn:Hf; [done|].
  rewrite (bind_ok _ _ _ _ _ Hsec).
  pose proof (search_loop_run (minus_tenth min_rating)
    (filter (λ lib, sec_type lib = "artist"%string) (r_sections (w_admin w))) w [])
    as Hloop.
  rewrite Htop in Hloop. rewrite (bind_ok _ _ _ _ _ Hloop). simpl.
  unfold mbind at 1, M_bind at 1. unfold get_locals at 1. simpl.
  by destruct found.
Qed.

(** When every request of the admin scope succeeds and the searches find
    tracks, the playlist of the admin holds exactly the tracks found, in
    the order of the sections, whether it existed or not; their number is
    returned and no user's replica changes. *)
Theorem top_rated_replaces min_rating playlist_name w found :
  fault_free (w_admin w) →
  top_tracks rating minus_tenth search_above min_rating w = Some found →
  found ≠ [] →
  ∃ w',
    call [] (create_playlist_from_rating rating minus_tenth search_above
               min_rating playlist_name) w
      = (Ok (length found), w')
    ∧ contents playlist_name (w_admin w') = found
    ∧ w_users w' = w_users w.
Proof.
  intros Hf Htop Hne. rewrite (create_playlist_from_rating_found _ _ _ _ Htop).
  destruct found as [|t0 found0] eqn:Hfound; [done|]. rewrite <-Hfound in *.
  clear Hfound. unfold call. set (r := w_admin w).
  assert (lookup_replica Root w = Some r) as Hr by done.
  rewrite (bind_ok _ _ _ _ _
    (playlists_run Root w found r Hr (fault_free_faulty _ _ Hf))).
  unfold find_playlist.
  destruct (find_index playlist_name (r_playlists r)) as [i|] eqn:Hi;
    cbn [fmap option_fmap option_map].
  - destruct (find_index_lookup _ _ _ Hi) as (pl & Hpl & _).
    set (h := {| h_scope := Root; h_index := i |}).
    assert ((current ← items h; removeItems h current;; addItems h found) (w, found)
            = (Ok (), (store_replica Root (update_playlist i (λ _, found) r) w, found)))
      as Hwrite.
    { rewrite (bind_ok _ _ _ _ _
        (items_run h w found r pl Hr (fault_free_faulty _ _ Hf) Hpl)).
      rewrite (bind_ok _ _ _ _ _
        (removeItems_run h (pl_items pl) w found r pl [] Hr
           (fault_free_faulty _ _ Hf) Hpl (remove_all_self _))).
      set (r1 := update_playlist i (λ _, []) r).
      rewrite (addItems_run h found _ found r1);
        [|apply lookup_store_eq|by apply fault_free_faulty].
      rewrite store_store. do 3 f_equal. unfold r1, update_playlist. simpl.
      f_equal. rewrite list_alter_alter_eq. by apply list_alter_ext. }
    rewrite (bind_ok _ _ _ _ _ Hwrite).
    eexists. split; [done|]. split; [|done]. simpl. unfold contents.
    by rewrite (lookup_playlist_update _ _ _ _ pl Hi Hpl).
  - rewrite (bind_ok _ _ _ _ _
      (createPlaylist_run Root playlist_name found w found r Hr
         (fault_free_faulty _ _ Hf) Hne)).
    eexists. split; [done|]. split; [|done]. simpl. unfold contents, lookup_playlist.
    simpl. rewrite find_index_snoc by done. simpl.
    by rewrite lookup_app_r, Nat.sub_diag.
Qed.

(** The replace is not atomic here either: an admin playlist that can be
    read and cleared but refuses [addItems] is left empty, and the
    exception leaves the function. *)
Theorem top_rated_not_atomic min_rating playlist_name w found pl :
  add_blocked (w_admin w) →
  top_tracks rating minus_tenth search_above min_rating w = Some found →
  found ≠ [] →
  lookup_playlist playlist_name (w_admin w) = Some pl →
  ∃ w',
    call [] (create_playlist_from_rating rating minus_tenth search_above
               min_rating playlist_name) w
      = (Raise PlaylistWriteFailure, w')
    ∧ emptied playlist_name (w_admin w').
Proof.
  intros (Hadd & Hsw & Hpls & Hits & Hrm) Htop Hne Hpl.
  rewrite (create_playlist_from_rating_found _ _ _ _ Htop).
  destruct found as [|t0 found0] eqn:Hfound; [done|]. rewrite <-Hfound in *.
  clear Hfound. unfold call.
  apply lookup_playlist_index in Hpl as (i & Hi & Hpl).
  set (r := w_admin w) in *.
  assert (lookup_replica Root w = Some r) as Hr by done.
  rewrite (bind_ok _ _ _ _ _ (playlists_run Root w found r Hr Hpls)).
  unfold find_playlist. rewrite Hi. cbn [fmap option_fmap option_map].
  set (h := {| h_scope := Root; h_index := i |}).
  assert ((current ← items h; removeItems h current;; addItems h found) (w, found)
          = (Raise PlaylistWriteFailure,
             (store_replica Root (update_playlist i (λ _, []) r) w, found)))
    as Hwrite.
  { rewrite (bind_ok _ _ _ _ _ (items_run h w found r pl Hr Hits Hpl)).
    rewrite (bind_ok _ _ _ _ _
      (removeItems_run h (pl_items pl) w found r pl [] Hr Hrm Hpl (remove_all_self _))).
    unfold addItems. run_monad.
    change (faulty FAdd (update_playlist i (λ _, []) r)) with (faulty FAdd r).
    by rewrite Hadd. }
  rewrite (bind_raise _ _ _ _ _ Hwrite).
  eexists. split; [done|]. simpl. exists (set_items [] pl). split; [|done].
  by apply lookup_playlist_update.
Qed.

(** [sync_top] answers with the failure text, before anything is written,
    when the sections or a search cannot be read.  When every search
    answers and no track is found it reports a sync of [0] tracks and
    leaves the catalog as it is: a playlist of that name keeps its former
    items. *)
Theorem sync_top_reply eight w :
  match top_tracks rating minus_tenth search_above eight w with
  | None =>
      sync_top rating minus_tenth search_above eight w
        = (Message "Failed to sync playlist. Check logs.", w)
  | Some found =>
      found = [] →
      sync_top rating minus_tenth search_above eight w
        = (Message "âœ… Synced 'Top Rated' playlist with 0 tracks.", w)
  end.
Proof.
  unfold sync_top.
  destruct (top_tracks rating minus_tenth search_above eight w) as [found|] eqn:Htop.
  - intros ->. by rewrite (create_playlist_from_rating_found _ _ _ [] Htop).
  - by rewrite (create_playlist_from_rating_unread _ _ _ Htop).
Qed.

End TopRatedFacts.

(** ** Library additions *)

Section AdditionsFacts.
Context (int_of : string → option Z).

Lemma added_since_spec cutoff item t :
  added_since cutoff item = Some t ↔ it_addedAt item = Some t ∧ (cutoff ≤ t)%N.
Proof.
  unfold added_since. destruct (it_addedAt item) as [t'|]; [|naive_solver].
  destruct (decide (cutoff ≤ t')%N); naive_solver.
Qed.

Lemma recent_rows_elem {Row} (row : Item → datetime → Row) cutoff listing x :
  x ∈ recent_rows row cutoff listing ↔
    ∃ its item t, listing = Some its ∧ item ∈ its
      ∧ it_addedAt item = Some t ∧ (cutoff ≤ t)%N ∧ x = row item t.
Proof.
  unfold recent_rows. destruct listing as [its|].
  - rewrite list_elem_of_omap. split.
    + intros (item & Hin & Hrow).
      destruct (added_since cutoff item) as [t|] eqn:Hs; [|done].
      apply added_since_spec in Hs as [? ?]. simpl in Hrow. injection Hrow as <-.
      by exists its, item, t.
    + intros (its' & item & t & [= <-] & Hin & Ht & Hle & ->).
      exists item. split; [done|].
      by rewrite (proj2 (added_since_spec cutoff item t) (conj Ht Hle)).
  - split; [by intros ?%elem_of_nil|]. by intros (? & ? & ? & ? & _).
Qed.

Lemma episode_step_invariant server cutoff st item :
  show_invariant cutoff st →
  show_invariant cutoff (episode_step int_of server cutoff st item).
Proof.
  intros (Hrows & Hnd & Hfetched). unfold episode_step.
  destruct (added_since cutoff item) as [t|] eqn:Hs; [|done].
  apply added_since_spec in Hs as [_ Hle].
  destruct (show_tmdb_cache st !! show_key_of item) as [id|] eqn:Hcache.
  - split_and!; simpl; [|done|].
    + apply Forall_app. split; [done|]. constructor; [|done]. simpl.
      by rewrite Hcache.
    + intros key Hin. destruct (Hfetched key Hin) as (? & row & ? & ?).
      split; [done|]. exists row. split; [|done]. apply elem_of_app. by left.
  - split_and!; simpl.
    + apply Forall_app. split.
      * eapply Forall_impl; [exact Hrows|]. intros row [Hrow ?]. split; [|done].
        rewrite lookup_insert_ne; [done|]. intros Heq. by rewrite <-Heq, Hcache in Hrow.
      * constructor; [|done]. simpl. by rewrite lookup_insert_eq.
    + destruct (it_grandparentRatingKey item) as [key|] eqn:Hkey; simpl;
        [|by rewrite app_nil_r].
      apply NoDup_app. split_and!; [done| |apply NoDup_singleton].
      intros k Hk ->%list_elem_of_singleton.
      apply Hfetched in Hk as [[? Hk] _]. unfold show_key_of in Hcache.
      rewrite Hkey in Hcache. simpl in Hcache. by rewrite Hcache in Hk.
    + intros key Hin. apply elem_of_app in Hin as [Hin|Hin].
      * destruct (Hfetched key Hin) as (Hc & row & ? & ?). split.
        -- destruct (decide (key = show_key_of item)) as [->|Hne].
           ++ rewrite lookup_insert_eq. by eexists.
           ++ by rewrite lookup_insert_ne.
        -- exists row. split; [|done]. apply elem_of_app. by left.
      * destruct (it_grandparentRatingKey item) as [k|] eqn:Hkey; simpl in Hin;
          [|by apply elem_of_nil in Hin].
        apply list_elem_of_singleton in Hin as ->.
        assert (show_key_of item = k) as Hk by (unfold show_key_of; by rewrite Hkey).
        rewrite Hk. split.
        -- rewrite lookup_insert_eq. by eexists.
        -- eexists. split; [apply elem_of_app; right; apply list_elem_of_singleton; done|].
           done.
Qed.

Lemma show_loop_invariant server cutoff libs st :
  show_invariant cutoff st →
  show_invariant cutoff (foldl (show_lib_step int_of server cutoff) st libs).
Proof.
  revert st. induction libs as [|lib libs IH]; intros st Hst; [done|].
  simpl. apply IH. unfold show_lib_step.
  destruct (lib_searchEpisodes lib) as [episodes|]; [|done].
  clear IH. revert st Hst. induction episodes as [|item episodes IHe]; intros st Hst;
    [done|].
  simpl. apply IHe. by apply episode_step_invariant.
Qed.

Lemma show_invariant_initial cutoff :
  show_invariant cutoff {| ss_rows := []; show_tmdb_cache := ∅; ss_fetched := [] |}.
Proof.
  split_and!; simpl; [done|constructor|]. intros key Hin. by apply elem_of_nil in Hin.
Qed.

Lemma recently_added_traced_inv plex now days results fetched :
  recently_added_traced int_of plex now days = Returned (results, fetched) →
  ∃ cutoff server sections,
    cutoff_of now days = Some cutoff ∧ plex = Some server
    ∧ sv_sections server = Some sections
    ∧ results =
        {| rc_movies :=
             of_type "movie" sections ≫= λ lib,
               recent_rows (movie_row int_of) cutoff (lib_recentlyAdded lib);
           rc_shows :=
             ss_rows (foldl (show_lib_step int_of server cutoff)
                        {| ss_rows := []; show_tmdb_cache := ∅; ss_fetched := [] |}
                        (of_type "show" sections));
           rc_music :=
             of_type "artist" sections ≫= λ lib,
               recent_rows music_row cutoff (lib_searchAlbums lib);
           rc_music_total_size :=
             foldl (music_size_step cutoff) None (of_type "artist" sections) |}
    ∧ fetched =
        ss_fetched (foldl (show_lib_step int_of server cutoff)
                      {| ss_rows := []; show_tmdb_cache := ∅; ss_fetched := [] |}
                      (of_type "show" sections)).
Proof.
  unfold recently_added_traced.
  destruct (cutoff_of now days) as [cutoff|]; [|done].
  destruct plex as [server|]; [|done].
  destruct (sv_sections server) as [sections|] eqn:Hsec; [|done].
  intros [= <- <-]. exists cutoff, server, sections. by split_and!.
Qed.

Lemma cutoff_of_spec now days cutoff :
  cutoff_of now days = Some cutoff →
  Z.of_N cutoff = (Z.of_N now - days * microseconds_per_day)%Z.
Proof.
  unfold cutoff_of. destruct (decide _); [|done]. destruct (decide _); [|done].
  intros [= <-]. lia.
Qed.

(** Every row that [get_recently_added] returns - movie, episode or album
    - is dated on or after the cutoff, [days] days before now. *)
Theorem recently_added_window plex now days results :
  get_recently_added int_of plex now days = Returned results →
  ∃ cutoff,
    Z.of_N cutoff = (Z.of_N now - days * microseconds_per_day)%Z
    ∧ Forall (λ row, (cutoff ≤ mv_added_at row)%N) (rc_movies results)
    ∧ Forall (λ row, (cutoff ≤ sh_added_at row)%N) (rc_shows results)
    ∧ Forall (λ row, (cutoff ≤ mu_added_at row)%N) (rc_music results).
Proof.
  unfold get_recently_added.
  destruct (recently_added_traced int_of plex now days) as [[res fetched]|e] eqn:Hrun;
    [|done].
  intros [= ->].
  apply recently_added_traced_inv in Hrun
    as (cutoff & server & sections & Hcut & -> & Hsec & -> & _).
  exists cutoff. split; [by apply cutoff_of_spec|]. simpl. split_and!.
  - apply Forall_forall. intros row Hrow.
    apply list_elem_of_bind in Hrow as (lib & Hrow & _).
    apply recent_rows_elem in Hrow as (? & ? & t & _ & _ & _ & Hle & ->). done.
  - pose proof (show_loop_invariant server cutoff (of_type "show" sections) _
                  (show_invariant_initial cutoff)) as (Hrows & _).
    eapply Forall_impl; [exact Hrows|]. by intros row [_ ?].
  - apply Forall_forall. intros row Hrow.
    apply list_elem_of_bind in Hrow as (lib & Hrow & _).
    apply recent_rows_elem in Hrow as (? & ? & t & _ & _ & _ & Hle & ->). done.
Qed.

(** The cache of show identifiers works: rows of the same show carry the
    same identifier, and [fetchItem] is asked at most once for a show. *)
Theorem show_lookups_cached plex now days results fetched :
  recently_added_traced int_of plex now days = Returned (results, fetched) →
  NoDup fetched
  ∧ (∀ key, key ∈ fetched → ∃ row, row ∈ rc_shows results ∧ sh_rating_key row = key)
  ∧ ∀ row row', row ∈ rc_shows results → row' ∈ rc_shows results →
      sh_rating_key row = sh_rating_key row' → sh_tmdb_id row = sh_tmdb_id row'.
Proof.
  intros Hrun. apply recently_added_traced_inv in Hrun
    as (cutoff & server & sections & Hcut & -> & Hsec & -> & ->).
  pose proof (show_loop_invariant server cutoff (of_type "show" sections) _
                (show_invariant_initial cutoff)) as (Hrows & Hnd & Hfetched).
  simpl. split_and!; [done| |].
  - intros key Hin. by apply Hfetched.
  - intros row row' Hin Hin' Hkey. rewrite Forall_forall in Hrows.
    destruct (Hrows row Hin) as [Hc _]. destruct (Hrows row' Hin') as [Hc' _].
    rewrite Hkey, Hc' in Hc. by injection Hc.
Qed.

(** A listing that raises hides nothing of the other sections: a movie of
    a section that answers, added since the cutoff, has its row. *)
Theorem recently_added_survives_failures plex now days results server sections
    cutoff lib its item t :
  get_recently_added int_of plex now days = Returned results →
  plex = Some server → sv_sections server = Some sections →
  cutoff_of now days = Some cutoff →
  lib ∈ sections → lib_type lib = "movie"%string →
  lib_recentlyAdded lib = Some its → item ∈ its →
  it_addedAt item = Some t → (cutoff ≤ t)%N →
  movie_row int_of item t ∈ rc_movies results.
Proof.
  unfold get_recently_added.
  destruct (recently_added_traced int_of plex now days) as [[res fetched]|e] eqn:Hrun;
    [|done].
  intros [= ->] -> Hsec Hcut Hlib Htype Hits Hitem Ht Hle.
  apply recently_added_traced_inv in Hrun
    as (cutoff' & server' & sections' & Hcut' & [= <-] & Hsec' & -> & _).
  rewrite Hcut in Hcut'. rewrite Hsec in Hsec'. simplify_eq. simpl.
  apply list_elem_of_bind. exists lib. split.
  - apply recent_rows_elem. by exists its, item, t.
  - unfold of_type. by apply list_elem_of_filter.
Qed.

(** The cutoff is computed before the server is touched: a number of days
    that reaches back before [datetime.min] raises [OverflowError], also
    when the server is not connected - and the command [added] catches
    [RuntimeError] only. *)
Theorem recently_added_overflow plex now days :
  (Z.of_N now < days * microseconds_per_day)%Z →
  get_recently_added int_of plex now days = Raised OverflowError.
Proof.
  intros Hlt. unfold get_recently_added, recently_added_traced, cutoff_of.
  destruct (decide _); [|done]. destruct (decide _) as [Hin|]; [lia|done].
Qed.

End AdditionsFacts.

(** ** The command [added] *)

Section DictFacts.
Context {K V : Type} `{EqDecision K}.
Implicit Types (d : list (K * V)) (k : K) (f : V → V).

Lemma dict_upsert_keys k init f d :
  (dict_upsert k init f d).*1 = if decide (k ∈ d.*1) then d.*1 else d.*1 ++ [k].
Proof.
  induction d as [|[k' v] d IH]; [done|].
  rewrite fmap_cons. cbn [dict_upsert fst].
  destruct (decide (k' = k)) as [->|Hne]; rewrite fmap_cons; cbn [fst].
  - by rewrite decide_True by set_solver.
  - rewrite IH. destruct (decide (k ∈ d.*1)).
    + by rewrite decide_True by set_solver.
    + by rewrite decide_False by set_solver.
Qed.

Lemma dict_upsert_NoDup k init f d :
  NoDup d.*1 → NoDup (dict_upsert k init f d).*1.
Proof.
  intros Hnd. rewrite dict_upsert_keys. destruct (decide _); [done|].
  apply NoDup_app. split_and!; [done|set_solver|apply NoDup_singleton].
Qed.

(** What an entry of the updated dictionary holds. *)
Lemma dict_upsert_elem k init f d k' v' :
  NoDup d.*1 →
  (k', v') ∈ dict_upsert k init f d ↔
    (k' ≠ k ∧ (k', v') ∈ d)
    ∨ (k' = k ∧ ((∃ v, (k, v) ∈ d ∧ v' = f v) ∨ ((k ∉ d.*1) ∧ v' = f init))).
Proof.
  induction d as [|[k0 v0] d IH]; intros Hnd; cbn [dict_upsert].
  - rewrite list_elem_of_singleton. split.
    + intros [= -> ->]. right. split; [done|]. right. split; [|done].
      apply not_elem_of_nil.
    + intros [[_ Hin]|[-> [(v & Hin & _)|[_ ->]]]]; [|  |done];
        by apply elem_of_nil in Hin.
  - rewrite fmap_cons in Hnd. cbn [fst] in Hnd.
    apply NoDup_cons in Hnd as [Hk0 Hnd]. specialize (IH Hnd).
    assert (∀ v, (k0, v) ∉ d) as Hfresh.
    { intros v Hin. apply Hk0. apply list_elem_of_fmap. by exists (k0, v). }
    rewrite fmap_cons. cbn [fst].
    destruct (decide (k0 = k)) as [->|Hne].
    + clear IH. setoid_rewrite elem_of_cons. naive_solver.
    + rewrite elem_of_cons, IH. clear IH. setoid_rewrite elem_of_cons. naive_solver.
Qed.

(** A measure that the update raises by [c] is raised by [c] in the sum. *)
Lemma dict_upsert_count (m : V → nat) c k init f d :
  (∀ v, m (f v) = m v + c) → m init = 0 →
  sum_list (m <$> (dict_upsert k init f d).*2) = sum_list (m <$> d.*2) + c.
Proof.
  intros Hf Hinit. induction d as [|[k' v] d IH]; cbn [dict_upsert].
  - simpl. rewrite Hf, Hinit. lia.
  - destruct (decide (k' = k)); rewrite !fmap_cons; cbn [snd]; simpl;
      [rewrite Hf|rewrite IH]; lia.
Qed.

Lemma dict_upsert_size (m : V → N) c k init f d :
  (∀ v, m (f v) = (m v + c)%N) → m init = 0%N →
  sum_sizes (m <$> (dict_upsert k init f d).*2) = (sum_sizes (m <$> d.*2) + c)%N.
Proof.
  intros Hf Hinit. induction d as [|[k' v] d IH]; cbn [dict_upsert].
  - simpl. rewrite Hf, Hinit. lia.
  - destruct (decide (k' = k)); rewrite !fmap_cons; cbn [snd]; simpl;
      [rewrite Hf|rewrite IH]; lia.
Qed.

End DictFacts.

Lemma sum_sizes_app l1 l2 : sum_sizes (l1 ++ l2) = (sum_sizes l1 + sum_sizes l2)%N.
Proof. induction l1 as [|x l1 IH]; simpl; [done|rewrite IH; lia]. Qed.

Lemma filter_none {A} (P : A → Prop) `{∀ x, Decision (P x)} l :
  (∀ x, x ∈ l → ¬ P x) → filter P l = [].
Proof.
  induction l as [|x l IH]; intros Hall; [done|].
  rewrite filter_cons_False by (apply Hall; by left).
  apply IH. intros y Hin. apply Hall. by right.
Qed.

Lemma show_aggregates_snoc shows show :
  show_aggregates (shows ++ [show]) = aggregate_step (show_aggregates shows) show.
Proof. unfold show_aggregates. by rewrite foldl_app. Qed.

Lemma show_aggregates_NoDup shows : NoDup (show_aggregates shows).*1.
Proof.
  induction shows as [|show shows IH] using rev_ind; [apply NoDup_nil_2|].
  rewrite show_aggregates_snoc. by apply dict_upsert_NoDup.
Qed.

Lemma show_aggregates_keys shows key :
  key ∈ (show_aggregates shows).*1 ↔ ∃ row, row ∈ shows ∧ sh_rating_key row = key.
Proof.
  induction shows as [|show shows IH] using rev_ind.
  - split; [by intros ?%elem_of_nil|by intros (? & ?%elem_of_nil & _)].
  - rewrite show_aggregates_snoc. unfold aggregate_step. rewrite dict_upsert_keys.
    assert (key ∈ (show_aggregates shows).*1 ∨ key = sh_rating_key show
            ↔ ∃ row, row ∈ shows ++ [show] ∧ sh_rating_key row = key) as Hiff.
    { rewrite IH. split.
      - intros [(row & Hin & Hk)| ->]; [exists row|exists show]; set_solver.
      - intros (row & [Hin|Hin%list_elem_of_singleton]%elem_of_app & Hk).
        + left. by exists row.
        + right. by subst. }
    rewrite <- Hiff. destruct (decide _) as [Hin|Hnot].
    + split; [by left|]. by intros [?| ->].
    + rewrite elem_of_app, list_elem_of_singleton. done.
Qed.

Lemma show_aggregates_count shows :
  sum_list (ag_episode_count <$> (show_aggregates shows).*2) = length shows.
Proof.
  induction shows as [|show shows IH] using rev_ind; [done|].
  rewrite show_aggregates_snoc. unfold aggregate_step.
  rewrite (dict_upsert_count ag_episode_count 1) by done.
  rewrite IH, length_app. done.
Qed.

Lemma show_aggregates_size shows :
  sum_sizes (ag_size_bytes <$> (show_aggregates shows).*2)
  = sum_sizes (sh_size_bytes <$> shows).
Proof.
  induction shows as [|show shows IH] using rev_ind; [done|].
  rewrite show_aggregates_snoc. unfold aggregate_step.
  rewrite (dict_upsert_size ag_size_bytes (sh_size_bytes show)) by done.
  rewrite IH, fmap_app, sum_sizes_app. simpl. lia.
Qed.

(** [show_aggregates] holds one entry per show: its keys are distinct and
    are the rating keys of the rows; an entry counts the rows of its show,
    adds up their sizes, and has the title and the identifier of the first
    of them. *)
Theorem show_aggregates_spec shows :
  NoDup (show_aggregates shows).*1
  ∧ (∀ row, row ∈ shows → sh_rating_key row ∈ (show_aggregates shows).*1)
  ∧ ∀ key a, (key, a) ∈ show_aggregates shows →
      let rows := filter (λ row, sh_rating_key row = key) shows in
      ag_episode_count a = length rows
      ∧ ag_size_bytes a = sum_sizes (sh_size_bytes <$> rows)
      ∧ ∃ first, head rows = Some first
                 ∧ ag_title a = sh_title first ∧ ag_tmdb_id a = sh_tmdb_id first.
Proof.
  split; [apply show_aggregates_NoDup|]. split.
  { intros row Hin. apply show_aggregates_keys. by exists row. }
  induction shows as [|show shows IH] using rev_ind.
  { by intros key a ?%elem_of_nil. }
  intros key a. rewrite show_aggregates_snoc. unfold aggregate_step.
  rewrite dict_upsert_elem by apply show_aggregates_NoDup.
  rewrite filter_app. simpl.
  intros [[Hne Hin]|[-> [(v & Hin & ->)|[Hnot ->]]]].
  - rewrite filter_cons_False, filter_nil, app_nil_r by done. by apply IH.
  - rewrite filter_cons_True, filter_nil by done.
    destruct (IH _ _ Hin) as (Hc & Hs & first & Hhead & Ht & Hi). simpl.
    rewrite length_app, fmap_app, sum_sizes_app. simpl.
    split; [lia|]. split; [lia|]. exists first. split; [|done].
    destruct (filter _ shows); [done|]. by simplify_eq/=.
  - rewrite filter_cons_True, filter_nil by done.
    assert (filter (λ row, sh_rating_key row = sh_rating_key show) shows = []) as ->.
    { apply filter_none. intros row Hin Hk. apply Hnot.
      apply show_aggregates_keys. by exists row. }
    simpl. split; [done|]. split; [lia|]. by exists show.
Qed.

(** The lookup holds, for a key, the requester of the last request with
    that key, and nothing for a key that no request has. *)
Theorem build_tmdb_lookup_last_wins requests key :
  build_tmdb_lookup requests !! key
  = rq_requested_by <$> last (filter (λ req, request_key req = key) requests).
Proof.
  induction requests as [|req requests IH] using rev_ind; [done|].
  unfold build_tmdb_lookup in *. rewrite foldl_app, filter_app. simpl.
  destruct (decide (request_key req = key)) as [<-|Hne].
  - rewrite lookup_insert_eq, filter_cons_True, filter_nil, last_snoc by done. done.
  - rewrite lookup_insert_ne, filter_cons_False, filter_nil, app_nil_r by done. done.
Qed.

Lemma credit_NoDup req count size stats :
  NoDup stats.*1 → NoDup (credit req count size stats).*1.
Proof. apply dict_upsert_NoDup. Qed.

Lemma credited_NoDup {A} (name : A → string) (count : A → nat) (size : A → N) l stats :
  NoDup stats.*1 →
  NoDup (foldl (λ stats x, credit (name x) (count x) (size x) stats) stats l).*1.
Proof.
  revert stats. induction l as [|x l IH]; intros stats Hnd; [done|].
  simpl. apply IH. by apply credit_NoDup.
Qed.

Lemma credited_count {A} (name : A → string) (count : A → nat) (size : A → N) l stats :
  sum_list (st_count <$>
              (foldl (λ stats x, credit (name x) (count x) (size x) stats) stats l).*2)
  = sum_list (st_count <$> stats.*2) + sum_list (count <$> l).
Proof.
  revert stats. induction l as [|x l IH]; intros stats; [simpl; lia|].
  cbn [foldl]. rewrite IH, fmap_cons. unfold credit.
  rewrite (dict_upsert_count st_count (count x)) by done.
  change (sum_list (count x :: (count <$> l))) with (count x + sum_list (count <$> l)).
  lia.
Qed.

Lemma credited_size {A} (name : A → string) (count : A → nat) (size : A → N) l stats :
  sum_sizes (st_size <$>
               (foldl (λ stats x, credit (name x) (count x) (size x) stats) stats l).*2)
  = (sum_sizes (st_size <$> stats.*2) + sum_sizes (size <$> l))%N.
Proof.
  revert stats. induction l as [|x l IH]; intros stats; [simpl; lia|].
  cbn [foldl]. rewrite IH, fmap_cons. unfold credit.
  rewrite (dict_upsert_size st_size (size x)) by done.
  change (sum_sizes (size x :: (size <$> l))) with (size x + sum_sizes (size <$> l))%N.
  lia.
Qed.

Lemma sum_list_ones {A} (l : list A) : sum_list ((λ _, 1) <$> l) = length l.
Proof.
  induction l as [|x l IH]; [done|]. rewrite fmap_cons. cbn [length].
  rewrite <- IH. done.
Qed.

(** The statistics by requester name every requester once, and add up to
    the movies and episodes of the summary: no item is credited twice or
    lost. *)
Theorem requester_stats_add_up movies aggregated_shows recent :
  let stats := requester_stats movies aggregated_shows in
  let t := totals_of movies aggregated_shows recent in
  NoDup stats.*1
  ∧ sum_list (st_count <$> stats.*2) = movie_count t + episode_count t
  ∧ sum_sizes (st_size <$> stats.*2) = (movie_size t + show_size t)%N.
Proof.
  unfold requester_stats. simpl. split_and!.
  - apply (credited_NoDup snd (λ show, ag_episode_count show.1)
             (λ show, ag_size_bytes show.1)).
    apply (credited_NoDup snd (λ _, 1) (λ movie, mv_size_bytes movie.1)).
    apply NoDup_nil_2.
  - rewrite (credited_count snd (λ show, ag_episode_count show.1)
               (λ show, ag_size_bytes show.1)).
    rewrite (credited_count snd (λ _, 1) (λ movie, mv_size_bytes movie.1)).
    rewrite sum_list_ones. done.
  - rewrite (credited_size snd (λ show, ag_episode_count show.1)
               (λ show, ag_size_bytes show.1)).
    rewrite (credited_size snd (λ _, 1) (λ movie, mv_size_bytes movie.1)).
    simpl. lia.
Qed.

Section AddedFacts.
Context (int_of : string → option Z) (format_size : N → string) (lower : string → string).

(** Without a user filter the summary of [added] counts every episode row
    and all their bytes, although the shows are merged by rating key
    before they are counted. *)
Theorem added_counts_every_episode plex overseerr now days user recent e :
  get_recently_added int_of plex now days = Returned recent →
  given_user user = None →
  added_command int_of format_size lower plex overseerr now days user
    = Returned (Embedded e) →
  head (em_fields e)
  = Some ("Summary"%string,
          summary_text format_size
            {| movie_count := length (rc_movies recent);
               movie_size := sum_sizes (mv_size_bytes <$> rc_movies recent);
               episode_count := length (rc_shows recent);
               show_size := sum_sizes (sh_size_bytes <$> rc_shows recent);
               music_count := length (rc_music recent);
               music_size := default 0%N (rc_music_total_size recent) |}).
Proof.
  intros Hrecent Huser. unfold added_command. rewrite Hrecent, Huser.
  destruct (_ && _); [done|]. intros [= <-]. simpl. do 3 f_equal.
  unfold totals_of. rewrite length_fmap, <- !list_fmap_compose.
  f_equal.
  - rewrite (list_fmap_compose snd ag_episode_count). apply show_aggregates_count.
  - rewrite (list_fmap_compose snd ag_size_bytes). apply show_aggregates_size.
Qed.

End AddedFacts.

(** ** Album enrichment *)

Lemma prefix_app pat s : String.prefix pat (pat +:+ s) = true.
Proof.
  induction pat as [|c pat IH]; simpl; [by destruct s|].
  destruct (Stdlib.Strings.Ascii.ascii_dec c c); [done|congruence].
Qed.

Lemma contains_app_r pat a b : contains pat b = true → contains pat (a +:+ b) = true.
Proof.
  intros Hb. induction a as [|c a IH]; [done|].
  simpl. rewrite IH. apply orb_true_r.
Qed.

Lemma contains_infix pat a b : contains pat (a +:+ pat +:+ b) = true.
Proof.
  apply contains_app_r. pose proof (prefix_app pat b) as Hprefix.
  destruct (pat +:+ b); cbn [contains]; by rewrite Hprefix.
Qed.

Lemma marked_summary a rest :
  contains autoalex_marker (a +:+ newline +:+ newline +:+ autoalex_marker +:+ rest) = true.
Proof. do 3 apply contains_app_r. apply (contains_infix _ ""). Qed.

(** Every text that steps 1 and 2 produce carries the marker. *)
Lemma enrichment_text_marked mb query text :
  enrichment_text mb query = Some (Some text) →
  ∃ rest, text = newline +:+ newline +:+ autoalex_marker +:+ rest.
Proof.
  unfold enrichment_text. intros Htext.
  destruct (search_releases mb query) as [[[|release ?]|]|]; simplify_eq/=.
  destruct (mbh_id release); simplify_eq/=. destruct (mbh_title release); simplify_eq/=.
  destruct (get_release_by_id mb _) as [[details|]|]; simplify_eq/=.
  destruct (from_option credits_of _ _); simplify_eq/=.
  destruct (mbr_title details) as [title|]; simplify_eq/=.
  destruct (mbr_date details) as [date|].
  - by exists (" MusicBrainz Identified: " +:+ title +:+ " (" +:+ date +:+ ")").
  - by exists (" MusicBrainz Identified: " +:+ title).
Qed.

(** What one call does to an album. *)
Lemma enrich_jazz_album_step mb plex query albums result albums' key album :
  enrich_jazz_album mb plex query albums = (result, albums') →
  albums !! key = Some album →
  albums' !! key = Some album
  ∨ (contains autoalex_marker (default "" (al_summary album)) = false
     ∧ ∃ rest,
         albums' !! key
         = Some {| al_title := al_title album;
                   al_summary :=
                     Some (default "" (al_summary album) +:+ newline +:+ newline
                           +:+ autoalex_marker +:+ rest) |}).
Proof.
  unfold enrich_jazz_album. intros Hrun Hkey.
  destruct (enrichment_text mb query) as [[text|]|] eqn:Htext;
    [|by simplify_eq; left..].
  apply enrichment_text_marked in Htext as [rest ->].
  destruct plex as [server|]; [|by simplify_eq; left].
  destruct (as_sections server) as [sections|]; [|by simplify_eq; left].
  destruct (find_album _ _ _) as [[target|]|]; [|by simplify_eq; left..].
  destruct (albums !! target) as [target_album|] eqn:Htarget; [|by simplify_eq; left].
  destruct (contains _ _) eqn:Hmarked; [by simplify_eq; left|].
  destruct (as_edit_fails server); [by simplify_eq; left|].
  injection Hrun as _ <-. destruct (decide (target = key)) as [->|Hne].
  - rewrite Hkey in Htarget. simplify_eq. right. split; [done|].
    exists rest. by rewrite lookup_insert_eq.
  - left. by rewrite lookup_insert_ne.
Qed.

(** [enrich_jazz_album] never edits an album whose summary carries the
    marker; an edit keeps the title and the summary and appends a text
    that starts, after an empty line, with the marker. *)
Theorem enrich_appends_marked_text mb plex query albums key album :
  albums !! key = Some album →
  let albums' := (enrich_jazz_album mb plex query albums).2 in
  albums' !! key = Some album
  ∨ (contains autoalex_marker (default "" (al_summary album)) = false
     ∧ ∃ rest,
         albums' !! key
         = Some {| al_title := al_title album;
                   al_summary :=
                     Some (default "" (al_summary album) +:+ newline +:+ newline
                           +:+ autoalex_marker +:+ rest) |}).
Proof.
  intros Hkey. simpl.
  destruct (enrich_jazz_album mb plex query albums) as [result albums'] eqn:Hrun.
  by eapply enrich_jazz_album_step.
Qed.

(** Enrichment does not pile up: an album that one call has edited is left
    alone by every later call, whatever the query and whatever MusicBrainz
    and the server answer then. *)
Theorem enrich_once mb plex query mb' plex' query' albums key album :
  albums !! key = Some album →
  let albums1 := (enrich_jazz_album mb plex query albums).2 in
  let albums2 := (enrich_jazz_album mb' plex' query' albums1).2 in
  albums1 !! key ≠ Some album → albums2 !! key = albums1 !! key.
Proof.
  intros Hkey. simpl.
  destruct (enrich_jazz_album mb plex query albums) as [result albums1] eqn:Hrun1.
  simpl.
  destruct (enrich_jazz_album mb' plex' query' albums1) as [result' albums2] eqn:Hrun2.
  simpl. intros Hedited.
  destruct (enrich_jazz_album_step _ _ _ _ _ _ _ _ Hrun1 Hkey)
    as [Hsame|(_ & rest & Hnew)]; [done|].
  destruct (enrich_jazz_album_step _ _ _ _ _ _ _ _ Hrun2 Hnew)
    as [Hsame|(Hclean & _)]; [by rewrite Hsame|].
  exfalso. revert Hclean.
  change (contains autoalex_marker
            (default "" (al_summary album) +:+ newline +:+ newline
             +:+ autoalex_marker +:+ rest) = false → False).
  by rewrite marked_summary.
Qed.

(** * The theorems at concrete catalogs *)

(** [B] is folded before [A] and holds [X] with the later timestamp: the
    entry of [X] is [A]'s. *)
Lemma earliest_wins_witness :
  ∃ v, info_lookup 7 (collected_info ["B"; "A"] "Jam Jar" jam_world) = Some v
    ∧ ti_added_at v = Some 1%N ∧ ti_added_by v = "A".
Proof.
  apply (earliest_wins ["B"; "A"] "Jam Jar" jam_world "A"
           (holding "Jam Jar" [X_of_A])
           {| pl_title := "Jam Jar"; pl_items := [X_of_A] |} X_of_A 7 1%N).
  - right. left.
  - vm_compute. reflexivity.
  - reflexivity.
  - vm_compute. reflexivity.
  - left.
  - reflexivity.
  - reflexivity.
  - intros B rB plB y HB HrB HplB Hy Hk.
    apply elem_of_cons in HB as [->|HB];
      [|apply elem_of_cons in HB as [->|HB]; [|by apply elem_of_nil in HB]].
    + vm_compute in HrB. injection HrB as <-.
      vm_compute in HplB. injection HplB as <-.
      apply elem_of_cons in Hy as [->|Hy].
      * right. left. exists 2%N. split; [reflexivity|lia].
      * apply list_elem_of_singleton in Hy as ->. vm_compute in Hk. discriminate Hk.
    + vm_compute in HrB. injection HrB as <-.
      vm_compute in HplB. injection HplB as <-.
      apply list_elem_of_singleton in Hy as ->. right. right. split; reflexivity.
Defined.

(** [C], who had no playlist, ends with the merged list. *)
Lemma full_replace_converges_witness :
  ∃ res w' r',
    call sync_initial (sync_jam_jar no_format ["A"; "B"; "C"] "Jam Jar") jam_world
      = (Ok res, w')
    ∧ w_users w' !! "C" = Some r'
    ∧ contents "Jam Jar" r' = merged_tracks ["A"; "B"; "C"] "Jam Jar" jam_world
    ∧ (merged_tracks ["A"; "B"; "C"] "Jam Jar" jam_world ≠ [] →
         ∃ pl, lookup_playlist "Jam Jar" r' = Some pl
           ∧ pl_items pl = merged_tracks ["A"; "B"; "C"] "Jam Jar" jam_world)
    ∧ jam_total res = length (merged_tracks ["A"; "B"; "C"] "Jam Jar" jam_world).
Proof.
  apply (full_replace_converges no_format ["A"; "B"; "C"] "Jam Jar" jam_world "C"
           (replica_of [] [])).
  - right. right. left.
  - vm_compute. reflexivity.
  - reflexivity.
Defined.

(** The broadcast scenario satisfies the general statement. *)
Lemma broadcast_scope_witness :
  let merged := merged_tracks ["A"; "B"] "Staff Picks" broadcast_scenario in
  ∃ res w',
    call sync_initial (sync_staff_picks no_format ["A"; "B"] "Staff Picks")
      broadcast_scenario = (Ok res, w')
    ∧ sp_total res = length merged
    ∧ synced "Staff Picks" merged (w_admin w')
    ∧ (∃ r', w_users w' !! "C" = Some r' ∧ synced "Staff Picks" merged r')
    ∧ sp_users_updated res = 4.
Proof.
  destruct (proj1 broadcast_scope no_format ["A"; "B"] "Staff Picks" broadcast_scenario
              [home "A"; home "B"; home "C"] eq_refl)
    as (res & w' & Hcall & Htotal & _ & Hadmin & Hhome & _ & Hcount).
  exists res, w'. split; [exact Hcall|]. split; [exact Htotal|].
  assert (merged_tracks ["A"; "B"] "Staff Picks" broadcast_scenario ≠ []) as Hm.
  { vm_compute. discriminate. }
  split; [apply Hadmin; [exact Hm|reflexivity]|]. split.
  - apply (Hhome Hm (home "C") (replica_of [] [])).
    + right. right. left.
    + reflexivity.
    + vm_compute. reflexivity.
    + reflexivity.
  - rewrite Hcount; [reflexivity|exact Hm|reflexivity|].
    intros user Hu Hh.
    apply elem_of_cons in Hu as [->|Hu];
      [|apply elem_of_cons in Hu as [->|Hu];
        [|apply list_elem_of_singleton in Hu as ->]].
    + eexists. split; [vm_compute; reflexivity|reflexivity].
    + eexists. split; [vm_compute; reflexivity|reflexivity].
    + eexists. split; [vm_compute; reflexivity|reflexivity].
Defined.

(** A full playlist that receives a new track is within the cap after the
    run. *)
Lemma cap_invariant_witness :
  ∃ res w' r',
    call raves_initial
      (update_recent_raves no_format ["A"] default_max_songs "Recent Raves")
      full_playlist_world = (Ok res, w')
    ∧ w_users w' !! "A" = Some r'
    ∧ length (contents "Recent Raves" r') ≤ default_max_songs.
Proof.
  apply (proj1 cap_invariant no_format ["A"] default_max_songs "Recent Raves"
           full_playlist_world "A"
           {| r_sections := music (numbered (seq 1 51));
              r_playlists := [{| pl_title := "Recent Raves";
                                 pl_items := numbered (reverse (seq 1 50)) |}];
              r_faults := [] |}).
  - unfold default_max_songs. lia.
  - left.
  - vm_compute. reflexivity.
  - split; [reflexivity|]. vm_compute. left. lia.
Defined.

(** No write to [B] succeeds: the calls return, [C], visited after [B],
    receives its write, [B] is not counted, and [A] and [C] are counted
    with the two merged tracks each. *)
Lemma failure_isolation_witness :
  (∃ res w' r',
     call raves_initial
       (update_recent_raves no_format ["A"; "B"; "C"] default_max_songs "Recent Raves")
       faulty_world = (Ok res, w')
     ∧ w_users w' !! "C" = Some r'
     ∧ delivered (merged_ratings ["A"; "B"; "C"] default_max_songs faulty_world)
         default_max_songs "Recent Raves" r'
     ∧ added res ≤ total res * 2
     ∧ 4 ≤ added res)
  ∧ (∃ res w' r',
       call sync_initial (sync_staff_picks no_format ["A"] "Staff Picks")
         faulty_broadcast = (Ok res, w')
       ∧ w_users w' !! "C" = Some r'
       ∧ synced "Staff Picks" (merged_tracks ["A"] "Staff Picks" faulty_broadcast) r'
       ∧ 3 ≤ sp_users_updated res ∧ sp_users_updated res ≤ 3).
Proof.
  split.
  - destruct (proj1 failure_isolation no_format ["A"; "B"; "C"] default_max_songs
                "Recent Raves" faulty_world)
      as (res & w' & Hcall & _ & _ & Hdel & Hadded & Hcounted).
    destruct (Hdel ltac:(vm_compute; discriminate) "C" (replica_of [] []))
      as (r' & Hr' & Hd).
    + right. right. left.
    + vm_compute. reflexivity.
    + reflexivity.
    + exists res, w', r'. split; [exact Hcall|]. split; [exact Hr'|].
      split; [exact Hd|]. split; [exact Hadded|exact Hcounted].
  - destruct (proj2 failure_isolation no_format ["A"] "Staff Picks" faulty_broadcast
                [home "A"; home "B"; home "C"] eq_refl)
      as (res & w' & Hcall & _ & _ & Hdel & Hlower & Hupper).
    assert (merged_tracks ["A"] "Staff Picks" faulty_broadcast ≠ []) as Hm.
    { vm_compute. discriminate. }
    destruct (Hdel Hm (Some (home "C")) (replica_of [] [])) as (r' & Hr' & Hs).
    + right. right. right. left.
    + vm_compute. reflexivity.
    + reflexivity.
    + exists res, w', r'. split; [exact Hcall|]. split; [exact Hr'|].
      split; [exact Hs|]. split; [exact (Hlower Hm)|exact Hupper].
Defined.



(** Nothing is rated and no playlist exists: zero results, catalog as
    before. *)
Lemma empty_merge_witness :
  call raves_initial
    (update_recent_raves no_format ["A"; "B"] default_max_songs "Recent Raves")
    quiet_world = (Ok {| added := 0; total := 0; tracks := [] |}, quiet_world)
  ∧ call sync_initial (sync_jam_jar no_format ["A"; "B"] "Jam Jar") quiet_world
    = (Ok {| jam_total := 0; jam_tracks := [] |}, quiet_world)
  ∧ call sync_initial (sync_staff_picks no_format ["A"] "Staff Picks") quiet_world
    = (Ok {| sp_total := 0; sp_tracks := []; sp_users_updated := 0 |}, quiet_world).
Proof.
  destruct empty_merge as (Hraves & Hjam & Hstaff).
  split; [|split].
  - apply Hraves. vm_compute. reflexivity.
  - apply Hjam. vm_compute. reflexivity.
  - apply Hstaff. vm_compute. reflexivity.
Defined.

(** [U] has no timestamp and [V] was added on day 5: [V] comes first. *)
Lemma untimestamped_last_witness :
  sorted_info (collected_info ["A"] "Jam Jar" mixed_world)
    = [new_info "A" (member_item 2 "V" (Some 5%N)); new_info "A" (member_item 1 "U" None)]
  ∧ 0 < 1.
Proof.
  split; [vm_compute; reflexivity|].
  destruct (untimestamped_last ["A"] "Jam Jar" mixed_world) as (_ & _ & Horder).
  apply (Horder 1 0 (new_info "A" (member_item 1 "U" None))
           (new_info "A" (member_item 2 "V" (Some 5%N))) 5%N).
  - vm_compute. reflexivity.
  - vm_compute. reflexivity.
  - reflexivity.
  - reflexivity.
  - unfold datetime_min. lia.
Defined.

(** [A]'s playlist has room for the new track 3: the second run adds
    nothing. *)
Lemma rerun_without_eviction_witness :
  ∃ res1 w1 res2 w2,
    call raves_initial
      (update_recent_raves no_format ["A"; "B"] default_max_songs "Recent Raves")
      roomy_world = (Ok res1, w1)
    ∧ call raves_initial
        (update_recent_raves no_format ["A"; "B"] default_max_songs "Recent Raves") w1
        = (Ok res2, w2)
    ∧ added res2 = 0 ∧ total res2 = total res1 ∧ tracks res2 = tracks res1.
Proof.
  apply (rerun_without_eviction no_format ["A"; "B"] default_max_songs "Recent Raves"
           roomy_world).
  intros u Hu.
  apply elem_of_cons in Hu as [->|Hu]; [|apply list_elem_of_singleton in Hu as ->].
  - eexists. split; [vm_compute; reflexivity|]. split; [reflexivity|].
    vm_compute. left. lia.
  - eexists. split; [vm_compute; reflexivity|]. split; [reflexivity|].
    vm_compute. exact I.
Defined.

(** The broadcast of the reference scenario leaves a user outside the
    account's home alone. *)
Lemma staff_picks_targets_only_witness :
  ∃ res w',
    call sync_initial (sync_staff_picks no_format ["A"; "B"] "Staff Picks")
      broadcast_with_guest = (Ok res, w')
    ∧ sp_total res
        = length (merged_tracks ["A"; "B"] "Staff Picks" broadcast_with_guest)
    ∧ w_account w' = w_account broadcast_with_guest
    ∧ ∀ username,
        username ∉ u_title <$> filter (λ u, u_home u = true)
                                 [home "A"; home "B"; home "C"; guest "E"] →
        w_users w' !! username = w_users broadcast_with_guest !! username.
Proof.
  apply (staff_picks_targets_only no_format ["A"; "B"] "Staff Picks"
           broadcast_with_guest). reflexivity.
Defined.

Lemma staff_picks_account_unavailable_witness :
  call sync_initial (sync_staff_picks no_format ["A"] "Staff Picks") accountless_world
    = (Raise CatalogReadFailure, accountless_world).
Proof.
  apply staff_picks_account_unavailable; [reflexivity|]. by vm_compute.
Defined.

(** [A]'s two tracks are gone after the pass. *)
Lemma replace_is_not_atomic_witness :
  ∃ res w' r',
    call sync_initial (sync_jam_jar no_format ["A"; "B"] "Jam Jar") refusing_world
      = (Ok res, w')
    ∧ jam_total res = length (merged_tracks ["A"; "B"] "Jam Jar" refusing_world)
    ∧ 0 < jam_total res
    ∧ w_users w' !! "A" = Some r'
    ∧ emptied "Jam Jar" r'.
Proof.
  eapply (replace_is_not_atomic no_format ["A"; "B"] "Jam Jar" refusing_world "A").
  - left.
  - vm_compute. reflexivity.
  - by vm_compute.
  - vm_compute. reflexivity.
  - done.
Defined.

Lemma top_rated_replaces_witness :
  ∃ w',
    call [] (create_playlist_from_rating unit id
               (answer_all [rated 1 "T1" 1; rated 2 "T2" 2]) () "Top Rated")
      (rated_admin [])
      = (Ok (length [rated 1 "T1" 1; rated 2 "T2" 2]), w')
    ∧ contents "Top Rated" (w_admin w') = [rated 1 "T1" 1; rated 2 "T2" 2]
    ∧ w_users w' = w_users (rated_admin []).
Proof.
  apply (top_rated_replaces unit id (answer_all [rated 1 "T1" 1; rated 2 "T2" 2]) ()
           "Top Rated" (rated_admin [])); [reflexivity|reflexivity|done].
Defined.

(** The old track is gone and the new ones did not arrive. *)
Lemma top_rated_not_atomic_witness :
  ∃ w',
    call [] (create_playlist_from_rating unit id
               (answer_all [rated 1 "T1" 1; rated 2 "T2" 2]) () "Top Rated")
      (rated_admin [FAdd])
      = (Raise PlaylistWriteFailure, w')
    ∧ emptied "Top Rated" (w_admin w').
Proof.
  eapply (top_rated_not_atomic unit id (answer_all [rated 1 "T1" 1; rated 2 "T2" 2]) ()
            "Top Rated" (rated_admin [FAdd])).
  - by vm_compute.
  - reflexivity.
  - done.
  - reflexivity.
Defined.

Lemma recently_added_window_witness :
  ∃ results cutoff,
    get_recently_added int_of_digits (Some example_server) (day 20) 7 = Returned results
    ∧ Z.of_N cutoff = (Z.of_N (day 20) - 7 * microseconds_per_day)%Z
    ∧ Forall (λ row, (cutoff ≤ mv_added_at row)%N) (rc_movies results)
    ∧ Forall (λ row, (cutoff ≤ sh_added_at row)%N) (rc_shows results)
    ∧ Forall (λ row, (cutoff ≤ mu_added_at row)%N) (rc_music results).
Proof.
  eexists.
  destruct (recently_added_window int_of_digits (Some example_server) (day 20) 7 _
              ltac:(vm_compute; reflexivity)) as (cutoff & H).
  exists cutoff. split; [vm_compute; reflexivity|exact H].
Defined.

(** Two episodes of show 100: one request, one identifier. *)
Lemma show_lookups_cached_witness :
  ∃ results fetched,
    recently_added_traced int_of_digits (Some example_server) (day 20) 7
      = Returned (results, fetched)
    ∧ sh_tmdb_id <$> rc_shows results = [Some 603%Z; Some 603%Z]
    ∧ fetched = [100%Z]
    ∧ NoDup fetched
    ∧ (∀ key, key ∈ fetched → ∃ row, row ∈ rc_shows results ∧ sh_rating_key row = key)
    ∧ ∀ row row', row ∈ rc_shows results → row' ∈ rc_shows results →
        sh_rating_key row = sh_rating_key row' → sh_tmdb_id row = sh_tmdb_id row'.
Proof.
  eexists _, _. split; [vm_compute; reflexivity|].
  split; [reflexivity|]. split; [reflexivity|].
  apply (show_lookups_cached int_of_digits (Some example_server) (day 20) 7).
  vm_compute. reflexivity.
Defined.

(** The movie of day 18 is reported although the first movie section
    raises. *)
Lemma recently_added_survives_failures_witness :
  ∃ results,
    get_recently_added int_of_digits (Some example_server) (day 20) 7 = Returned results
    ∧ movie_row int_of_digits (plain_item 1 "New" (Some (day 18))) (day 18)
        ∈ rc_movies results.
Proof.
  eexists. split; [vm_compute; reflexivity|].
  eapply (recently_added_survives_failures int_of_digits (Some example_server) (day 20) 7
            _ example_server _ (day 13)
            (listing_only "movie"
               (Some [plain_item 1 "New" (Some (day 18)); plain_item 2 "Old" (Some (day 3));
                      plain_item 3 "Undated" None]) None)).
  - vm_compute. reflexivity.
  - reflexivity.
  - reflexivity.
  - vm_compute. reflexivity.
  - right. left.
  - reflexivity.
  - reflexivity.
  - left.
  - reflexivity.
  - vm_compute. discriminate.
Defined.

(** A hundred thousand days reach back before year 1. *)
Lemma recently_added_overflow_witness :
  get_recently_added int_of_digits None (day 20) 100000 = Raised OverflowError.
Proof. apply recently_added_overflow. by vm_compute. Defined.

(** The example server, all users: one movie and two episodes of one
    show. *)
Lemma added_counts_every_episode_witness :
  ∃ e,
    added_command int_of_digits pretty id (Some example_server) None (day 20) 7 None
      = Returned (Embedded e)
    ∧ head (em_fields e)
      = Some ("Summary"%string,
              summary_text pretty
                {| movie_count := 1; movie_size := 700; episode_count := 2;
                   show_size := 0; music_count := 0; music_size := 0 |}).
Proof.
  eexists. split; [vm_compute; reflexivity|].
  etransitivity.
  - eapply (added_counts_every_episode int_of_digits pretty id (Some example_server) None
              (day 20) 7 None); reflexivity.
  - vm_compute. reflexivity.
Defined.

(** The first call appends the release to the empty summary. *)
Lemma enrich_appends_marked_text_witness :
  example_albums !! 7%Z = Some {| al_title := "Kind of Blue"; al_summary := None |}
  ∧ (enrich_jazz_album example_brainz (Some example_album_server) "kind of blue"
       example_albums).2 !! 7%Z
    = Some {| al_title := "Kind of Blue";
              al_summary :=
                Some (newline +:+ newline
                      +:+ "[Autoalex] MusicBrainz Identified: Kind of Blue (1959)") |}
  ∧ ((enrich_jazz_album example_brainz (Some example_album_server) "kind of blue"
        example_albums).2 !! 7%Z
     = Some {| al_title := "Kind of Blue"; al_summary := None |}
     ∨ (contains autoalex_marker "" = false
        ∧ ∃ rest,
            (enrich_jazz_album example_brainz (Some example_album_server) "kind of blue"
               example_albums).2 !! 7%Z
            = Some {| al_title := "Kind of Blue";
                      al_summary :=
                        Some ("" +:+ newline +:+ newline +:+ autoalex_marker
                              +:+ rest) |})).
Proof.
  split; [reflexivity|]. split; [vm_compute; reflexivity|].
  apply (enrich_appends_marked_text example_brainz (Some example_album_server)
           "kind of blue" example_albums 7%Z
           {| al_title := "Kind of Blue"; al_summary := None |}).
  reflexivity.
Defined.

(** The second call changes nothing. *)
Lemma enrich_once_witness :
  (enrich_jazz_album example_brainz (Some example_album_server) "kind of blue"
     (enrich_jazz_album example_brainz (Some example_album_server) "kind of blue"
        example_albums).2).2 !! 7%Z
  = (enrich_jazz_album example_brainz (Some example_album_server) "kind of blue"
       example_albums).2 !! 7%Z.
Proof.
  apply (enrich_once example_brainz (Some example_album_server) "kind of blue"
           example_brainz (Some example_album_server) "kind of blue" example_albums 7%Z
           {| al_title := "Kind of Blue"; al_summary := None |}).
  - reflexivity.
  - vm_compute. discriminate.
Defined.
